(** * nntransfer / bias_transfer: training-loop orchestration

    A shallow embedding of the data cyclers and the early-stopping
    controller of [bias_transfer/trainer/utils.py] and of the lottery-ticket
    pruner of [bias_transfer/trainer/main_loop_modules/lottery_ticket_pruning.py],
    with the properties the specification states about them.

    Conventions.  Python floats are idealised: rationals [Q] where only
    comparison, negation and multiplication by a 0/1 mask occur, extended by
    [inf], [-inf] and [nan] where the code tests finiteness, and reals [R]
    where a fractional power is taken.  A Python [dict] whose enumeration
    order matters is an association list in insertion order.  Objects that
    Python shares by reference (the [itertools.cycle] iterators of the
    cyclers) live in an explicit store that is updated by index. *)

From Stdlib Require Import ZArith QArith Qabs Qround Reals Lia Lra Lqa String Ascii.
From stdpp Require Import base list strings.

Set Default Proof Using "Type".

(** ** Arithmetic of round-robin positions *)

Lemma mod_succ (n t : nat) :
  0 < n ->
  S t `mod` n = if decide (S (t `mod` n) = n) then 0 else S (t `mod` n).
Proof.
  intros Hn.
  pose proof (Nat.div_mod_eq t n) as Ht.
  pose proof (Nat.mod_upper_bound t n ltac:(lia)) as Hr.
  destruct (decide (S (t `mod` n) = n)) as [e|ne]; symmetry.
  - apply (Nat.mod_unique (S t) n (S (t `div` n)) 0); [lia|].
    rewrite Nat.mul_succ_r. lia.
  - apply (Nat.mod_unique (S t) n (t `div` n) (S (t `mod` n))); lia.
Qed.

Lemma div_succ (n t : nat) :
  0 < n ->
  S t `div` n = if decide (S (t `mod` n) = n) then S (t `div` n) else t `div` n.
Proof.
  intros Hn.
  pose proof (Nat.div_mod_eq t n) as Ht.
  pose proof (Nat.mod_upper_bound t n ltac:(lia)) as Hr.
  destruct (decide (S (t `mod` n) = n)) as [e|ne]; symmetry.
  - apply (Nat.div_unique (S t) n (S (t `div` n)) 0); [lia|].
    rewrite Nat.mul_succ_r. lia.
  - apply (Nat.div_unique (S t) n (t `div` n) (S (t `mod` n))); lia.
Qed.

(** ** [itertools.cycle]

    [cycle(iterable)] hands out the elements of [iterable] while saving them
    and, once the iterable is exhausted, replays the saved elements for ever.
    On an empty iterable the first [next] raises [StopIteration]. *)

Module Itertools.
Section Cycle.
Context {A : Type}.

Inductive cycle : Type :=
| FirstPass (rest saved : list A)
| Replay (rest saved : list A).

Definition cycle_of (l : list A) : cycle := FirstPass l [].

(** [next c]: [None] is [StopIteration]. *)
Definition next (c : cycle) : option (A * cycle) :=
  match c with
  | FirstPass (x :: r) s => Some (x, FirstPass r (s ++ [x]))
  | Replay (x :: r) s => Some (x, Replay r s)
  | FirstPass [] s | Replay [] s =>
      match s with
      | [] => None
      | x :: r => Some (x, Replay r s)
      end
  end.

(** The iterator after [k] calls of [next] on [cycle_of l]. *)
Definition cyc_at (l : list A) (k : nat) : cycle :=
  if decide (k <= length l) then FirstPass (drop k l) (take k l)
  else Replay (drop (S ((k - 1) `mod` length l)) l) l.

Lemma cyc_at_0 l : cyc_at l 0 = cycle_of l.
Proof. unfold cyc_at, cycle_of. simpl. by rewrite drop_0. Qed.

Lemma next_cyc_at (l : list A) (k : nat) (x : A) :
  l !! (k `mod` length l) = Some x ->
  next (cyc_at l k) = Some (x, cyc_at l (S k)).
Proof.
  intros Hx.
  assert (Hlen : 0 < length l).
  { apply lookup_lt_Some in Hx. lia. }
  unfold cyc_at.
  destruct (decide (k <= length l)) as [Hk|Hk].
  - destruct (decide (k = length l)) as [->|Hne].
    + rewrite Nat.Div0.mod_same in Hx.
      rewrite drop_all, firstn_all. simpl.
      destruct l as [|y r]; [done|]. simpl in Hx. simplify_eq.
      destruct (decide (S (length (x :: r)) <= length (x :: r))); [lia|].
      replace (S (length (x :: r)) - 1) with (length (x :: r)) by lia.
      rewrite Nat.Div0.mod_same. done.
    + rewrite Nat.mod_small in Hx by lia.
      rewrite (drop_S _ _ _ Hx). simpl.
      destruct (decide (S k <= length l)); [|lia].
      by rewrite (take_S_r _ _ _ Hx).
  - destruct (decide (S k <= length l)); [lia|].
    replace (S k - 1) with (S (k - 1)) by lia.
    replace (k `mod` length l) with (S (k - 1) `mod` length l) in Hx
      by (f_equal; lia).
    rewrite mod_succ in * by done.
    destruct (decide (S ((k - 1) `mod` length l) = length l)) as [e|ne].
    + rewrite e, drop_all. simpl.
      destruct l as [|y r]; [done|]. simpl in Hx. simplify_eq. done.
    + rewrite (drop_S _ _ _ Hx). done.
Qed.
End Cycle.
Global Arguments cycle : clear implicits.
End Itertools.

(** ** Data cyclers ([LongCycler], [MTL_Cycler])

    A generator run is the list of the values it yields together with the
    way it ends: [Exhausted] (normal end of the iteration) or [Raises]
    (an exception escapes; a [StopIteration] raised by [next] inside the
    generator body surfaces as a [RuntimeError]). *)

Module Cycler.
Import Itertools.

Inductive ending : Type := Exhausted | Raises.

Definition run (A : Type) : Type := (list A * ending)%type.

Definition yield {A : Type} (x : A) (r : run A) : run A := (x :: r.1, r.2).

(** Number of [next] calls source [j] has received before step [t] of a
    round-robin over [n] sources. *)
Definition visits (n j t : nat) : nat :=
  t `div` n + (if decide (j < t `mod` n) then 1 else 0).

Lemma visits_succ (n j t : nat) :
  j < n ->
  visits n j (S t) = visits n j t + (if decide (j = t `mod` n) then 1 else 0).
Proof.
  intros Hj. unfold visits.
  pose proof (Nat.mod_upper_bound t n ltac:(lia)) as Hr.
  rewrite mod_succ, div_succ by lia.
  repeat case_decide; lia.
Qed.

Lemma visits_current (n t : nat) : visits n (t `mod` n) t = t `div` n.
Proof. unfold visits. case_decide; lia. Qed.

Section Cyclers.
Context {K B : Type} `{EqDecision K}.

(** [loaders]: the dict of data loaders; a loader is the list of the
    batches one traversal produces. *)
Local Abbreviation loaders := (list (K * list B)).

(** The shared [cycle] iterators, one per loader, in dict order. *)
Definition cycles_of (l : loaders) : list (cycle B) :=
  (fun kv => cycle_of kv.2) <$> l.

(** The store after [t] round-robin steps. *)
Definition store_at (l : loaders) (t : nat) : list (cycle B) :=
  imap (fun j kv => cyc_at kv.2 (visits (length l) j t)) l.

Lemma store_at_0 l : store_at l 0 = cycles_of l.
Proof.
  unfold store_at, cycles_of. apply list_eq. intros j.
  rewrite list_lookup_imap, list_lookup_fmap.
  destruct (l !! j) as [kv|] eqn:E; simpl; [|done].
  unfold visits. rewrite Nat.Div0.div_0_l, Nat.Div0.mod_0_l.
  case_decide; [lia|]. by rewrite cyc_at_0.
Qed.

Lemma store_at_step (l : loaders) (t : nat) k src :
  l !! (t `mod` length l) = Some (k, src) ->
  <[t `mod` length l := cyc_at src (S (t `div` length l))]> (store_at l t)
  = store_at l (S t).
Proof.
  intros Hi. unfold store_at. apply list_eq. intros j.
  rewrite list_lookup_insert, !list_lookup_imap, length_imap.
  destruct (l !! j) as [kv|] eqn:E; simpl.
  - assert (j < length l) by (by eapply lookup_lt_Some).
    rewrite visits_succ by done.
    case_decide as Hd.
    + destruct Hd as [<- _]. rewrite E in Hi. simplify_eq. simpl.
      rewrite visits_current. case_decide; [|done].
      do 2 f_equal. lia.
    + case_decide; [subst j; destruct Hd; split; lia|].
      by rewrite Nat.add_0_r.
  - case_decide as Hd; [|done].
    destruct Hd as [<- Hlt]. apply lookup_ge_None in E. lia.
Qed.

(** The pair a round-robin over [l] hands out at step [t]: the
    [t mod n]-th key and the [(t div n) mod len]-th batch of its source. *)
Definition round_robin_at (l : loaders) (t : nat) : option (K * B) :=
  '(k, src) ← l !! (t `mod` length l);
  b ← src !! ((t `div` length l) `mod` length src);
  Some (k, b).

(** *** LongCycler *)

Record LongCycler : Type := {
  lc_loaders : loaders;
  max_batches : nat
}.

(** [__init__]: [max] of an empty sequence raises [ValueError]. *)
Definition LongCycler_init (l : loaders) : option LongCycler :=
  match l with
  | [] => None
  | _ => Some {| lc_loaders := l; max_batches := max_list ((fun kv => length kv.2) <$> l) |}
  end.

Definition LongCycler_len (c : LongCycler) : nat :=
  length (lc_loaders c) * max_batches c.

(** The body of [__iter__]: [zip] pulls a key, then a reference to one of
    the shared iterators, then a counter from the [range]; the loop body
    advances the referenced iterator in the store. *)
Fixpoint zip_loop (m : nat) (ks : cycle K) (refs : cycle nat)
    (store : list (cycle B)) : run (K * B) :=
  match m with
  | 0 => ([], Exhausted)
  | S m' =>
      match next ks with
      | None => ([], Exhausted)
      | Some (k, ks') =>
          match next refs with
          | None => ([], Exhausted)
          | Some (i, refs') =>
              match store !! i ≫= next with
              | None => ([], Raises)
              | Some (b, c') =>
                  yield (k, b) (zip_loop m' ks' refs' (<[i := c']> store))
              end
          end
      end
  end.

Definition LongCycler_iter (c : LongCycler) : run (K * B) :=
  let l := lc_loaders c in
  let cycles := cycles_of l in
  zip_loop (length l * max_batches c)
    (cycle_of (l.*1)) (cycle_of (seq 0 (length cycles))) cycles.

(** *** MTL_Cycler *)

Record MTL_Cycler : Type := {
  main_key : K;
  main_loader : list B;
  other_loaders : loaders;
  ratio : nat;
  num_batches : nat
}.

Fixpoint dict_get (l : loaders) (k : K) : option (list B) :=
  match l with
  | [] => None
  | (k', v) :: l' => if decide (k' = k) then Some v else dict_get l' k
  end.

(** [__init__]: [loaders[main_key]] raises [KeyError] on a missing key. *)
Definition MTL_Cycler_init (l : loaders) (mk : K) (r : nat) : option MTL_Cycler :=
  main ← dict_get l mk;
  Some {| main_key := mk;
          main_loader := main;
          other_loaders := filter (fun kv => kv.1 ≠ mk) l;
          ratio := r;
          num_batches := length main * (r + 1) |}.

Definition MTL_Cycler_len (c : MTL_Cycler) : nat := num_batches c.

(** The inner [for _ in range(self.ratio)] of [generate_batch], fused with
    the [next(loader)] of [__iter__]: [items] is
    [cycle(other_cycles.items())], whose values are references into the
    store of the other loaders' iterators. *)
Fixpoint other_loop (r : nat) (items : cycle (K * nat)) (store : list (cycle B))
    : run (K * B) * cycle (K * nat) * list (cycle B) :=
  match r with
  | 0 => (([], Exhausted), items, store)
  | S r' =>
      match next items with
      | None => (([], Raises), items, store)
      | Some ((k, i), items') =>
          match store !! i ≫= next with
          | None => (([], Raises), items', store)
          | Some (b, c') =>
              let '(out, items'', store') :=
                other_loop r' items' (<[i := c']> store) in
              (yield (k, b) out, items'', store')
          end
      end
  end.

(** The outer [for i in range(len(self.main_loader))]. *)
Fixpoint main_loop (c : MTL_Cycler) (m : nat) (main_cycle : cycle B)
    (items : cycle (K * nat)) (store : list (cycle B)) : run (K * B) :=
  match m with
  | 0 => ([], Exhausted)
  | S m' =>
      match next main_cycle with
      | None => ([], Raises)
      | Some (b, main_cycle') =>
          yield (main_key c, b)
            (let '(out, items', store') := other_loop (ratio c) items store in
             match out.2 with
             | Raises => out
             | Exhausted =>
                 let rest := main_loop c m' main_cycle' items' store' in
                 (out.1 ++ rest.1, rest.2)
             end)
      end
  end.

Definition MTL_Cycler_iter (c : MTL_Cycler) : run (K * B) :=
  let other_cycles := cycles_of (other_loaders c) in
  let items := cycle_of (zip ((other_loaders c).*1) (seq 0 (length other_cycles))) in
  main_loop c (length (main_loader c)) (cycle_of (main_loader c)) items other_cycles.

(** *** Round-robin lemmas *)

Definition nonempty_sources (l : loaders) : Prop :=
  Forall (fun kv => kv.2 ≠ []) l.

Lemma round_robin_at_Some (l : loaders) (t : nat) :
  l ≠ [] -> nonempty_sources l ->
  exists k src b,
    l !! (t `mod` length l) = Some (k, src) /\
    src !! ((t `div` length l) `mod` length src) = Some b /\
    round_robin_at l t = Some (k, b).
Proof.
  intros Hl Hne.
  assert (0 < length l) by (destruct l; simpl; [done|lia]).
  destruct (lookup_lt_is_Some_2 l (t `mod` length l)) as [[k src] Hk].
  { apply Nat.mod_upper_bound. lia. }
  assert (src ≠ []) as Hsrc.
  { eapply Forall_lookup_1 in Hne; [|exact Hk]. done. }
  assert (0 < length src) by (destruct src; simpl; [done|lia]).
  destruct (lookup_lt_is_Some_2 src ((t `div` length l) `mod` length src))
    as [b Hb].
  { apply Nat.mod_upper_bound. lia. }
  exists k, src, b. repeat split; [done..|].
  unfold round_robin_at. rewrite Hk. simpl. rewrite Hb. done.
Qed.

(** One draw from the shared store at step [t]. *)
Lemma store_draw (l : loaders) (t : nat) k src b :
  l !! (t `mod` length l) = Some (k, src) ->
  src !! ((t `div` length l) `mod` length src) = Some b ->
  store_at l t !! (t `mod` length l) ≫= next
  = Some (b, cyc_at src (S (t `div` length l))).
Proof.
  intros Hk Hb. unfold store_at.
  rewrite list_lookup_imap, Hk. simpl.
  rewrite visits_current. by apply next_cyc_at.
Qed.

Lemma zip_loop_spec (l : loaders) :
  l ≠ [] -> nonempty_sources l ->
  forall m t,
    zip_loop m (cyc_at (l.*1) t) (cyc_at (seq 0 (length l)) t) (store_at l t)
    = (omap (round_robin_at l) (seq t m), Exhausted).
Proof.
  intros Hl Hne. induction m as [|m IH]; intros t; [done|].
  destruct (round_robin_at_Some l t Hl Hne) as (k & src & b & Hk & Hb & Hrr).
  assert (t `mod` length l < length l) by (by eapply lookup_lt_Some).
  simpl.
  rewrite (next_cyc_at (l.*1) t k).
  2:{ rewrite length_fmap, list_lookup_fmap, Hk. done. }
  rewrite (next_cyc_at (seq 0 (length l)) t (t `mod` length l)).
  2:{ rewrite length_seq. by apply lookup_seq_lt. }
  rewrite (store_draw l t k src b Hk Hb).
  rewrite (store_at_step l t k src Hk), IH, Hrr. done.
Qed.

Lemma omap_round_robin_length (l : loaders) (t m : nat) :
  l ≠ [] -> nonempty_sources l ->
  length (omap (round_robin_at l) (seq t m)) = m.
Proof.
  intros Hl Hne. revert t. induction m as [|m IH]; intros t; [done|].
  destruct (round_robin_at_Some l t Hl Hne) as (k & src & b & _ & _ & Hrr).
  simpl. rewrite Hrr. simpl. by rewrite IH.
Qed.

Lemma omap_round_robin_lookup (l : loaders) (t m i : nat) :
  l ≠ [] -> nonempty_sources l -> i < m ->
  omap (round_robin_at l) (seq t m) !! i = round_robin_at l (t + i).
Proof.
  intros Hl Hne. revert t i. induction m as [|m IH]; intros t i Hi; [lia|].
  destruct (round_robin_at_Some l t Hl Hne) as (k & src & b & _ & _ & Hrr).
  simpl. rewrite Hrr. destruct i as [|i]; simpl.
  - by rewrite Nat.add_0_r.
  - rewrite IH by lia. f_equal. lia.
Qed.

(** The keys of one full round are the dict's keys, in order. *)
Lemma round_keys (l : loaders) (r : nat) :
  l ≠ [] -> nonempty_sources l ->
  (omap (round_robin_at l) (seq (r * length l) (length l))).*1 = l.*1.
Proof.
  intros Hl Hne. apply list_eq. intros i.
  rewrite !list_lookup_fmap.
  destruct (decide (i < length l)) as [Hi|Hi].
  - rewrite omap_round_robin_lookup by done.
    destruct (round_robin_at_Some l (r * length l + i) Hl Hne)
      as (k & src & b & Hk & _ & Hrr).
    rewrite Hrr. simpl.
    replace ((r * length l + i) `mod` length l) with i in Hk.
    + by rewrite Hk.
    + rewrite Nat.add_comm, Nat.Div0.mod_add. by rewrite Nat.mod_small.
  - rewrite !lookup_ge_None_2; [done|lia|].
    rewrite omap_round_robin_length by done. lia.
Qed.

Lemma count_key_absent (ks : list K) (k : K) :
  k ∉ ks -> filter (fun k' => k' = k) ks = [].
Proof.
  induction ks as [|k' ks IH]; intros Hnin; [done|].
  apply not_elem_of_cons in Hnin as [Hne Hnin].
  rewrite filter_cons. case_decide; [congruence|]. by apply IH.
Qed.

Lemma count_key_NoDup (ks : list K) (k : K) :
  NoDup ks -> k ∈ ks -> length (filter (fun k' => k' = k) ks) = 1.
Proof.
  induction 1 as [|k' ks Hnin Hnd IH]; intros Hin.
  - by apply elem_of_nil in Hin.
  - rewrite filter_cons. apply elem_of_cons in Hin as [->|Hin].
    + case_decide; [|done]. simpl. by rewrite count_key_absent.
    + case_decide as Hd; [subst k'; done|]. by apply IH.
Qed.

(** Occurrences of key [k] among the keys of the first [r] rounds. *)
Lemma count_key_rounds (l : loaders) (k : K) (r : nat) :
  l ≠ [] -> nonempty_sources l -> NoDup (l.*1) -> k ∈ l.*1 ->
  length (filter (fun k' => k' = k)
            ((omap (round_robin_at l) (seq 0 (length l * r))).*1)) = r.
Proof.
  intros Hl Hne Hnd Hin. induction r as [|r IH].
  - by rewrite Nat.mul_0_r.
  - replace (length l * S r) with (length l * r + length l) by lia.
    rewrite seq_app, omap_app, fmap_app, filter_app, length_app, IH.
    rewrite Nat.add_0_l, (Nat.mul_comm (length l) r), round_keys by done.
    rewrite count_key_NoDup by done. lia.
Qed.

(** *** LongCycler: the yielded sequence *)

Lemma LongCycler_iter_eq (l : loaders) (c : LongCycler) :
  nonempty_sources l ->
  LongCycler_init l = Some c ->
  LongCycler_iter c
  = (omap (round_robin_at l) (seq 0 (LongCycler_len c)), Exhausted).
Proof.
  intros Hne Hc.
  assert (l ≠ []) as Hl by (intros ->; done).
  assert (lc_loaders c = l) as Hlc by (destruct l; simplify_eq/=; done).
  unfold LongCycler_iter, LongCycler_len. rewrite Hlc.
  replace (length (cycles_of l)) with (length l)
    by (unfold cycles_of; by rewrite length_fmap).
  rewrite <- (store_at_0 l), <- !cyc_at_0.
  by apply zip_loop_spec.
Qed.

Lemma round_robin_at_round (l : loaders) (r i : nat) k src :
  l !! i = Some (k, src) ->
  round_robin_at l (r * length l + i)
  = (b ← src !! (r `mod` length src); Some (k, b)).
Proof.
  intros Hk.
  assert (i < length l) by (by eapply lookup_lt_Some).
  unfold round_robin_at.
  replace ((r * length l + i) `mod` length l) with i.
  2:{ rewrite Nat.add_comm, Nat.Div0.mod_add. by rewrite Nat.mod_small. }
  replace ((r * length l + i) `div` length l) with r.
  2:{ rewrite Nat.add_comm, Nat.div_add by lia.
      rewrite Nat.div_small by done. done. }
  rewrite Hk. done.
Qed.

(** C2.  For a non-empty dict [l] of non-empty loaders (dict keys are
    pairwise distinct), iterating [LongCycler(l)] ends normally after
    yielding exactly [len(l) * max_batches] pairs, and this number is
    [__len__]; the pair at position [r * len(l) + i] carries the [i]-th key
    of the dict and the [(r mod len(loader_i))]-th batch of its loader, so
    the keys go round-robin in dict order and shorter loaders restart; and
    every key of the dict occurs exactly [max_batches] times, where
    [max_batches] is the largest loader length. *)
Theorem LongCycler_yields (l : loaders) (c : LongCycler) :
  nonempty_sources l ->
  NoDup (l.*1) ->
  LongCycler_init l = Some c ->
  exists out : list (K * B),
    LongCycler_iter c = (out, Exhausted) /\
    max_batches c = max_list ((fun kv => length kv.2) <$> l) /\
    length out = length l * max_batches c /\
    LongCycler_len c = length out /\
    (forall i r k src,
        l !! i = Some (k, src) -> r < max_batches c ->
        exists b, src !! (r `mod` length src) = Some b /\
                  out !! (r * length l + i) = Some (k, b)) /\
    (forall k, k ∈ l.*1 ->
        length (filter (fun k' => k' = k) (out.*1)) = max_batches c).
Proof.
  intros Hne Hnd Hc.
  assert (l ≠ []) as Hl by (intros ->; done).
  assert (lc_loaders c = l /\
          max_batches c = max_list ((fun kv => length kv.2) <$> l)) as [Hlc Hmx].
  { destruct l; simplify_eq/=; done. }
  eexists. split; [by apply LongCycler_iter_eq|].
  unfold LongCycler_len. rewrite Hlc.
  rewrite omap_round_robin_length by done.
  split_and!; [done..| |].
  - intros i r k src Hk Hr.
    assert (i < length l) by (by eapply lookup_lt_Some).
    assert (src ≠ []) as Hsrc.
    { eapply Forall_lookup_1 in Hne; [|exact Hk]. done. }
    assert (0 < length src) by (destruct src; simpl; [done|lia]).
    destruct (lookup_lt_is_Some_2 src (r `mod` length src)) as [b Hb].
    { apply Nat.mod_upper_bound. lia. }
    exists b. split; [done|].
    rewrite omap_round_robin_lookup by (try done; nia).
    rewrite Nat.add_0_l, (round_robin_at_round l r i k src Hk), Hb. done.
  - intros k Hin. by apply count_key_rounds.
Qed.

(** *** MTL_Cycler: the yielded sequence *)

(** [cycle(other_cycles.items())] iterates over these (key, reference) pairs. *)
Definition items_of (l : loaders) : list (K * nat) :=
  zip (l.*1) (seq 0 (length l)).

Lemma items_of_lookup (l : loaders) (i : nat) k src :
  l !! i = Some (k, src) -> items_of l !! i = Some (k, i).
Proof.
  intros Hk. assert (i < length l) by (by eapply lookup_lt_Some).
  unfold items_of. rewrite lookup_zip_with, list_lookup_fmap, Hk. simpl.
  by rewrite lookup_seq_lt.
Qed.

Lemma items_of_length (l : loaders) : length (items_of l) = length l.
Proof.
  unfold items_of. rewrite length_zip_with, length_fmap, length_seq. lia.
Qed.

Lemma other_loop_spec (l : loaders) :
  l ≠ [] -> nonempty_sources l ->
  forall r t,
    other_loop r (cyc_at (items_of l) t) (store_at l t)
    = ((omap (round_robin_at l) (seq t r), Exhausted),
       cyc_at (items_of l) (t + r), store_at l (t + r)).
Proof.
  intros Hl Hne. induction r as [|r IH]; intros t.
  - simpl. by rewrite Nat.add_0_r.
  - destruct (round_robin_at_Some l t Hl Hne) as (k & src & b & Hk & Hb & Hrr).
    simpl.
    rewrite (next_cyc_at (items_of l) t (k, t `mod` length l)).
    2:{ rewrite items_of_length. by eapply items_of_lookup. }
    rewrite (store_draw l t k src b Hk Hb).
    rewrite (store_at_step l t k src Hk), IH, Hrr.
    replace (S t + r) with (t + S r) by lia. done.
Qed.

(** The pattern of one traversal: each main batch, in order, followed by
    [r] round-robin draws from the other loaders; [t] counts the draws
    made so far. *)
Fixpoint mtl_pattern (mk : K) (r : nat) (others : loaders) (main : list B)
    (t : nat) : list (K * B) :=
  match main with
  | [] => []
  | b :: main' =>
      (mk, b) :: omap (round_robin_at others) (seq t r)
        ++ mtl_pattern mk r others main' (t + r)
  end.

Lemma mtl_pattern_length mk r (others : loaders) main t :
  others ≠ [] -> nonempty_sources others ->
  length (mtl_pattern mk r others main t) = length main * (r + 1).
Proof.
  intros Hl Hne. revert t. induction main as [|b main IH]; intros t; [done|].
  simpl. rewrite length_app, omap_round_robin_length, IH by done. lia.
Qed.

Lemma main_loop_spec (c : MTL_Cycler) :
  other_loaders c ≠ [] -> nonempty_sources (other_loaders c) ->
  forall m j t,
    j + m = length (main_loader c) ->
    main_loop c m (cyc_at (main_loader c) j)
      (cyc_at (items_of (other_loaders c)) t) (store_at (other_loaders c) t)
    = (mtl_pattern (main_key c) (ratio c) (other_loaders c)
         (drop j (main_loader c)) t, Exhausted).
Proof.
  intros Hl Hne. induction m as [|m IH]; intros j t Hj.
  - simpl. rewrite drop_ge by lia. done.
  - destruct (lookup_lt_is_Some_2 (main_loader c) j) as [b Hb]; [lia|].
    simpl.
    rewrite (next_cyc_at (main_loader c) j b).
    2:{ rewrite Nat.mod_small by lia. done. }
    rewrite other_loop_spec by done. simpl.
    rewrite IH by lia. rewrite (drop_S _ _ _ Hb). done.
Qed.

Lemma MTL_Cycler_iter_eq (c : MTL_Cycler) :
  other_loaders c ≠ [] -> nonempty_sources (other_loaders c) ->
  MTL_Cycler_iter c
  = (mtl_pattern (main_key c) (ratio c) (other_loaders c) (main_loader c) 0,
     Exhausted).
Proof.
  intros Hl Hne. unfold MTL_Cycler_iter.
  replace (length (cycles_of (other_loaders c)))
    with (length (other_loaders c))
    by (unfold cycles_of; by rewrite length_fmap).
  fold (items_of (other_loaders c)).
  rewrite <- (store_at_0 (other_loaders c)), <- !cyc_at_0.
  rewrite main_loop_spec by done. by rewrite drop_0.
Qed.

(** The pairs carrying the main key are the main batches, once, in order. *)
Lemma mtl_pattern_main mk r (others : loaders) main t :
  Forall (fun kv => kv.1 ≠ mk) others ->
  filter (fun p => p.1 = mk) (mtl_pattern mk r others main t)
  = (fun b => (mk, b)) <$> main.
Proof.
  intros Hk. revert t. induction main as [|b main IH]; intros t; [done|].
  simpl. rewrite filter_cons. simpl. case_decide; [|done].
  rewrite filter_app, IH. f_equal.
  assert (filter (fun p : K * B => p.1 = mk)
            (omap (round_robin_at others) (seq t r)) = []) as ->; [|done].
  generalize t. clear IH. induction r as [|r IHr]; intros t'; [done|].
  simpl. destruct (round_robin_at others t') as [[k' b']|] eqn:E; [|by apply IHr].
  simpl. rewrite filter_cons. simpl.
  case_decide as Hd; [|by apply IHr].
  unfold round_robin_at in E.
  destruct (others !! (t' `mod` length others)) as [[k2 src]|] eqn:E2;
    simplify_option_eq.
  eapply Forall_lookup_1 in Hk; [|exact E2]. done.
Qed.

(** C3 (amended).  For a dict [l] that contains the main key and whose
    other loaders are at least one and all non-empty, iterating
    [MTL_Cycler(l, main_key, ratio)] ends normally after yielding exactly
    [len(main_loader) * (ratio + 1)] pairs, which is [__len__]; the
    sequence is the repeating pattern of one main-key pair followed by
    [ratio] pairs drawn round-robin from the other loaders (the draw
    counter runs on across main batches, shorter loaders restart); and the
    pairs carrying the main key are the batches of the main loader, each
    once and in order, so the main loader is never restarted. *)
Theorem MTL_Cycler_yields (l : loaders) (mk : K) (r : nat) (c : MTL_Cycler) :
  MTL_Cycler_init l mk r = Some c ->
  filter (fun kv => kv.1 ≠ mk) l ≠ [] ->
  nonempty_sources (filter (fun kv => kv.1 ≠ mk) l) ->
  exists out : list (K * B),
    MTL_Cycler_iter c = (out, Exhausted) /\
    dict_get l mk = Some (main_loader c) /\
    length out = length (main_loader c) * (r + 1) /\
    MTL_Cycler_len c = length out /\
    out = mtl_pattern mk r (filter (fun kv => kv.1 ≠ mk) l) (main_loader c) 0 /\
    filter (fun p => p.1 = mk) out = (fun b => (mk, b)) <$> main_loader c.
Proof.
  intros Hc Hl Hne. unfold MTL_Cycler_init in Hc.
  destruct (dict_get l mk) as [main|] eqn:Hmain; simplify_eq/=.
  eexists. split; [by apply MTL_Cycler_iter_eq|]. simpl.
  rewrite mtl_pattern_length by done.
  split_and!; [done..|].
  apply mtl_pattern_main, Forall_forall. intros kv Hin.
  by apply list_elem_of_filter in Hin as [? _].
Qed.
End Cyclers.

(** The example of the specification: loaders of lengths 3, 7 and 2. *)
Definition loaders_3_7_2 : list (string * list nat) :=
  [("a", [10; 11; 12]); ("b", [20; 21; 22; 23; 24; 25; 26]); ("c", [30; 31])]%string.

Definition long_3_7_2 : LongCycler :=
  {| lc_loaders := loaders_3_7_2; max_batches := 7 |}.

Lemma LongCycler_yields_witness :
  exists out : list (string * nat),
    LongCycler_iter long_3_7_2 = (out, Exhausted) /\
    max_batches long_3_7_2 = max_list ((fun kv => length kv.2) <$> loaders_3_7_2) /\
    length out = length loaders_3_7_2 * max_batches long_3_7_2 /\
    LongCycler_len long_3_7_2 = length out /\
    (forall i r k src,
        loaders_3_7_2 !! i = Some (k, src) -> r < max_batches long_3_7_2 ->
        exists b, src !! (r `mod` length src) = Some b /\
                  out !! (r * length loaders_3_7_2 + i) = Some (k, b)) /\
    (forall k, k ∈ loaders_3_7_2.*1 ->
        length (filter (fun k' => k' = k) (out.*1)) = max_batches long_3_7_2).
Proof.
  apply (LongCycler_yields loaders_3_7_2 long_3_7_2).
  - repeat constructor; simpl; congruence.
  - apply (bool_decide_unpack _). vm_compute. reflexivity.
  - reflexivity.
Defined.

Example LongCycler_3_7_2 :
  length (LongCycler_iter long_3_7_2).1 = 21 /\
  (LongCycler_iter long_3_7_2).2 = Exhausted /\
  take 7 (LongCycler_iter long_3_7_2).1
  = [("a", 10); ("b", 20); ("c", 30); ("a", 11); ("b", 21); ("c", 31); ("a", 12)]%string.
Proof. vm_compute. done. Qed.

(** The example of the specification: a main loader of length 5, ratio 2. *)
Definition loaders_mtl : list (string * list nat) :=
  [("img_classification", [1; 2; 3; 4; 5]); ("v1", [10; 11; 12]); ("v4", [20; 21])]%string.

Definition mtl_5_2 : MTL_Cycler :=
  {| main_key := "img_classification"%string;
     main_loader := [1; 2; 3; 4; 5];
     other_loaders := [("v1", [10; 11; 12]); ("v4", [20; 21])]%string;
     ratio := 2;
     num_batches := 15 |}.

Lemma MTL_Cycler_yields_witness :
  exists out : list (string * nat),
    MTL_Cycler_iter mtl_5_2 = (out, Exhausted) /\
    dict_get loaders_mtl "img_classification"%string = Some (main_loader mtl_5_2) /\
    length out = length (main_loader mtl_5_2) * (2 + 1) /\
    MTL_Cycler_len mtl_5_2 = length out /\
    out = mtl_pattern "img_classification"%string 2
            (filter (fun kv => kv.1 ≠ "img_classification"%string) loaders_mtl)
            (main_loader mtl_5_2) 0 /\
    filter (fun p => p.1 = "img_classification"%string) out
    = (fun b => ("img_classification"%string, b)) <$> main_loader mtl_5_2.
Proof.
  apply (MTL_Cycler_yields loaders_mtl "img_classification"%string 2 mtl_5_2).
  - reflexivity.
  - vm_compute. congruence.
  - vm_compute. repeat constructor; congruence.
Defined.

Example MTL_Cycler_5_2 :
  MTL_Cycler_iter mtl_5_2
  = ([("img_classification", 1); ("v1", 10); ("v4", 20);
      ("img_classification", 2); ("v1", 11); ("v4", 21);
      ("img_classification", 3); ("v1", 12); ("v4", 20);
      ("img_classification", 4); ("v1", 10); ("v4", 21);
      ("img_classification", 5); ("v1", 11); ("v4", 20)]%string, Exhausted).
Proof. vm_compute. done. Qed.

(** A dict with the main key, a non-empty main loader and a non-empty other
    loader, but also an empty one: the third draw hits the empty loader,
    whose [cycle] raises, after two pairs instead of three. *)
Definition loaders_with_empty : list (string * list nat) :=
  [("img_classification", [1]); ("v1", [10]); ("v4", [])]%string.

Lemma MTL_Cycler_empty_other_source :
  exists c : MTL_Cycler,
    MTL_Cycler_init loaders_with_empty "img_classification"%string 2 = Some c /\
    NoDup (loaders_with_empty.*1) /\
    main_loader c ≠ [] /\
    (exists k src, (k, src) ∈ loaders_with_empty /\
                   k ≠ "img_classification"%string /\ src ≠ []) /\
    MTL_Cycler_iter c
    = ([("img_classification", 1); ("v1", 10)]%string, Raises) /\
    length (MTL_Cycler_iter c).1 ≠ length (main_loader c) * (2 + 1).
Proof.
  eexists. split; [reflexivity|]. split_and!.
  - apply (bool_decide_unpack _). vm_compute. reflexivity.
  - done.
  - exists "v1"%string, [10]. split_and!; [|done..].
    apply list_elem_of_lookup. by exists 1.
  - vm_compute. reflexivity.
  - vm_compute. lia.
Qed.
End Cycler.


(** ** The early-stopping controller ([early_stopping])

    Objective values are floats that may be [inf], [-inf] or [nan]; the
    finite ones are idealised as rationals.  The generator is modelled
    together with its consumer: [caller epoch objective] is what the
    consumer does to the live model between receiving a yielded pair and
    resuming the generator (one training epoch, in the trainer).  The run
    is the list of observable events in program order, the way the run
    ends, and the final state. *)

Module EarlyStopping.

Inductive score : Type := Fin (q : Q) | PInf | NInf | NaN.

(** [np.isfinite] *)
Definition isfinite (x : score) : bool :=
  match x with Fin _ => true | _ => false end.

Definition Qltb (x y : Q) : bool := negb (Qle_bool y x).

(** [x * m] for an [int] [m]. *)
Definition score_mul (x : score) (m : Z) : score :=
  match x with
  | Fin q => Fin (q * inject_Z m)
  | PInf => match m with Z0 => NaN | Zpos _ => PInf | Zneg _ => NInf end
  | NInf => match m with Z0 => NaN | Zpos _ => NInf | Zneg _ => PInf end
  | NaN => NaN
  end.

(** [x - t] and [x + t] for a finite float [t]. *)
Definition score_sub (x : score) (t : Q) : score :=
  match x with Fin q => Fin (q - t) | _ => x end.


(** [x < y]; every comparison with [nan] is false. *)
Definition score_lt (x y : score) : bool :=
  match x, y with
  | NaN, _ | _, NaN => false
  | Fin a, Fin b => Qltb a b
  | NInf, NInf => false
  | NInf, _ => true
  | Fin _, PInf => true
  | Fin _, NInf => false
  | PInf, _ => false
  end.

(** One task's entry of an objective record. *)
Record task_objective : Type := { eval : score; loss : score }.

(** An objective record: the dict task -> {eval, loss}, in insertion order. *)
Abbreviation objective := (list (string * task_objective)).

(** [obj[task]]; [None] is [KeyError]. *)
Fixpoint get_task (obj : objective) (task : string) : option task_objective :=
  match obj with
  | [] => None
  | (t, o) :: obj' => if String.eqb t task then Some o else get_task obj' task
  end.

(** [map_to_task_dict], as a list of the values of [fn]. *)
Definition map_to_task_dict {A : Type} (task_dict : objective) (fn : score -> A)
  : list A :=
  flat_map (fun '(_, o) => [fn (eval o); fn (loss o)]) task_dict.

Definition isnotfinite (x : score) : bool := negb (isfinite x).

(** [.any()] and [.all()] of a boolean array. *)
Definition any (bs : list bool) : bool := existsb (fun b => b) bs.
Definition all (bs : list bool) : bool := forallb (fun b => b) bs.




Record config : Type := {
  cfg_scheduler : string;          (* config.scheduler *)
  cfg_mtl : bool;                  (* config.scheduler_options['mtl'] *)
  cfg_maximize : bool              (* config.maximize *)
}.

Record args : Type := {
  interval : Z;
  patience : Z;
  start : Z;
  max_iter : Z;
  maximize : bool;
  tolerance : Q;
  switch_mode : bool;
  restore_best : bool;
  tracker : bool;                  (* tracker is not None *)
  scheduler : bool;                (* scheduler is not None *)
  lr_decay_steps : Z
}.

(** ['eval' if config.maximize else 'loss'] *)
Definition obj_key (cfg : config) (o : task_objective) : score :=
  if cfg_maximize cfg then eval o else loss o.

(** [maximize = -1 if maximize else 1] *)
Definition sign_of (a : args) : Z := if maximize a then (-1)%Z else 1%Z.

(** One entry of the list comprehension of [test_current_obj]. *)
Definition test_task (cfg : config) (a : args) (o b : task_objective) : bool :=
  score_lt (score_mul (obj_key cfg o) (sign_of a))
           (score_sub (score_mul (obj_key cfg b) (sign_of a)) (tolerance a)).

(** [test_current_obj]; [None] when [best_obj[task]] raises [KeyError]. *)
Fixpoint test_current_obj (cfg : config) (a : args) (obj best_obj : objective)
  : option (list bool) :=
  match obj with
  | [] => Some []
  | (task, o) :: obj' =>
      match get_task best_obj task with
      | None => None
      | Some b =>
          match test_current_obj cfg a obj' best_obj with
          | None => None
          | Some bs => Some (test_task cfg a o b :: bs)
          end
      end
  end.

(** *** The improvement test, in the words of the specification *)



Lemma Qltb_lt (x y : Q) : Qltb x y = true <-> (x < y)%Q.
Proof.
  unfold Qltb. rewrite negb_true_iff, <- not_true_iff_false, Qle_bool_iff.
  split; [apply Qnot_le_lt | apply Qlt_not_le].
Qed.

Lemma Qltb_ext (x y x' y' : Q) :
  ((x < y)%Q <-> (x' < y')%Q) -> Qltb x y = Qltb x' y'.
Proof.
  intros Hiff. apply eq_true_iff_eq. by rewrite !Qltb_lt.
Qed.



(** The comparison succeeds when every task of the new record is a task of
    the best record. *)
Lemma test_current_obj_total (cfg : config) (a : args) (obj best : objective) :
  Forall (fun '(task, _) => is_Some (get_task best task)) obj ->
  is_Some (test_current_obj cfg a obj best).
Proof.
  induction 1 as [|[task o] obj [b Hb] _ [bs IH]]; simpl; [done|].
  rewrite Hb, IH. done.
Qed.





Section Controller.
Context {P : Type}.

(** The live model: its parameters and its [training] flag. *)
Record model : Type := { params : P; training : bool }.

(** Observable events, in program order. *)
Inductive event : Type :=
| LogObjective (obj : objective)                (* tracker.log_objective *)
| Yield (epoch : Z) (obj : objective)           (* yield epoch, current_objective *)
| SchedulerStep (value : option score)          (* scheduler.step(value) / step() *)
| Validation (improved : bool) (epoch pc : Z) (obj : objective) (* the print *)
| RestoreAfterDecay                             (* load_state_dict in decay_lr *)
| Finalize (restored : bool).                   (* finalize *)

Inductive outcome : Type :=
| Returned          (* ran to the final [finalize] *)
| Diverged          (* the non-finite check finalized and returned *)
| Error             (* an exception escaped *)
| OutOfFuel.        (* the model of the [while] loop ran out of fuel *)

Record state : Type := {
  live : model;
  training_status : bool;
  epoch : Z;
  patience_counter : Z;
  best_objective : objective;
  current_objective : objective;
  best_state_dict : P
}.

Definition set_live (m : model) (s : state) : state :=
  {| live := m; training_status := training_status s; epoch := epoch s;
     patience_counter := patience_counter s;
     best_objective := best_objective s;
     current_objective := current_objective s;
     best_state_dict := best_state_dict s |}.

Definition set_epoch (e : Z) (s : state) : state :=
  {| live := live s; training_status := training_status s; epoch := e;
     patience_counter := patience_counter s;
     best_objective := best_objective s;
     current_objective := current_objective s;
     best_state_dict := best_state_dict s |}.

Definition set_patience_counter (pc : Z) (s : state) : state :=
  {| live := live s; training_status := training_status s; epoch := epoch s;
     patience_counter := pc;
     best_objective := best_objective s;
     current_objective := current_objective s;
     best_state_dict := best_state_dict s |}.

Definition set_current_objective (obj : objective) (s : state) : state :=
  {| live := live s; training_status := training_status s; epoch := epoch s;
     patience_counter := patience_counter s;
     best_objective := best_objective s;
     current_objective := obj;
     best_state_dict := best_state_dict s |}.

(** [best_state_dict = copy_state(model); best_objective = current_objective;
    patience_counter = -1] *)
Definition set_best (s : state) : state :=
  {| live := live s; training_status := training_status s; epoch := epoch s;
     patience_counter := (-1)%Z;
     best_objective := current_objective s;
     current_objective := current_objective s;
     best_state_dict := params (live s) |}.

(** [model.load_state_dict(best_state_dict)] *)
Definition load_state_dict (s : state) : state :=
  set_live {| params := best_state_dict s; training := training (live s) |} s.

(** [model.eval()] and [model.train(mode)] *)
Definition set_training (mode : bool) (m : model) : model :=
  {| params := params m; training := mode |}.

Variable cfg : config.
Variable a : args.

(** The wrapped evaluation closure: the model as the call leaves it, and the
    record it returns, or [None] when it raises. *)
Variable objective_closure : model -> model * option objective.

(** What the consumer of the generator does to the live model at a yield. *)
Variable caller : Z -> objective -> model -> model.

(** [_objective()]: no [try]/[finally] around the closure. *)
Definition _objective (s : state) : state * option objective :=
  let m1 := if switch_mode a then set_training false (live s) else live s in
  let '(m2, ret) := objective_closure m1 in
  match ret with
  | None => (set_live m2 s, None)
  | Some obj =>
      let m3 := if switch_mode a then set_training (training_status s) m2 else m2 in
      (set_live m3 s, Some obj)
  end.

(** [decay_lr] *)
Definition decay_lr (s : state) : list event * state :=
  if restore_best a then ([RestoreAfterDecay], load_state_dict s) else ([], s).

(** [finalize] *)
Definition finalize (s : state) : list event * state :=
  if restore_best a then ([Finalize true], load_state_dict s)
  else ([Finalize false], s).

(** [list(current_objective.values())[0][key]]; [None] is [IndexError]. *)
Definition first_value (obj : objective) : option score :=
  match obj with
  | [] => None
  | (_, o) :: _ => Some (obj_key cfg o)
  end.

Definition is_adaptive : bool := String.eqb (cfg_scheduler cfg) "adaptive".
Definition is_manual : bool := String.eqb (cfg_scheduler cfg) "manual".

(** The scheduler step before the loop (lines 121-123); [None] when it raises. *)
Definition initial_scheduler_step (obj : objective) : option (list event) :=
  if scheduler a then
    if is_adaptive && negb (cfg_mtl cfg) then
      match first_value obj with
      | None => None
      | Some v => Some [SchedulerStep (Some v)]
      end
    else Some []
  else Some [].

(** The scheduler step after an evaluation (lines 147-151). *)
Definition loop_scheduler_step (obj : objective) : option (list event) :=
  if scheduler a then
    if is_adaptive && negb (cfg_mtl cfg) then
      match first_value obj with
      | None => None
      | Some v => Some [SchedulerStep (Some v)]
      end
    else if is_manual then Some [SchedulerStep None]
    else Some []
  else Some [].

(** The comparison with the best record and the update that follows
    (lines 153-171); [None] when the comparison raises. *)
Definition update_best (s : state) : option (list event * state) :=
  match test_current_obj cfg a (current_objective s) (best_objective s) with
  | None => None
  | Some bs =>
      if all bs then
        Some ([Validation true (epoch s) (patience_counter s) (current_objective s)],
              set_best s)
      else
        let s' := set_patience_counter (patience_counter s + 1) s in
        Some ([Validation false (epoch s') (patience_counter s') (current_objective s')],
              s')
  end.

(** What a loop hands on: the state to continue with, or the end of the run. *)
Inductive flow : Type :=
| Continue (s : state)
| Stop (o : outcome) (s : state).

(** [for _ in range(interval)]: lines 130-142. *)
Fixpoint interval_loop (n : nat) (s : state) : list event * flow :=
  match n with
  | O => ([], Continue s)
  | S n' =>
      let s1 := set_epoch (epoch s + 1) s in
      let log := if tracker a then [LogObjective (current_objective s1)] else [] in
      if any (map_to_task_dict (current_objective s1) isnotfinite) then
        let '(ev, s2) := finalize s1 in
        (log ++ ev, Stop Diverged s2)
      else
        let s2 := set_live (caller (epoch s1) (current_objective s1) (live s1)) s1 in
        let '(ev, f) := interval_loop n' s2 in
        (log ++ Yield (epoch s1) (current_objective s1) :: ev, f)
  end.

(** One evaluation boundary: lines 144-171. *)
Definition evaluate (s : state) : list event * flow :=
  match _objective s with
  | (s1, None) => ([], Stop Error s1)
  | (s1, Some obj) =>
      let s2 := set_current_objective obj s1 in
      match loop_scheduler_step obj with
      | None => ([], Stop Error s2)
      | Some sev =>
          match update_best s2 with
          | None => (sev, Stop Error s2)
          | Some (uev, s3) => (sev ++ uev, Continue s3)
          end
      end
  end.

(** [while patience_counter < patience and epoch < max_iter]: lines 128-171. *)
Fixpoint while_loop (fuel : nat) (s : state) : list event * flow :=
  match fuel with
  | O => ([], Stop OutOfFuel s)
  | S fuel' =>
      if (patience_counter s <? patience a)%Z && (epoch s <? max_iter a)%Z then
        match interval_loop (Z.to_nat (interval a)) s with
        | (ev, Stop o s1) => (ev, Stop o s1)
        | (ev, Continue s1) =>
            match evaluate s1 with
            | (ev', Stop o s2) => (ev ++ ev', Stop o s2)
            | (ev', Continue s2) =>
                let '(ev'', f) := while_loop fuel' s2 in
                (ev ++ ev' ++ ev'', f)
            end
        end
      else ([], Continue s)
  end.

(** The condition of line 173. *)
Definition decay_condition (repeat : Z) (s : state) : bool :=
  (epoch s <? max_iter a)%Z && (lr_decay_steps a >? 1)%Z
  && (repeat <? lr_decay_steps a)%Z.

(** Lines 173-176; [scheduler.step()] on [None] raises [AttributeError]. *)
Definition end_of_stage (repeat : Z) (s : state) : list event * flow :=
  if decay_condition repeat s then
    if is_adaptive && cfg_mtl cfg then
      if scheduler a then
        let '(ev, s1) := decay_lr s in
        (SchedulerStep None :: ev, Continue s1)
      else ([], Stop Error s)
    else
      let '(ev, s1) := decay_lr s in (ev, Continue s1)
  else ([], Continue s).

(** [for repeat in range(lr_decay_steps)]: lines 125-176. *)
Fixpoint stages (fuel : nat) (repeats : list Z) (s : state) : list event * flow :=
  match repeats with
  | [] => ([], Continue s)
  | repeat :: repeats' =>
      match while_loop fuel (set_patience_counter (-1) s) with
      | (ev, Stop o s1) => (ev, Stop o s1)
      | (ev, Continue s1) =>
          match end_of_stage repeat s1 with
          | (ev', Stop o s2) => (ev ++ ev', Stop o s2)
          | (ev', Continue s2) =>
              let '(ev'', f) := stages fuel repeats' s2 in
              (ev ++ ev' ++ ev'', f)
          end
      end
  end.

(** [range(n)] over the integers. *)
Definition range (n : Z) : list Z := Z.of_nat <$> seq 0 (Z.to_nat n).

(** The state in which the generator body starts. *)
Definition entry_state (m : model) : state :=
  {| live := m; training_status := training m; epoch := start a;
     patience_counter := (-1)%Z; best_objective := [];
     current_objective := []; best_state_dict := params m |}.

(** [early_stopping]: the events of the run, how it ends, the final state. *)
Definition early_stopping (fuel : nat) (m : model)
  : list event * outcome * state :=
  match _objective (entry_state m) with
  | (s0, None) => ([], Error, s0)
  | (s0, Some obj) =>
      let s1 := set_best (set_current_objective obj s0) in
      match initial_scheduler_step obj with
      | None => ([], Error, s1)
      | Some sev =>
          match stages fuel (range (lr_decay_steps a)) s1 with
          | (ev, Stop o s2) => (sev ++ ev, o, s2)
          | (ev, Continue s2) =>
              let '(fev, s3) := finalize s2 in
              (sev ++ ev ++ fev, Returned, s3)
          end
      end
  end.

(** *** Invariants of the loops *)

(** No value of the record is [inf], [-inf] or [nan]. *)
Definition all_finite (obj : objective) : bool :=
  negb (any (map_to_task_dict obj isnotfinite)).

Definition yielded_epochs (ev : list event) : list Z :=
  omap (fun e => match e with Yield ep _ => Some ep | _ => None end) ev.

Lemma yielded_epochs_app (ev ev' : list event) :
  yielded_epochs (ev ++ ev') = yielded_epochs ev ++ yielded_epochs ev'.
Proof. apply omap_app. Qed.

Lemma yielded_epochs_yield (e : Z) (o : objective) (ev : list event) :
  yielded_epochs (Yield e o :: ev) = e :: yielded_epochs ev.
Proof. reflexivity. Qed.

(** Every yielded record is finite and every yielded epoch is at most [B]. *)
Definition yield_ok (B : Z) (e : event) : Prop :=
  match e with
  | Yield ep obj => all_finite obj = true /\ (ep <= B)%Z
  | _ => True
  end.

Definition trace_ok (B : Z) (ev : list event) : Prop := Forall (yield_ok B) ev.

(** How a run that stopped on the non-finite check ends. *)
Definition diverged_end (ev : list event) (s : state) : Prop :=
  all_finite (current_objective s) = false /\
  (exists ev0, ev = ev0 ++ [Finalize (restore_best a)]) /\
  (restore_best a = true -> params (live s) = best_state_dict s).

Lemma trace_ok_mono (B B' : Z) (ev : list event) :
  (B <= B')%Z -> trace_ok B ev -> trace_ok B' ev.
Proof.
  intros HB Hok. eapply Forall_impl; [exact Hok|].
  intros [] Hy; simpl in *; try done. destruct Hy. split; [done|lia].
Qed.

Lemma trace_ok_app (B : Z) (ev ev' : list event) :
  trace_ok B ev -> trace_ok B ev' -> trace_ok B (ev ++ ev').
Proof. apply Forall_app_2. Qed.

Lemma finalize_spec (s : state) :
  exists s',
    finalize s = ([Finalize (restore_best a)], s') /\
    epoch s' = epoch s /\
    current_objective s' = current_objective s /\
    best_objective s' = best_objective s /\
    best_state_dict s' = best_state_dict s /\
    training (live s') = training (live s) /\
    params (live s') = (if restore_best a then best_state_dict s else params (live s)).
Proof.
  unfold finalize. destruct (restore_best a); eexists; split_and!; done.
Qed.


Lemma _objective_spec (s : state) :
  exists s' ret,
    _objective s = (s', ret) /\
    epoch s' = epoch s /\ patience_counter s' = patience_counter s /\
    best_objective s' = best_objective s /\
    current_objective s' = current_objective s /\
    best_state_dict s' = best_state_dict s /\
    training_status s' = training_status s.
Proof.
  unfold _objective.
  destruct (objective_closure _) as [m2 [obj|]]; do 2 eexists; split_and!; done.
Qed.

Lemma interval_loop_spec (n : nat) (s : state) (ev : list event) (f : flow) :
  interval_loop n s = (ev, f) ->
  trace_ok (epoch s + Z.of_nat n) ev /\
  match f with
  | Continue s' =>
      epoch s' = (epoch s + Z.of_nat n)%Z /\
      yielded_epochs ev = (fun i : nat => (epoch s + Z.of_nat (S i))%Z) <$> seq 0 n /\
      patience_counter s' = patience_counter s /\
      current_objective s' = current_objective s
  | Stop o s' => o = Diverged /\ diverged_end ev s'
  end.
Proof.
  revert s ev f. induction n as [|n IH]; intros s ev f Hrun.
  - simpl in Hrun. simplify_eq. split; [constructor|].
    split_and!; [lia|done..].
  - simpl in Hrun.
    set (log := if tracker a then [LogObjective (current_objective s)] else [])
      in Hrun.
    assert (trace_ok (epoch s + Z.of_nat (S n)) log /\ yielded_epochs log = [])
      as [Hlog Hlogy].
    { unfold log. destruct (tracker a); split; by repeat constructor. }
    destruct (any (map_to_task_dict (current_objective s) isnotfinite)) eqn:Hfin.
    + destruct (finalize_spec (set_epoch (epoch s + 1) s))
        as (s2 & Hf & _ & Hcur & _ & Hbest & _ & Hpar).
      rewrite Hf in Hrun. simplify_eq. split.
      { apply trace_ok_app; [done|]. by repeat constructor. }
      split; [done|]. unfold diverged_end. rewrite Hcur. simpl.
      unfold all_finite. rewrite Hfin. simpl.
      split_and!; [done|by exists log|].
      intros Hrb. by rewrite Hpar, Hbest, Hrb.
    + destruct (interval_loop n _) as [ev1 f1] eqn:Hrec in Hrun.
      apply IH in Hrec as [Hok Hf1]. cbn [epoch set_live set_epoch patience_counter current_objective] in Hok, Hf1. simplify_eq. split.
      { apply trace_ok_app; [done|]. constructor.
        - simpl. unfold all_finite. rewrite Hfin. split; [done|lia].
        - eapply trace_ok_mono; [|exact Hok]. lia. }
      destruct f as [s'|o s'].
      * destruct Hf1 as (He & Hy & Hpc & Hcur). split_and!; [lia| |done..].
        rewrite yielded_epochs_app, Hlogy, yielded_epochs_yield, Hy. simpl.
        rewrite <- fmap_S_seq, <- list_fmap_compose. f_equal.
        apply list_fmap_ext. intros i j _. simpl. lia.
      * destruct Hf1 as [-> (Hnf & [ev0 ->] & Hp)]. split; [done|].
        split_and!; [done| |done].
        exists (log ++ Yield (epoch s + 1) (current_objective s) :: ev0).
        by rewrite <- app_assoc.
Qed.

(** The largest epoch the loop can yield: the budget is tested only
    between intervals. *)
Definition last_epoch : Z := (max_iter a - 1 + Z.of_nat (Z.to_nat (interval a)))%Z.

Lemma diverged_end_app (ev0 ev : list event) (s : state) :
  diverged_end ev s -> diverged_end (ev0 ++ ev) s.
Proof.
  intros (Hnf & [ev1 ->] & Hp). split_and!; [done| |done].
  exists (ev0 ++ ev1). by rewrite app_assoc.
Qed.

Lemma loop_scheduler_step_ok (B : Z) (obj : objective) (sev : list event) :
  loop_scheduler_step obj = Some sev -> trace_ok B sev.
Proof.
  unfold loop_scheduler_step. intros Hs.
  repeat (case_match; simplify_eq); by repeat constructor.
Qed.

Lemma initial_scheduler_step_ok (B : Z) (obj : objective) (sev : list event) :
  initial_scheduler_step obj = Some sev -> trace_ok B sev.
Proof.
  unfold initial_scheduler_step. intros Hs.
  repeat (case_match; simplify_eq); by repeat constructor.
Qed.

Lemma update_best_inv (B : Z) (s s' : state) (ev : list event) :
  update_best s = Some (ev, s') -> trace_ok B ev /\ epoch s' = epoch s.
Proof.
  unfold update_best. intros Hu.
  repeat (case_match; simplify_eq); split; by repeat constructor.
Qed.

Lemma evaluate_spec (B : Z) (s : state) (ev : list event) (f : flow) :
  evaluate s = (ev, f) ->
  trace_ok B ev /\
  match f with
  | Continue s' => epoch s' = epoch s
  | Stop o _ => o = Error
  end.
Proof.
  unfold evaluate. intros He.
  destruct (_objective_spec s) as (s1 & ret & Hobj & Hep & _).
  rewrite Hobj in He. destruct ret as [obj|]; [|simplify_eq; split; [constructor|done]].
  destruct (loop_scheduler_step obj) as [sev|] eqn:Hs;
    [|simplify_eq; split; [constructor|done]].
  pose proof (loop_scheduler_step_ok B _ _ Hs) as Hsev.
  destruct (update_best _) as [[uev s3]|] eqn:Hu; simplify_eq; [|done].
  apply (update_best_inv B) in Hu as [Huev Hep3].
  split; [by apply trace_ok_app|]. by rewrite Hep3.
Qed.

Lemma while_loop_spec (fuel : nat) (s : state) (ev : list event) (f : flow) :
  while_loop fuel s = (ev, f) ->
  trace_ok last_epoch ev /\
  match f with
  | Continue s' => (epoch s <= epoch s')%Z
  | Stop o s' => o = Diverged -> diverged_end ev s'
  end.
Proof.
  revert s ev f. induction fuel as [|fuel IH]; intros s ev f Hw; simpl in Hw.
  { simplify_eq. split; [constructor|done]. }
  destruct (_ && _) eqn:Hguard; [|simplify_eq; split; [constructor|lia]].
  apply andb_true_iff in Hguard as [_ Hlt%Z.ltb_lt].
  destruct (interval_loop _ s) as [ev1 f1] eqn:Hi.
  apply interval_loop_spec in Hi as [Hok1 Hf1].
  assert (trace_ok last_epoch ev1) as Hok1'.
  { eapply trace_ok_mono; [|exact Hok1]. unfold last_epoch. lia. }
  destruct f1 as [s1|o s1]; [|destruct Hf1; simplify_eq; done].
  destruct Hf1 as (Hep1 & _).
  destruct (evaluate s1) as [ev2 f2] eqn:He.
  apply (evaluate_spec last_epoch) in He as [Hok2 Hf2].
  destruct f2 as [s2|o s2].
  - destruct (while_loop fuel s2) as [ev3 f3] eqn:Hrec.
    apply IH in Hrec as [Hok3 Hf3]. simplify_eq.
    split; [by repeat apply trace_ok_app|].
    destruct f as [s'|o s'].
    + lia.
    + intros Ho. rewrite app_assoc. by apply diverged_end_app, Hf3.
  - simplify_eq. split; [by apply trace_ok_app|done].
Qed.

Lemma while_loop_fuel (fuel : nat) (s : state) (ev : list event) (f : flow) :
  (1 <= interval a)%Z ->
  Z.to_nat (max_iter a - epoch s) < fuel ->
  while_loop fuel s = (ev, f) ->
  forall s', f <> Stop OutOfFuel s'.
Proof.
  intros Hint. revert s ev f.
  induction fuel as [|fuel IH]; intros s ev f Hfuel Hw s'; [lia|].
  simpl in Hw.
  destruct (_ && _) eqn:Hguard; [|by simplify_eq].
  apply andb_true_iff in Hguard as [_ Hlt%Z.ltb_lt].
  destruct (interval_loop _ s) as [ev1 f1] eqn:Hi.
  apply interval_loop_spec in Hi as [_ Hf1].
  destruct f1 as [s1|o s1]; [|destruct Hf1; simplify_eq; done].
  destruct Hf1 as (Hep1 & _).
  destruct (evaluate s1) as [ev2 f2] eqn:He.
  apply (evaluate_spec last_epoch) in He as [_ Hf2].
  destruct f2 as [s2|o s2]; [|by simplify_eq].
  destruct (while_loop fuel s2) as [ev3 f3] eqn:Hrec.
  simplify_eq. eapply IH; [|exact Hrec]. lia.
Qed.

Lemma end_of_stage_spec (B : Z) (repeat : Z) (s : state) (ev : list event)
    (f : flow) :
  end_of_stage repeat s = (ev, f) ->
  trace_ok B ev /\
  match f with
  | Continue s' => epoch s' = epoch s
  | Stop o _ => o = Error
  end.
Proof.
  unfold end_of_stage, decay_lr. intros He.
  repeat (case_match; simplify_eq); split; by repeat constructor.
Qed.

Lemma stages_spec (fuel : nat) (repeats : list Z) (s : state)
    (ev : list event) (f : flow) :
  stages fuel repeats s = (ev, f) ->
  trace_ok last_epoch ev /\
  match f with
  | Continue s' => (epoch s <= epoch s')%Z
  | Stop o s' => o = Diverged -> diverged_end ev s'
  end.
Proof.
  revert s ev f. induction repeats as [|repeat repeats IH]; intros s ev f Hs;
    simpl in Hs.
  { simplify_eq. split; [constructor|lia]. }
  destruct (while_loop fuel _) as [ev1 f1] eqn:Hw.
  apply while_loop_spec in Hw as [Hok1 Hf1]. simpl in Hf1.
  destruct f1 as [s1|o s1]; [|by simplify_eq].
  destruct (end_of_stage repeat s1) as [ev2 f2] eqn:He.
  apply (end_of_stage_spec last_epoch) in He as [Hok2 Hf2].
  destruct f2 as [s2|o s2].
  - destruct (stages fuel repeats s2) as [ev3 f3] eqn:Hrec.
    apply IH in Hrec as [Hok3 Hf3]. simplify_eq.
    split; [by repeat apply trace_ok_app|].
    destruct f as [s'|o s'].
    + lia.
    + intros Ho. rewrite app_assoc. by apply diverged_end_app, Hf3.
  - simplify_eq. split; [by apply trace_ok_app|done].
Qed.

Lemma stages_fuel (fuel : nat) (repeats : list Z) (s : state)
    (ev : list event) (f : flow) :
  (1 <= interval a)%Z ->
  Z.to_nat (max_iter a - epoch s) < fuel ->
  stages fuel repeats s = (ev, f) ->
  forall s', f <> Stop OutOfFuel s'.
Proof.
  intros Hint. revert s ev f.
  induction repeats as [|repeat repeats IH]; intros s ev f Hfuel Hs s';
    simpl in Hs; [by simplify_eq|].
  destruct (while_loop fuel _) as [ev1 f1] eqn:Hw.
  pose proof (while_loop_fuel _ (set_patience_counter (-1) s) _ _ Hint Hfuel Hw)
    as Hnf.
  apply while_loop_spec in Hw as [_ Hf1]. simpl in Hf1.
  destruct f1 as [s1|o s1]; [|simplify_eq; apply Hnf].
  destruct (end_of_stage repeat s1) as [ev2 f2] eqn:He.
  apply (end_of_stage_spec last_epoch) in He as [_ Hf2].
  destruct f2 as [s2|o s2]; [|by simplify_eq].
  destruct (stages fuel repeats s2) as [ev3 f3] eqn:Hrec.
  simplify_eq. eapply IH; [|exact Hrec]. lia.
Qed.

(** The whole run. *)
Lemma early_stopping_spec (fuel : nat) (m : model) (ev : list event)
    (o : outcome) (s : state) :
  early_stopping fuel m = (ev, o, s) ->
  trace_ok last_epoch ev /\
  (o = Diverged -> diverged_end ev s) /\
  ((1 <= interval a)%Z -> Z.to_nat (max_iter a - start a) < fuel ->
   o <> OutOfFuel).
Proof.
  unfold early_stopping. intros Hrun.
  destruct (_objective_spec (entry_state m)) as (s0 & ret & Hobj & Hep & _).
  rewrite Hobj in Hrun.
  destruct ret as [obj|]; [|simplify_eq; split_and!; [constructor|done..]].
  destruct (initial_scheduler_step obj) as [sev|] eqn:Hsched;
    [|simplify_eq; split_and!; [constructor|done..]].
  pose proof (initial_scheduler_step_ok last_epoch _ _ Hsched) as Hsev.
  destruct (stages fuel _ _) as [ev1 f1] eqn:Hst.
  pose proof (stages_spec _ _ _ _ _ Hst) as [Hok1 Hf1].
  destruct f1 as [s2|o1 s2].
  - destruct (finalize_spec s2) as (s3 & Hfin & _).
    rewrite Hfin in Hrun. simplify_eq. split_and!; [|done..].
    repeat apply trace_ok_app; try done. by repeat constructor.
  - simplify_eq. split_and!.
    + by apply trace_ok_app.
    + intros Ho. by apply diverged_end_app, Hf1.
    + intros Hint Hfuel ->.
      eapply (stages_fuel _ _ _ _ _ Hint); [|exact Hst|reflexivity].
      simpl. rewrite Hep. simpl. done.
Qed.

End Controller.

Arguments model : clear implicits.
Arguments state : clear implicits.
Arguments flow : clear implicits.

(** *** Concrete runs

    The model's parameters are abstracted to the number of epochs trained;
    the consumer trains one epoch per yield and the closure reads the
    evaluation result of that many epochs off a table. *)

Definition record_of (q : Q) : objective :=
  [("img_classification"%string, {| eval := Fin q; loss := Fin 0 |})].

Definition closure_of (evals : list Q) (m : model nat)
  : model nat * option objective :=
  (m, Some (record_of (nth (params m) evals 0%Q))).

Definition train_one_epoch (_ : Z) (_ : objective) (m : model nat) : model nat :=
  {| params := S (params m); training := training m |}.

Definition fresh_model : model nat := {| params := 0; training := true |}.

Definition cfg_example : config :=
  {| cfg_scheduler := "none"; cfg_mtl := false; cfg_maximize := true |}.

(** [maximize=True, tolerance=0.01, patience=2, interval=1]; the budget of
    three epochs makes the run evaluate four times. *)
Definition args_example : args :=
  {| interval := 1; patience := 2; start := 0; max_iter := 3;
     maximize := true; tolerance := 1 # 100; switch_mode := true;
     restore_best := true; tracker := false; scheduler := false;
     lr_decay_steps := 1 |}.

Definition evals_example : list Q := [1 # 2; 51 # 100; 101 # 200; 3 # 5].

(** Two decay stages, a patience of zero and an objective that never
    improves. *)
Definition args_two_stages : args :=
  {| interval := 1; patience := 0; start := 0; max_iter := 10;
     maximize := true; tolerance := 0; switch_mode := true;
     restore_best := true; tracker := false; scheduler := false;
     lr_decay_steps := 2 |}.



(** A model handed over in eval mode, and a consumer that switches the
    model to train mode for its epoch ([self.model.train()] in the main
    loop). *)
Definition eval_mode_model : model nat := {| params := 0; training := false |}.

Definition train_in_train_mode (_ : Z) (_ : objective) (m : model nat)
  : model nat :=
  {| params := S (params m); training := true |}.

(** A closure that raises. *)
Definition raising_closure (m : model nat) : model nat * option objective :=
  (m, None).

Definition training_state : state nat :=
  {| live := fresh_model; training_status := true; epoch := 0;
     patience_counter := (-1)%Z; best_objective := record_of (1 # 2);
     current_objective := record_of (1 # 2); best_state_dict := 0 |}.

(** *** Properties of the controller *)

Lemma trace_ok_yield (B : Z) (ev : list event) (e : Z) (obj : objective) :
  trace_ok B ev -> Yield e obj ∈ ev -> all_finite obj = true /\ (e <= B)%Z.
Proof.
  intros Hok Hin. unfold trace_ok in Hok.
  rewrite Forall_forall in Hok. exact (Hok _ Hin).
Qed.


Section Properties.
Context {P : Type}.
Variable cfg : config.
Variable a : args.
Variable objective_closure : model P -> model P * option objective.
Variable caller : Z -> objective -> model P -> model P.

Local Abbreviation run_of fuel m :=
  (early_stopping cfg a objective_closure caller fuel m).



(** C10.  With [interval >= 1] every yielded epoch number is at most
    [max_iter + interval - 1]; the run ends (the model of the [while] loop
    needs no more than [max_iter - start + 1] iterations per stage); and an
    interval, once entered, either yields all of its [interval] epochs
    [epoch + 1 .. epoch + interval] or is cut by the non-finite check. *)
Theorem yielded_epochs_bounded :
  (1 <= interval a)%Z ->
  (forall (fuel : nat) (m : model P) (e : Z),
      e ∈ yielded_epochs (run_of fuel m).1.1 ->
      (e <= max_iter a + interval a - 1)%Z) /\
  (forall (fuel : nat) (m : model P),
      Z.to_nat (max_iter a - start a) < fuel ->
      (run_of fuel m).1.2 <> OutOfFuel) /\
  (forall s : state P,
      (exists ev s',
          interval_loop a caller (Z.to_nat (interval a)) s = (ev, Continue s') /\
          epoch s' = (epoch s + interval a)%Z /\
          yielded_epochs ev
          = (fun i : nat => (epoch s + Z.of_nat (S i))%Z)
              <$> seq 0 (Z.to_nat (interval a))) \/
      (exists ev s',
          interval_loop a caller (Z.to_nat (interval a)) s
          = (ev, Stop Diverged s'))).
Proof.
  intros Hint. split_and!.
  - intros fuel m e Hin.
    destruct (run_of fuel m) as [[ev o] s] eqn:Hrun. simpl in Hin.
    apply early_stopping_spec in Hrun as (Hok & _).
    unfold yielded_epochs in Hin. apply list_elem_of_omap in Hin as (ev1 & Hin & He).
    destruct ev1; simplify_eq.
    destruct (trace_ok_yield _ _ _ _ Hok Hin) as [_ Hle].
    unfold last_epoch in Hle. lia.
  - intros fuel m Hfuel.
    destruct (run_of fuel m) as [[ev o] s] eqn:Hrun. simpl.
    apply early_stopping_spec in Hrun as (_ & _ & Hnf). by apply Hnf.
  - intros s.
    destruct (interval_loop a caller (Z.to_nat (interval a)) s) as [ev f] eqn:Hi.
    pose proof (interval_loop_spec a caller _ _ _ _ Hi) as [_ Hf].
    destruct f as [s'|o s'].
    + left. exists ev, s'. destruct Hf as (He & Hy & _).
      split_and!; [done|lia|done].
    + right. destruct Hf as [-> _]. by exists ev, s'.
Qed.

(** C8 (amended).  With [switch_mode], [_objective] puts the model into
    eval mode and runs the closure on it.  When the closure returns, the
    model is put into the mode recorded when the controller started
    ([training_status], the model's mode on entry), whatever the closure
    did to the flag: that is the mode before the call whenever the consumer
    has not changed the mode since the start.  When the closure raises, the
    exception escapes and no mode is restored: the model stays as the
    closure left it, in eval mode unless the closure itself changed the
    mode. *)
Theorem objective_mode_on_return (s : state P) :
  switch_mode a = true ->
  exists (m2 : model P) (ret : option objective) (s' : state P),
    objective_closure {| params := params (live s); training := false |}
    = (m2, ret) /\
    _objective a objective_closure s = (s', ret) /\
    (is_Some ret ->
     training (live s') = training_status s /\
     params (live s') = params m2 /\
     (training (live s) = training_status s ->
      training (live s') = training (live s))) /\
    (ret = None ->
     live s' = m2 /\
     (training m2 = false -> training (live s') = false)) /\
    (forall m : model P, training_status (entry_state a m) = training m).
Proof.
  intros Hsw. unfold _objective. rewrite Hsw. unfold set_training.
  destruct (objective_closure _) as [m2 [obj|]]; do 3 eexists;
    split_and!; try done; simpl; try congruence; by intros [] .
Qed.
End Properties.

(** C7.  The condition of line 173 does not tell the last stage from the
    others: for [repeat = lr_decay_steps - 1] it is
    [epoch < max_iter and lr_decay_steps > 1], so the best snapshot is
    loaded after the last stage as well.  With two stages, a patience of
    zero and a flat objective, the run restores after the first stage and
    again after the second, right before [finalize]. *)
Theorem decay_restore_at_last_stage :
  (forall (P : Type) (a : args) (s : state P),
      decay_condition a (lr_decay_steps a - 1) s
      = ((epoch s <? max_iter a)%Z && (lr_decay_steps a >? 1)%Z)) /\
  (early_stopping cfg_example args_two_stages (closure_of [1 # 2; 1 # 2; 1 # 2])
     train_one_epoch 2 fresh_model).1.1
  = [Yield 1 (record_of (1 # 2));
     Validation false 1 0 (record_of (1 # 2));
     RestoreAfterDecay;
     Yield 2 (record_of (1 # 2));
     Validation false 2 0 (record_of (1 # 2));
     RestoreAfterDecay;
     Finalize true].
Proof.
  split.
  - intros P a s. unfold decay_condition.
    replace (lr_decay_steps a - 1 <? lr_decay_steps a)%Z with true
      by (symmetry; apply Z.ltb_lt; lia).
    by rewrite andb_true_r.
  - vm_compute. reflexivity.
Qed.

(** The prior mode is not restored, on either path.  The closure raises
    while the model is in train mode: the exception escapes [_objective]
    with the model left in eval mode.  And a model handed over in eval mode
    that the consumer switches to train mode for its epoch (as the
    trainer's main loop does) is back in eval mode, not in train mode, when
    the next evaluation has returned. *)
Lemma objective_prior_mode_not_restored :
  switch_mode args_example = true /\
  (training (live training_state) = true /\
   (_objective args_example raising_closure training_state).2 = None /\
   training (live (_objective args_example raising_closure training_state).1)
   = false) /\
  (exists (s0 s1 s2 : state nat) (obj0 obj1 : objective) (ev : list event),
      _objective args_example (closure_of evals_example)
        (entry_state args_example eval_mode_model) = (s0, Some obj0) /\
      interval_loop args_example train_in_train_mode 1
        (set_best (set_current_objective obj0 s0)) = (ev, Continue s1) /\
      training (live s1) = true /\
      _objective args_example (closure_of evals_example) s1 = (s2, Some obj1) /\
      training (live s2) = false).
Proof.
  split; [done|]. split; [by vm_compute|].
  do 6 eexists. split_and!; try (vm_compute; reflexivity).
Qed.

Lemma objective_mode_on_return_witness :
  exists (m2 : model nat) (ret : option objective) (s' : state nat),
    closure_of evals_example
      {| params := params (live training_state); training := false |}
    = (m2, ret) /\
    _objective args_example (closure_of evals_example) training_state = (s', ret) /\
    (is_Some ret ->
     training (live s') = training_status training_state /\
     params (live s') = params m2 /\
     (training (live training_state) = training_status training_state ->
      training (live s') = training (live training_state))) /\
    (ret = None ->
     live s' = m2 /\
     (training m2 = false -> training (live s') = false)) /\
    (forall m : model nat, training_status (entry_state args_example m) = training m).
Proof.
  apply (objective_mode_on_return args_example (closure_of evals_example)
           training_state).
  reflexivity.
Defined.

Lemma yielded_epochs_bounded_witness :
  (forall (fuel : nat) (m : model nat) (e : Z),
      e ∈ yielded_epochs
            (early_stopping cfg_example args_example (closure_of evals_example)
               train_one_epoch fuel m).1.1 ->
      (e <= max_iter args_example + interval args_example - 1)%Z) /\
  (forall (fuel : nat) (m : model nat),
      Z.to_nat (max_iter args_example - start args_example) < fuel ->
      (early_stopping cfg_example args_example (closure_of evals_example)
         train_one_epoch fuel m).1.2 <> OutOfFuel) /\
  (forall s : state nat,
      (exists ev s',
          interval_loop args_example train_one_epoch
            (Z.to_nat (interval args_example)) s = (ev, Continue s') /\
          epoch s' = (epoch s + interval args_example)%Z /\
          yielded_epochs ev
          = (fun i : nat => (epoch s + Z.of_nat (S i))%Z)
              <$> seq 0 (Z.to_nat (interval args_example))) \/
      (exists ev s',
          interval_loop args_example train_one_epoch
            (Z.to_nat (interval args_example)) s = (ev, Stop Diverged s'))).
Proof.
  apply (yielded_epochs_bounded cfg_example args_example
           (closure_of evals_example) train_one_epoch).
  simpl. lia.
Defined.

(** The bound is reached: with [interval = 5] and [max_iter = 6] the second
    interval starts at epoch 5 and runs to epoch 10. *)
Example overshoot_by_interval :
  yielded_epochs
    (early_stopping cfg_example
       {| interval := 5; patience := 20; start := 0; max_iter := 6;
          maximize := true; tolerance := 0; switch_mode := true;
          restore_best := true; tracker := false; scheduler := false;
          lr_decay_steps := 1 |}
       (closure_of []) train_one_epoch 7 fresh_model).1.1
  = [1; 2; 3; 4; 5; 6; 7; 8; 9; 10]%Z.
Proof. vm_compute. reflexivity. Qed.
End EarlyStopping.

(** ** Lottery-ticket pruning ([LotteryTicketPruning])

    A tensor is the flat list of its entries and a model the list of its
    named parameters, in the order of [named_parameters()].  The mask is a
    list of tensors indexed by [step], the running count of prunable
    parameters.  Operations on tensors of different shapes are outside the
    data model (the mask is built from the model by [make_empty_mask]) and
    make the call fail. *)

Module LotteryTicket.
Import EarlyStopping.

Abbreviation tensor := (list Q).
Abbreviation named_parameters := (list (string * tensor)).

(** [needle in hay] on strings. *)
Fixpoint contains (needle hay : string) : bool :=
  String.prefix needle hay ||
  match hay with
  | EmptyString => false
  | String _ hay' => contains needle hay'
  end.

Record config : Type := {
  readout_name : string;           (* config.readout_name *)
  global_pruning : bool            (* config.lottery_ticket.get("global_pruning") *)
}.

(** ["weight" in name and self.config.readout_name not in name] *)
Definition prunable (cfg : config) (name : string) : bool :=
  contains "weight" name && negb (contains (readout_name cfg) name).

(** The value [np.percentile] returns: a number, or [nan]. *)
Inductive threshold : Type := Thr (q : Q) | ThrNaN.

(** [x < threshold] *)
Definition below (x : Q) (t : threshold) : bool :=
  match t with Thr q => Qltb x q | ThrNaN => false end.

(** An elementwise operation on two tensors of one shape. *)
Fixpoint map2 {A B C : Type} (f : A -> B -> C) (l : list A) (k : list B)
  : option (list C) :=
  match l, k with
  | [], [] => Some []
  | x :: l', y :: k' =>
      match map2 f l' k' with
      | Some r => Some (f x y :: r)
      | None => None
      end
  | _, _ => None
  end.

(** [torch.where(torch.abs(data) < threshold, zeros_like(mask), mask)] *)
Definition where_below (data : tensor) (t : threshold) (mask : tensor)
  : option tensor :=
  map2 (fun w m => if below (Qabs w) t then 0%Q else m) data mask.

(** [data[torch.nonzero(mask, as_tuple=True)]] *)
Definition alive_values (data mask : tensor) : option (list Q) :=
  match map2 (fun w m => if Qeq_bool m 0 then None else Some w) data mask with
  | Some l => Some (omap (fun x => x) l)
  | None => None
  end.

(** [data * mask] *)
Definition mul (data mask : tensor) : option tensor := map2 Qmult data mask.

(** [make_empty_mask] *)
Definition make_empty_mask (cfg : config) (model : named_parameters)
  : list tensor :=
  omap (fun kv : string * tensor =>
          if prunable cfg kv.1 then Some ((fun _ => 1%Q) <$> kv.2) else None)
       model.

Section Pruner.
Variable cfg : config.

(** [np.percentile(values, percent)]; [None] when it raises. *)
Variable percentile : list Q -> Q -> option threshold.

(** The first loop of [prune_by_percentile] (global pruning). *)
Fixpoint alive_tensors (params : named_parameters) (step : nat)
    (mask : list tensor) : option (list (list Q)) :=
  match params with
  | [] => Some []
  | (name, data) :: rest =>
      if prunable cfg name then
        match mask !! step ≫= alive_values data with
        | None => None
        | Some al =>
            match alive_tensors rest (S step) mask with
            | None => None
            | Some als => Some (al :: als)
            end
        end
      else alive_tensors rest step mask
  end.

(** [torch.cat] of an empty list raises. *)
Definition global_percentile (model : named_parameters) (mask : list tensor)
    (percent : Q) : option threshold :=
  match alive_tensors model 0 mask with
  | None | Some [] => None
  | Some als => percentile (Qabs <$> concat als) percent
  end.

(** The second loop; [global] is the global threshold, if any. *)
Fixpoint prune_loop (global : option threshold) (percent : Q)
    (params : named_parameters) (step : nat) (mask : list tensor)
  : option (named_parameters * list tensor) :=
  match params with
  | [] => Some ([], mask)
  | (name, data) :: rest =>
      if prunable cfg name then
        match mask !! step with
        | None => None
        | Some m =>
            let percentile_value :=
              match global with
              | Some t => Some t
              | None =>
                  match alive_values data m with
                  | None => None
                  | Some alive => percentile (Qabs <$> alive) percent
                  end
              end in
            match percentile_value with
            | None => None
            | Some t =>
                match where_below data t m with
                | None => None
                | Some new_mask =>
                    match mul data new_mask with
                    | None => None
                    | Some data' =>
                        match prune_loop global percent rest (S step)
                                (<[step := new_mask]> mask) with
                        | None => None
                        | Some (rest', mask') => Some ((name, data') :: rest', mask')
                        end
                    end
                end
            end
        end
      else
        match prune_loop global percent rest step mask with
        | None => None
        | Some (rest', mask') => Some ((name, data) :: rest', mask')
        end
  end.

(** [prune_by_percentile]: the model and the mask after the call. *)
Definition prune_by_percentile (model : named_parameters) (mask : list tensor)
    (percent : Q) : option (named_parameters * list tensor) :=
  if global_pruning cfg then
    match global_percentile model mask percent with
    | None => None
    | Some t => prune_loop (Some t) percent model 0 mask
    end
  else prune_loop None percent model 0 mask.

(** The pruning rounds of a run: [pre_epoch] calls [prune_by_percentile] at
    every reset epoch, each time on the live model as training left it. *)
Fixpoint prune_rounds (models : list named_parameters) (mask : list tensor)
    (percent : Q) : option (list tensor) :=
  match models with
  | [] => Some mask
  | model :: models' =>
      match prune_by_percentile model mask percent with
      | None => None
      | Some (_, mask') => prune_rounds models' mask' percent
      end
  end.

(** [self.initial_state_dict[name]]; [None] is [KeyError]. *)
Fixpoint state_dict_get (d : named_parameters) (name : string) : option tensor :=
  match d with
  | [] => None
  | (n, v) :: d' => if String.eqb n name then Some v else state_dict_get d' name
  end.

(** [model.apply(weight_reset)]: the model with freshly drawn values. *)
Variable weight_reset : named_parameters -> named_parameters.

(** The loop of [reset_initialization], as values: what one call computes
    from the values the model and [self.initial_state_dict] hold when it is
    called.  Which tensors the parameters share with the saved state
    afterwards is the subject of [LotteryTicketStore]. *)
Fixpoint reset_loop (initial_state_dict : named_parameters) (reinit : bool)
    (mask : list tensor) (params : named_parameters) (step : nat)
  : option named_parameters :=
  match params with
  | [] => Some []
  | (name, data) :: rest =>
      match (if reinit then Some data else state_dict_get initial_state_dict name) with
      | None => None
      | Some init =>
          if prunable cfg name then
            match mask !! step ≫= (fun m => mul m init) with
            | None => None
            | Some data' =>
                match reset_loop initial_state_dict reinit mask rest (S step) with
                | None => None
                | Some rest' => Some ((name, data') :: rest')
                end
            end
          else
            match reset_loop initial_state_dict reinit mask rest step with
            | None => None
            | Some rest' =>
                if contains "bias" name || contains "weight" name
                then Some ((name, init) :: rest')
                else Some ((name, data) :: rest')
            end
      end
  end.

(** [reset_initialization], as values. *)
Definition reset_initialization (initial_state_dict : named_parameters)
    (mask : list tensor) (model : named_parameters) (reinit : bool)
  : option named_parameters :=
  reset_loop initial_state_dict reinit mask
    (if reinit then weight_reset model else model) 0.


(** *** Monotone sparsification *)

(** A mask entry after a pruning call: kept, or set to zero. *)
Definition entry_step (x x' : Q) : Prop := x' = x \/ x' = 0%Q.

Definition tensor_step : relation tensor := Forall2 entry_step.

Definition mask_step : relation (list tensor) := Forall2 tensor_step.

(** [count(mask = 0)] *)
Fixpoint count_zero (m : tensor) : nat :=
  match m with
  | [] => 0
  | x :: m' => (if Qeq_bool x 0 then 1 else 0) + count_zero m'
  end.

#[local] Instance entry_step_reflexive : Reflexive entry_step.
Proof. intros x. by left. Qed.

#[local] Instance entry_step_transitive : Transitive entry_step.
Proof.
  intros x y z [->| ->] [->| ->]; unfold entry_step; auto.
Qed.

#[local] Instance tensor_step_reflexive : Reflexive tensor_step.
Proof. unfold tensor_step. apply _. Qed.

#[local] Instance tensor_step_transitive : Transitive tensor_step.
Proof. unfold tensor_step. apply _. Qed.

Lemma mask_step_refl (mask : list tensor) : mask_step mask mask.
Proof. unfold mask_step. reflexivity. Qed.

Lemma mask_step_trans (k1 k2 k3 : list tensor) :
  mask_step k1 k2 -> mask_step k2 k3 -> mask_step k1 k3.
Proof. unfold mask_step. intros H12 H23. by etrans. Qed.

Lemma map2_step {A : Type} (f : A -> Q -> Q) (data : list A) (m m' : tensor) :
  (forall w x, entry_step x (f w x)) ->
  map2 f data m = Some m' -> tensor_step m m'.
Proof.
  intros Hf. revert m m'. induction data as [|w data IH]; intros [|x m] m' Hm;
    simpl in Hm; simplify_eq; [constructor|].
  destruct (map2 f data m) as [r|] eqn:Hr; simplify_eq.
  constructor; [apply Hf|by apply IH].
Qed.

Lemma where_below_step (data : tensor) (t : threshold) (m m' : tensor) :
  where_below data t m = Some m' -> tensor_step m m'.
Proof.
  apply map2_step. intros w x. unfold entry_step.
  destruct (below (Qabs w) t); auto.
Qed.

Lemma insert_mask_step (mask : list tensor) (step : nat) (m m' : tensor) :
  mask !! step = Some m -> tensor_step m m' ->
  mask_step mask (<[step := m']> mask).
Proof.
  intros Hm Hstep. rewrite <- (list_insert_id mask step m Hm) at 1.
  apply Forall2_insert; [apply mask_step_refl|done].
Qed.

Lemma prune_loop_mask_step (global : option threshold) (percent : Q)
    (params : named_parameters) :
  forall step mask params' mask',
    prune_loop global percent params step mask = Some (params', mask') ->
    mask_step mask mask'.
Proof.
  induction params as [|[name data] rest IH]; intros step mask params' mask' Hp;
    simpl in Hp.
  - simplify_eq. apply mask_step_refl.
  - destruct (prunable cfg name).
    + destruct (mask !! step) as [m|] eqn:Hm; [|done].
      destruct (match global with Some t => Some t | None => _ end) as [t|];
        [|done].
      destruct (where_below data t m) as [new_mask|] eqn:Hw; [|done].
      destruct (mul data new_mask) as [data'|]; [|done].
      destruct (prune_loop _ _ rest _ _) as [[rest' mask1]|] eqn:Hrec; [|done].
      simplify_eq. apply IH in Hrec.
      eapply mask_step_trans; [|exact Hrec].
      eapply insert_mask_step; [done|]. by eapply where_below_step.
    + destruct (prune_loop _ _ rest _ _) as [[rest' mask1]|] eqn:Hrec; [|done].
      simplify_eq. by eapply IH.
Qed.

Lemma prune_by_percentile_mask_step (model : named_parameters)
    (mask : list tensor) (percent : Q) model' mask' :
  prune_by_percentile model mask percent = Some (model', mask') ->
  mask_step mask mask'.
Proof.
  unfold prune_by_percentile. intros Hp.
  destruct (global_pruning cfg).
  - destruct (global_percentile _ _ _); [|done]. by eapply prune_loop_mask_step.
  - by eapply prune_loop_mask_step.
Qed.

Lemma prune_rounds_mask_step (models : list named_parameters) (percent : Q) :
  forall mask mask',
    prune_rounds models mask percent = Some mask' -> mask_step mask mask'.
Proof.
  induction models as [|model models IH]; intros mask mask' Hr; simpl in Hr.
  - simplify_eq. apply mask_step_refl.
  - destruct (prune_by_percentile _ _ _) as [[model' mask1]|] eqn:Hp; [|done].
    eapply mask_step_trans; [by eapply prune_by_percentile_mask_step|by apply IH].
Qed.

(** What [tensor_step] means entry by entry and for the count of zeros. *)
Definition monotone_tensor (m m' : tensor) : Prop :=
  length m' = length m /\
  (forall i x, m !! i = Some x -> (x == 0)%Q ->
               exists x', m' !! i = Some x' /\ (x' == 0)%Q) /\
  (forall i x x', m !! i = Some x -> m' !! i = Some x' -> x' = x \/ x' = 0%Q) /\
  count_zero m <= count_zero m'.

Lemma tensor_step_count (m m' : tensor) :
  tensor_step m m' -> count_zero m <= count_zero m'.
Proof.
  induction 1 as [|x x' m m' Hx _ IH]; simpl; [done|].
  destruct Hx as [->| ->]; simpl; [lia|]. destruct (Qeq_bool x 0); lia.
Qed.

Lemma tensor_step_monotone (m m' : tensor) :
  tensor_step m m' -> monotone_tensor m m'.
Proof.
  intros Hstep. split_and!.
  - symmetry. by eapply Forall2_length.
  - intros i x Hx Hz.
    destruct (Forall2_lookup_l _ _ _ _ _ Hstep Hx) as (x' & Hx' & [->| ->]).
    + by exists x.
    + exists 0%Q. split; [done|reflexivity].
  - intros i x x' Hx Hx'. exact (Forall2_lookup_lr _ _ _ _ _ _ Hstep Hx Hx').
  - by apply tensor_step_count.
Qed.

Lemma mask_step_monotone (mask mask' : list tensor) :
  mask_step mask mask' -> Forall2 monotone_tensor mask mask'.
Proof.
  intros Hstep. eapply Forall2_impl; [exact Hstep|]. apply tensor_step_monotone.
Qed.

(** *** What [reset_initialization] does to each parameter *)

(** The value of [step] when the loop reaches a parameter: the number of
    prunable parameters before it. *)
Fixpoint prunable_count (params : named_parameters) : nat :=
  match params with
  | [] => 0
  | (name, _) :: rest =>
      (if prunable cfg name then 1 else 0) + prunable_count rest
  end.

Lemma reset_loop_lookup (initial_state_dict : named_parameters) (reinit : bool)
    (mask : list tensor) (params : named_parameters) :
  forall (step : nat) (params' : named_parameters),
    reset_loop initial_state_dict reinit mask params step = Some params' ->
    length params' = length params /\
    forall (j : nat) (name : string) (data : tensor),
      params !! j = Some (name, data) ->
      exists init data',
        params' !! j = Some (name, data') /\
        (if reinit then Some data else state_dict_get initial_state_dict name)
        = Some init /\
        if prunable cfg name
        then exists m, mask !! (step + prunable_count (take j params)) = Some m /\
                       mul m init = Some data'
        else if contains "bias" name || contains "weight" name
             then data' = init
             else data' = data.
Proof.
  induction params as [|[name data] rest IH]; intros step params' Hr;
    simpl in Hr.
  { simplify_eq. split; [done|]. intros j ? ? Hj. by rewrite lookup_nil in Hj. }
  destruct (if reinit then Some data else _) as [init|] eqn:Hinit; [|done].
  destruct (prunable cfg name) eqn:Hp.
  - destruct (mask !! step) as [m|] eqn:Hm; simpl in Hr; [|done].
    destruct (mul m init) as [data'|] eqn:Hmul; [|done].
    destruct (reset_loop _ _ _ rest _) as [rest'|] eqn:Hrec; [|done].
    simplify_eq. apply IH in Hrec as [Hlen Hrec]. split; [simpl; lia|].
    intros [|j] name' data0 Hj; simpl in Hj.
    + simplify_eq. exists init, data'. rewrite Hp. split_and!; [done..|].
      exists m. simpl. by rewrite Nat.add_0_r.
    + destruct (Hrec j name' data0 Hj) as (init' & data'' & H1 & H2 & H3).
      exists init', data''. split_and!; [done..|].
      simpl. rewrite Hp.
      replace (step + (1 + prunable_count (take j rest)))
        with (S step + prunable_count (take j rest)) by lia. done.
  - destruct (reset_loop _ _ _ rest _) as [rest'|] eqn:Hrec; [|done].
    apply IH in Hrec as [Hlen Hrec].
    assert (exists d, params' = (name, d) :: rest' /\
                      if contains "bias" name || contains "weight" name
                      then d = init else d = data) as (d & -> & Hd).
    { destruct (_ || _); simplify_eq; by eexists. }
    split; [simpl; lia|].
    intros [|j] name' data0 Hj; simpl in Hj.
    + simplify_eq. exists init, d. rewrite Hp. done.
    + destruct (Hrec j name' data0 Hj) as (init' & data'' & H1 & H2 & H3).
      exists init', data''. split_and!; [done..|].
      simpl. rewrite Hp. done.
Qed.

End Pruner.

(** C4.  A call of [prune_by_percentile] that returns leaves, for every
    per-tensor mask, the shape unchanged, every entry either kept or set to
    zero, hence every zero entry zero, and the count of zeros not smaller;
    the same holds from the first to the last mask of any sequence of
    pruning rounds, whatever happens to the weights between the rounds and
    whatever [np.percentile] returns. *)
Theorem pruning_monotone :
  (forall (cfg : config) (percentile : list Q -> Q -> option threshold)
          (model : named_parameters) (mask : list tensor) (percent : Q)
          (model' : named_parameters) (mask' : list tensor),
      prune_by_percentile cfg percentile model mask percent = Some (model', mask') ->
      Forall2 monotone_tensor mask mask') /\
  (forall (cfg : config) (percentile : list Q -> Q -> option threshold)
          (models : list named_parameters) (mask : list tensor) (percent : Q)
          (mask' : list tensor),
      prune_rounds cfg percentile models mask percent = Some mask' ->
      Forall2 monotone_tensor mask mask').
Proof.
  split.
  - intros cfg percentile model mask percent model' mask' Hp.
    by eapply mask_step_monotone, prune_by_percentile_mask_step.
  - intros cfg percentile models mask percent mask' Hr.
    by eapply mask_step_monotone, prune_rounds_mask_step.
Qed.

(** *** Concrete runs *)

Fixpoint insert_sorted (x : Q) (l : list Q) : list Q :=
  match l with
  | [] => [x]
  | y :: l' => if Qle_bool x y then x :: l else y :: insert_sorted x l'
  end.

(** NumPy's default percentile, for the examples: linear interpolation
    between the two order statistics around [(n - 1) * percent / 100].  A
    percentage outside [[0, 100]] raises ([ValueError]); so does an empty
    input ([IndexError]).  The theorems above hold for every percentile
    function. *)
Definition np_percentile (values : list Q) (percent : Q) : option threshold :=
  if Qle_bool 0 percent && Qle_bool percent 100 then
    match foldr insert_sorted [] values with
    | [] => None
    | (v0 :: _) as sorted =>
        let idx := ((inject_Z (Z.of_nat (length sorted)) - 1) * percent / 100)%Q in
        let lo := Z.to_nat (Qfloor idx) in
        let a := nth lo sorted v0 in
        let b := nth (S lo) sorted a in
        Some (Thr (Qred (a + (b - a) * (idx - inject_Z (Qfloor idx)))))
    end
  else None.

Definition cfg_readout : config :=
  {| readout_name := "readout"; global_pruning := false |}.

Definition model_trained : named_parameters :=
  [("core.weight"%string, [1; -3; 2; 5]%Q);
   ("core.scale"%string, [9]%Q);
   ("core.bias"%string, [7]%Q);
   ("readout.weight"%string, [4; 4]%Q)].

Definition model_initial : named_parameters :=
  [("core.weight"%string, [10; 20; 30; 40]%Q);
   ("core.scale"%string, [3]%Q);
   ("core.bias"%string, [0]%Q);
   ("readout.weight"%string, [8; 6]%Q)].

Definition same_values (model : named_parameters) : named_parameters := model.

Definition model_after_reset : named_parameters :=
  [("core.weight"%string, [0; 20; 0; 40]%Q);
   ("core.scale"%string, [9]%Q);
   ("core.bias"%string, [0]%Q);
   ("readout.weight"%string, [8; 6]%Q)].

Example prune_twice :
  prune_by_percentile cfg_readout np_percentile model_trained
    (make_empty_mask cfg_readout model_trained) 50
  = Some ([("core.weight"%string, [0; -3; 0; 5]%Q);
           ("core.scale"%string, [9]%Q);
           ("core.bias"%string, [7]%Q);
           ("readout.weight"%string, [4; 4]%Q)],
          [[0; 1; 0; 1]%Q]) /\
  prune_rounds cfg_readout np_percentile [model_trained; model_trained]
    (make_empty_mask cfg_readout model_trained) 50
  = Some [[0; 0; 0; 1]%Q].
Proof. split; vm_compute; reflexivity. Qed.

(** *** The pruning schedule *)

(** [b ** e] on floats, for a base [b >= 0] and an exponent [e >= 0]. *)
Definition py_pow (b e : R) : R :=
  if Req_dec_T b 0 then (if Req_dec_T e 0 then 1%R else 0%R) else Rpower b e.

(** [self.percent_per_round], as [__init__] computes it: a percentage. *)
Definition percent_per_round (percent_to_prune : R) (n_rounds : Z) : R :=
  ((1 - py_pow (1 - percent_to_prune / 100) (1 / IZR n_rounds)) * 100)%R.

Lemma py_pow_root (b : R) (n : Z) :
  (0 <= b)%R -> (1 <= n)%Z -> (py_pow b (1 / IZR n) ^ Z.to_nat n = b)%R.
Proof.
  intros Hb Hn. unfold py_pow.
  assert (0 < IZR n)%R as Hpos by (apply IZR_lt; lia).
  destruct (Req_dec_T b 0) as [->|Hne].
  - destruct (Req_dec_T (1 / IZR n) 0) as [He|_].
    + exfalso.
      assert (1 / IZR n * IZR n = 1)%R as H1 by (field; Lra.lra).
      rewrite He in H1. Lra.lra.
    + apply pow_i. lia.
  - assert (0 < b)%R as Hb' by Lra.lra.
    rewrite <- Rpower_pow by apply exp_pos.
    rewrite Rpower_mult, INR_IZR_INZ, Z2Nat.id by lia.
    replace (1 / IZR n * IZR n)%R with 1%R by (field; Lra.lra).
    by apply Rpower_1.
Qed.

(** C9.  For [percent_to_prune] in [0, 100] and [rounds >= 1] the
    per-round target, as a fraction of the weights still alive
    ([percent_per_round / 100]: the code keeps it as a percentage), is
    [1 - (1 - percent_to_prune / 100) ^ (1 / rounds)], and keeping the
    fraction [1 - target] in each of [rounds] successive rounds leaves
    [1 - percent_to_prune / 100] of the weights: the rounds compound to the
    overall target. *)
Theorem percent_per_round_compounds (percent_to_prune : R) (n_rounds : Z) :
  (0 <= percent_to_prune <= 100)%R ->
  (1 <= n_rounds)%Z ->
  (percent_per_round percent_to_prune n_rounds / 100
   = 1 - py_pow (1 - percent_to_prune / 100) (1 / IZR n_rounds))%R /\
  ((1 - percent_per_round percent_to_prune n_rounds / 100) ^ Z.to_nat n_rounds
   = 1 - percent_to_prune / 100)%R /\
  (1 - (1 - percent_per_round percent_to_prune n_rounds / 100) ^ Z.to_nat n_rounds
   = percent_to_prune / 100)%R.
Proof.
  intros Hp Hn.
  assert (percent_per_round percent_to_prune n_rounds / 100
          = 1 - py_pow (1 - percent_to_prune / 100) (1 / IZR n_rounds))%R as Hfrac.
  { unfold percent_per_round. field. }
  assert ((1 - percent_per_round percent_to_prune n_rounds / 100) ^ Z.to_nat n_rounds
          = 1 - percent_to_prune / 100)%R as Hpow.
  { rewrite Hfrac.
    replace (1 - (1 - py_pow (1 - percent_to_prune / 100) (1 / IZR n_rounds)))%R
      with (py_pow (1 - percent_to_prune / 100) (1 / IZR n_rounds)) by ring.
    apply py_pow_root; [Lra.lra|done]. }
  split_and!; [done..|]. rewrite Hpow. ring.
Qed.

Lemma percent_per_round_compounds_witness :
  (percent_per_round 80 2 / 100 = 1 - py_pow (1 - 80 / 100) (1 / IZR 2))%R /\
  ((1 - percent_per_round 80 2 / 100) ^ Z.to_nat 2 = 1 - 80 / 100)%R /\
  (1 - (1 - percent_per_round 80 2 / 100) ^ Z.to_nat 2 = 80 / 100)%R.
Proof.
  apply (percent_per_round_compounds 80 2); [Lra.lra|lia].
Defined.
End LotteryTicket.

(** ** Helpers of [trainer/utils.py]: [get_subdict], [save_best_model] *)

Module Utils.
Import EarlyStopping.

Section Subdict.
Context {K V : Type} `{EqDecision K}.

(** [d[k]] on a dict given by its items; [None] is [KeyError]. *)
Fixpoint dict_lookup (d : list (K * V)) (k : K) : option V :=
  match d with
  | [] => None
  | (k', v) :: d' => if decide (k' = k) then Some v else dict_lookup d' k
  end.

(** [get_subdict(dictionary, keys)]: [keys] is [None] or a list; an empty
    list is falsy, like [None]. *)
Definition get_subdict (dictionary : list (K * V)) (keys : option (list K))
  : list (K * V) :=
  match keys with
  | Some ((_ :: _) as ks) => filter (fun kv => kv.1 ∈ ks) dictionary
  | _ => dictionary
  end.

Lemma dict_lookup_filter (d : list (K * V)) (ks : list K) (k : K) :
  dict_lookup (filter (fun kv => kv.1 ∈ ks) d) k
  = if decide (k ∈ ks) then dict_lookup d k else None.
Proof.
  induction d as [|[k' v] d IH]; simpl.
  - by case_decide.
  - rewrite filter_cons. simpl. destruct (decide (k' ∈ ks)) as [Hin|Hnin]; simpl.
    + rewrite IH. destruct (decide (k' = k)) as [->|Hne]; [|done].
      by destruct (decide (k ∈ ks)).
    + rewrite IH. destruct (decide (k' = k)) as [->|Hne]; [|done].
      by destruct (decide (k ∈ ks)).
Qed.

Lemma dict_lookup_elem_of (d : list (K * V)) (k : K) (v : V) :
  NoDup (d.*1) -> (k, v) ∈ d -> dict_lookup d k = Some v.
Proof.
  induction d as [|[k' v'] d IH]; intros Hnd Hin; [by apply elem_of_nil in Hin|].
  simpl in *. apply NoDup_cons in Hnd as [Hnin Hnd].
  apply elem_of_cons in Hin as [Heq|Hin].
  - simplify_eq. by rewrite decide_True.
  - rewrite decide_False; [by apply IH|].
    intros ->. apply Hnin, list_elem_of_fmap. by exists (k, v).
Qed.

(** X1.  [get_subdict] with [None] or with an empty key list returns the
    dictionary itself, not an empty one.  With a non-empty key list the
    result is a sub-dictionary in the original order in which a key
    listed in [keys] has the value it has in the dictionary (or is missing
    if it is missing there) and any other key is missing; asking for keys
    the dictionary does not have is no error. *)
Theorem get_subdict_lookup (d : list (K * V)) :
  get_subdict d None = d /\
  get_subdict d (Some []) = d /\
  (forall keys, sublist (get_subdict d keys) d) /\
  (forall (ks : list K) (k : K),
      ks <> [] ->
      dict_lookup (get_subdict d (Some ks)) k
      = if decide (k ∈ ks) then dict_lookup d k else None) /\
  (forall ks, (forall k, k ∈ ks -> k ∉ d.*1) -> ks <> [] ->
              get_subdict d (Some ks) = []).
Proof.
  split_and!; try done.
  - intros [[|k ks]|]; simpl; try done. apply sublist_filter.
  - intros [|k0 ks] k Hne; [done|]. apply dict_lookup_filter.
  - intros [|k0 ks] Hmiss Hne; [done|]. simpl.
    induction d as [|[k' v] d' IH]; [done|].
    rewrite filter_cons. simpl.
    destruct (decide (k' ∈ k0 :: ks)) as [Hin|Hnin].
    + exfalso. apply (Hmiss k' Hin). simpl. apply elem_of_cons. by left.
    + apply IH. intros k Hk Hd. apply (Hmiss k Hk). simpl.
      apply elem_of_cons. by right.
Qed.
End Subdict.

(** [a > b] on floats. *)
Definition score_gt (x y : score) : bool := score_lt y x.

(** The test of [save_best_model]: ['eval'] only, no tolerance. *)
Fixpoint save_test (obj best_obj : objective) : option (list bool) :=
  match obj with
  | [] => Some []
  | (task, o) :: obj' =>
      match get_task best_obj task with
      | None => None
      | Some b =>
          match save_test obj' best_obj with
          | None => None
          | Some bs => Some (score_gt (eval o) (eval b) :: bs)
          end
      end
  end.

(** [save_best_model]: the checkpoint written, if any (the record and the
    epoch stored in it), and the returned [(best_epoch, best_eval)];
    [None] is the [KeyError] of the test. *)
Definition save_best_model (dev_eval : objective) (epoch : Z)
    (best_eval : objective) (best_epoch : Z)
  : option (option (objective * Z) * (Z * objective)) :=
  match save_test dev_eval best_eval with
  | None => None
  | Some bs =>
      if all bs
      then Some (Some (dev_eval, (epoch - 1)%Z), ((epoch - 1)%Z, dev_eval))
      else Some (None, (best_epoch, best_eval))
  end.

(** The arguments with which [early_stopping] applies the same rule. *)
Definition args_strict (a : args) : args :=
  {| interval := interval a; patience := patience a; start := start a;
     max_iter := max_iter a; maximize := true; tolerance := 0;
     switch_mode := switch_mode a; restore_best := restore_best a;
     tracker := tracker a; scheduler := scheduler a;
     lr_decay_steps := lr_decay_steps a |}.

Definition cfg_maximizing (cfg : config) : config :=
  {| cfg_scheduler := cfg_scheduler cfg; cfg_mtl := cfg_mtl cfg;
     cfg_maximize := true |}.

Lemma score_gt_test_task (cfg : config) (a : args) (o b : task_objective) :
  score_gt (eval o) (eval b)
  = test_task (cfg_maximizing cfg) (args_strict a) o b.
Proof.
  unfold score_gt, test_task, obj_key, sign_of. simpl.
  destruct (eval o) as [x| | |], (eval b) as [y| | |]; simpl; try reflexivity.
  apply Qltb_ext. unfold inject_Z. split; intros Hlt; Lqa.lra.
Qed.

Lemma save_test_test_current_obj (cfg : config) (a : args)
    (obj best : objective) :
  save_test obj best
  = test_current_obj (cfg_maximizing cfg) (args_strict a) obj best.
Proof.
  induction obj as [|[task o] obj IH]; simpl; [done|].
  destruct (get_task best task) as [b|]; [|done].
  rewrite IH. destruct (test_current_obj _ _ obj best); [|done].
  by rewrite (score_gt_test_task cfg a).
Qed.

(** X2.  [save_best_model] decides with the rule of the early-stopping
    controller for a maximized objective at tolerance 0: it writes a
    checkpoint, holding the new record and [epoch - 1], and returns that
    pair exactly when the controller's comparison counts every task as
    improved; otherwise it writes nothing and returns the previous best
    unchanged; it raises exactly when the controller's comparison does. *)
Theorem save_best_model_rule (cfg : config) (a : args) (dev_eval : objective)
    (epoch : Z) (best_eval : objective) (best_epoch : Z) :
  match test_current_obj (cfg_maximizing cfg) (args_strict a) dev_eval best_eval with
  | None => save_best_model dev_eval epoch best_eval best_epoch = None
  | Some bs =>
      save_best_model dev_eval epoch best_eval best_epoch
      = Some (if all bs
              then (Some (dev_eval, (epoch - 1)%Z), ((epoch - 1)%Z, dev_eval))
              else (None, (best_epoch, best_eval)))
  end.
Proof.
  unfold save_best_model. rewrite (save_test_test_current_obj cfg a).
  destruct (test_current_obj _ _ _ _) as [bs|]; [|done]. by destruct (all bs).
Qed.

(** A record that only ties the best one is not saved. *)
Example save_best_model_tie :
  save_best_model (record_of (1 # 2)) 5 (record_of (1 # 2)) 3
  = Some (None, (3%Z, record_of (1 # 2))) /\
  save_best_model (record_of (3 # 5)) 5 (record_of (1 # 2)) 3
  = Some (Some (record_of (3 # 5), 4%Z), (4%Z, record_of (3 # 5))).
Proof. split; vm_compute; reflexivity. Qed.
End Utils.

(** ** Edge behaviour of the cyclers *)

Module CyclerEdge.
Import Itertools Cycler.

Section Edge.
Context {K B : Type} `{EqDecision K}.
Local Abbreviation loaders := (list (K * list B)).

Lemma omap_seq_Some {A : Type} (f : nat -> option A) (t d : nat) (y : A) :
  f t = Some y -> omap f (seq t (S d)) = y :: omap f (seq (S t) d).
Proof. intros Hf. simpl. by rewrite Hf. Qed.

(** The run up to an empty loader at index [i]: the loaders before it hand
    out their first batch, then [next] on the empty [cycle] raises. *)
Lemma zip_loop_empty_loader (l : loaders) (i : nat) (k : K) :
  l !! i = Some (k, []) ->
  nonempty_sources (take i l) ->
  forall d t m,
    t + d = i -> d < m ->
    zip_loop m (cyc_at (l.*1) t) (cyc_at (seq 0 (length l)) t) (store_at l t)
    = (omap (round_robin_at l) (seq t d), Raises).
Proof.
  intros Hi Hne.
  assert (i < length l) as Hlen by (by eapply lookup_lt_Some).
  induction d as [|d IH]; intros t m Ht Hm.
  - destruct m as [|m]; [lia|]. replace t with i by lia. simpl.
    rewrite (next_cyc_at (l.*1) i k).
    2:{ rewrite length_fmap, Nat.mod_small, list_lookup_fmap, Hi by done. done. }
    rewrite (next_cyc_at (seq 0 (length l)) i i).
    2:{ rewrite length_seq, Nat.mod_small by done. by apply lookup_seq_lt. }
    unfold store_at. rewrite list_lookup_imap, Hi. simpl.
    unfold visits. rewrite Nat.div_small, Nat.mod_small by done.
    case_decide; [lia|]. done.
  - destruct m as [|m]; [lia|].
    assert (t < i) as Hti by lia.
    destruct (lookup_lt_is_Some_2 l t) as [[k' src] Hk]; [lia|].
    assert (src ≠ []) as Hsrc.
    { assert (take i l !! t = Some (k', src)) as Hk'
        by (by rewrite lookup_take_lt).
      exact (Forall_lookup_1 _ _ _ _ Hne Hk'). }
    destruct src as [|b src]; [done|].
    assert (t `mod` length l = t) as Hmod by (apply Nat.mod_small; lia).
    assert (t `div` length l = 0) as Hdiv by (apply Nat.div_small; lia).
    assert (round_robin_at l t = Some (k', b)) as Hrr.
    { unfold round_robin_at. rewrite Hmod, Hk. cbn -[Nat.modulo Nat.div].
      by rewrite Hdiv, Nat.Div0.mod_0_l. }
    simpl.
    rewrite (next_cyc_at (l.*1) t k').
    2:{ rewrite length_fmap, Hmod, list_lookup_fmap, Hk. done. }
    rewrite (next_cyc_at (seq 0 (length l)) t t).
    2:{ rewrite length_seq, Hmod. apply lookup_seq_lt. lia. }
    assert (store_at l t !! t ≫= next = Some (b, cyc_at (b :: src) 1)) as Hdraw.
    { pose proof (store_draw l t k' (b :: src) b) as Hd.
      rewrite Hmod, Hdiv in Hd. apply Hd; [done|].
      by rewrite Nat.Div0.mod_0_l. }
    assert (<[t := cyc_at (b :: src) 1]> (store_at l t) = store_at l (S t))
      as Hstep.
    { pose proof (store_at_step l t k' (b :: src)) as Hs.
      rewrite Hmod, Hdiv in Hs. by apply Hs. }
    rewrite Hdraw, Hstep.
    rewrite IH by lia. by rewrite Hrr.
Qed.

(** X3.  [LongCycler] fails fast on an empty loader, unless every loader is
    empty: with the first empty loader at index [i] and some non-empty
    loader in the dict, the iteration yields the first batch of each of
    the [i] loaders before it and then raises; a dict of empty loaders
    only has length 0 and yields nothing, without an error. *)
Theorem LongCycler_empty_loader (l : loaders) (c : @LongCycler K B) :
  LongCycler_init l = Some c ->
  (forall (i : nat) (k : K),
      l !! i = Some (k, []) ->
      nonempty_sources (take i l) ->
      0 < max_batches c ->
      exists out : list (K * B),
        LongCycler_iter c = (out, Raises) /\
        length out = i /\
        forall j kj b src,
          j < i -> l !! j = Some (kj, b :: src) -> out !! j = Some (kj, b)) /\
  (Forall (fun kv => kv.2 = []) l ->
   LongCycler_len c = 0 /\ LongCycler_iter c = ([], Exhausted)).
Proof.
  intros Hc.
  assert (l ≠ []) as Hl by (intros ->; done).
  assert (lc_loaders c = l /\
          max_batches c = max_list ((fun kv => length kv.2) <$> l)) as [Hlc Hmx].
  { destruct l; simplify_eq/=; done. }
  split.
  - intros i k Hi Hne Hmax.
    assert (i < length l) as Hlen by (by eapply lookup_lt_Some).
    exists (omap (round_robin_at l) (seq 0 i)).
    assert (forall j kj b src, j < i -> l !! j = Some (kj, b :: src) ->
              round_robin_at l j = Some (kj, b)) as Hrr.
    { intros j kj b src Hj Hlj. unfold round_robin_at.
      rewrite Nat.mod_small, Hlj by lia. cbn -[Nat.modulo Nat.div].
      by rewrite Nat.div_small, Nat.Div0.mod_0_l by lia. }
    assert (forall d t, t + d = i ->
              length (omap (round_robin_at l) (seq t d)) = d /\
              forall j, j < d ->
                omap (round_robin_at l) (seq t d) !! j = round_robin_at l (t + j))
      as Hout.
    { induction d as [|d IHd]; intros t Ht; [split; [done|lia]|].
      destruct (lookup_lt_is_Some_2 l t) as [[k' src] Hk]; [lia|].
      assert (src ≠ []) as Hsrc.
      { assert (take i l !! t = Some (k', src)) as Hk'
          by (rewrite lookup_take_lt by lia; done).
        exact (Forall_lookup_1 _ _ _ _ Hne Hk'). }
      destruct src as [|b src]; [done|].
      rewrite (omap_seq_Some _ t d (k', b)) by (apply (Hrr t k' b src); [lia|done]).
      destruct (IHd (S t) ltac:(lia)) as [Hlen' Hlook].
      split; [by rewrite length_cons, Hlen'|].
      intros [|j] Hj.
      - rewrite Nat.add_0_r. symmetry. apply (Hrr t k' b src); [lia|done].
      - rewrite lookup_cons, Hlook by lia. f_equal. lia. }
    destruct (Hout i 0 ltac:(lia)) as [Hlen' Hlook].
    split_and!; [|done|].
    + unfold LongCycler_iter. rewrite Hlc.
      replace (length (cycles_of l)) with (length l)
        by (unfold cycles_of; by rewrite length_fmap).
      rewrite <- (store_at_0 l), <- !cyc_at_0.
      apply (zip_loop_empty_loader l i k Hi Hne); [lia|nia].
    + intros j kj b src Hj Hlj. rewrite Hlook by done. simpl. by eapply Hrr.
  - intros Hall.
    assert (max_batches c = 0) as Hz.
    { rewrite Hmx. clear -Hall. induction Hall as [|[k src] l' Hx _ IH]; [done|].
      simpl in *. subst src. simpl. exact IH. }
    unfold LongCycler_len, LongCycler_iter. rewrite Hz, Nat.mul_0_r. done.
Qed.

Lemma dict_get_None (l : loaders) (mk : K) :
  dict_get l mk = None <-> mk ∉ l.*1.
Proof.
  induction l as [|[k v] l' IH]; simpl.
  - split; [intros _; apply not_elem_of_nil|done].
  - case_decide as Hd.
    + subst k. split; [done|]. intros Hn. exfalso. apply Hn, elem_of_cons. by left.
    + rewrite IH, not_elem_of_cons. split; [by intros ?; split; [congruence|]|].
      by intros [_ ?].
Qed.

Lemma dict_get_Some (l : loaders) (mk : K) (v : list B) :
  dict_get l mk = Some v -> (mk, v) ∈ l.
Proof.
  induction l as [|[k v'] l' IH]; intros Hv; simpl in Hv; [done|].
  case_decide as Hd; simplify_eq.
  - apply elem_of_cons. by left.
  - apply elem_of_cons. right. by apply IH.
Qed.

Lemma filter_keys_length (l : loaders) (mk : K) :
  length (filter (fun kv => kv.1 ≠ mk) l)
  = length (filter (fun k => k ≠ mk) (l.*1)).
Proof.
  induction l as [|[k v] l' IH]; [done|].
  simpl. rewrite !filter_cons. simpl. case_decide; simpl; by rewrite IH.
Qed.

(** X4.  [MTL_Cycler(loaders, main_key, ratio)] can be built exactly when
    [main_key] is a key of [loaders] (else [loaders[main_key]] raises
    [KeyError]); its other loaders are the remaining entries in dict order
    and none of them carries the main key. *)
Theorem MTL_Cycler_init_main_key (l : loaders) (mk : K) (r : nat) :
  (MTL_Cycler_init l mk r = None <-> mk ∉ l.*1) /\
  (forall c, MTL_Cycler_init l mk r = Some c ->
             main_key c = mk /\ ratio c = r /\
             (mk, main_loader c) ∈ l /\
             sublist (other_loaders c) l /\
             (mk ∉ (other_loaders c).*1) /\
             length (other_loaders c)
             = length (filter (fun k => k ≠ mk) (l.*1))).
Proof.
  unfold MTL_Cycler_init. split.
  - rewrite <- dict_get_None. destruct (dict_get l mk); simpl; naive_solver.
  - intros c Hc. destruct (dict_get l mk) as [main|] eqn:Hmain; simplify_eq/=.
    split_and!; try done.
    + by apply dict_get_Some.
    + apply sublist_filter.
    + intros Hin. apply list_elem_of_fmap in Hin as ([k v] & -> & Hin).
      by apply list_elem_of_filter in Hin as [Hne _].
    + apply filter_keys_length.
Qed.

Lemma main_loop_ratio_0 (c : @MTL_Cycler K B) :
  ratio c = 0 ->
  forall (m j : nat) (items : cycle (K * nat)) (store : list (cycle B)),
    j + m = length (main_loader c) ->
    main_loop c m (cyc_at (main_loader c) j) items store
    = ((fun b => (main_key c, b)) <$> drop j (main_loader c), Exhausted).
Proof.
  intros Hr. induction m as [|m IH]; intros j items store Hj.
  - simpl. rewrite drop_ge by lia. done.
  - destruct (lookup_lt_is_Some_2 (main_loader c) j) as [b Hb]; [lia|].
    simpl. rewrite (next_cyc_at (main_loader c) j b).
    2:{ rewrite Nat.mod_small by lia. done. }
    rewrite Hr. simpl. rewrite IH by lia.
    rewrite (drop_S _ _ _ Hb). done.
Qed.

(** X5.  With [ratio = 0] the cycler never touches the other loaders: it
    yields the batches of the main loader, each once and in order, under
    the main key, and ends normally, whatever the other loaders are
    (none at all, or empty ones). *)
Theorem MTL_Cycler_ratio_0 (c : @MTL_Cycler K B) :
  ratio c = 0 ->
  MTL_Cycler_iter c
  = ((fun b => (main_key c, b)) <$> main_loader c, Exhausted).
Proof.
  intros Hr. unfold MTL_Cycler_iter.
  rewrite <- (cyc_at_0 (main_loader c)).
  rewrite (main_loop_ratio_0 c Hr) by lia. by rewrite drop_0.
Qed.

(** X6.  With no other loader (a dict with the main key only), a positive
    [ratio] and a non-empty main loader, the iteration yields the first
    main batch and then raises: [next] on the empty cycle of the other
    loaders fails, although [__len__] promises [len(main) * (ratio + 1)]
    batches. *)
Theorem MTL_Cycler_no_other_loader (c : @MTL_Cycler K B) (b : B) (rest : list B) :
  other_loaders c = [] ->
  0 < ratio c ->
  main_loader c = b :: rest ->
  MTL_Cycler_iter c = ([(main_key c, b)], Raises).
Proof.
  intros Ho Hr Hm. unfold MTL_Cycler_iter. rewrite Ho, Hm. simpl.
  destruct (ratio c) as [|r]; [lia|]. done.
Qed.

(** X7.  A loader of maximal length is traversed exactly once and in order
    by [LongCycler]: the pairs at the positions of its key, round after
    round, are its batches. *)
Theorem LongCycler_longest_once (l : loaders) (c : @LongCycler K B) (i : nat)
    (k : K) (src : list B) :
  nonempty_sources l ->
  LongCycler_init l = Some c ->
  l !! i = Some (k, src) ->
  length src = max_batches c ->
  (fun r => (LongCycler_iter c).1 !! (r * length l + i)) <$> seq 0 (max_batches c)
  = (fun b => Some (k, b)) <$> src.
Proof.
  intros Hne Hc Hk Hlen.
  assert (l ≠ []) as Hl by (intros ->; done).
  assert (lc_loaders c = l) as Hlc by (destruct l; simplify_eq/=; done).
  assert (i < length l) by (by eapply lookup_lt_Some).
  rewrite (LongCycler_iter_eq l c Hne Hc). simpl.
  unfold LongCycler_len. rewrite Hlc.
  apply list_eq. intros r. rewrite !list_lookup_fmap.
  destruct (decide (r < max_batches c)) as [Hr|Hr].
  - rewrite lookup_seq_lt by done. simpl.
    rewrite omap_round_robin_lookup by (try done; nia).
    rewrite Nat.add_0_l, (round_robin_at_round l r i k src Hk).
    rewrite Nat.mod_small by lia.
    destruct (lookup_lt_is_Some_2 src r) as [b Hb]; [lia|].
    rewrite Hb. done.
  - rewrite lookup_seq_ge by lia. rewrite lookup_ge_None_2 by lia. done.
Qed.
End Edge.

Lemma LongCycler_empty_loader_witness :
  (forall (i : nat) (k : string),
      [("a"%string, [1; 2]); ("b"%string, []); ("c"%string, [3])] !! i = Some (k, []) ->
      nonempty_sources (take i [("a"%string, [1; 2]); ("b"%string, []); ("c"%string, [3])]) ->
      0 < max_batches
            {| lc_loaders := [("a"%string, [1; 2]); ("b"%string, []); ("c"%string, [3])];
               max_batches := 2 |} ->
      exists out : list (string * nat),
        LongCycler_iter
          {| lc_loaders := [("a"%string, [1; 2]); ("b"%string, []); ("c"%string, [3])];
             max_batches := 2 |} = (out, Raises) /\
        length out = i /\
        forall j kj b src,
          j < i ->
          [("a"%string, [1; 2]); ("b"%string, []); ("c"%string, [3])] !! j
          = Some (kj, b :: src) ->
          out !! j = Some (kj, b)) /\
  (Forall (fun kv : string * list nat => kv.2 = [])
     [("a"%string, [1; 2]); ("b"%string, []); ("c"%string, [3])] ->
   LongCycler_len
     {| lc_loaders := [("a"%string, [1; 2]); ("b"%string, []); ("c"%string, [3])];
        max_batches := 2 |} = 0 /\
   LongCycler_iter
     {| lc_loaders := [("a"%string, [1; 2]); ("b"%string, []); ("c"%string, [3])];
        max_batches := 2 |} = ([], Exhausted)).
Proof.
  apply (LongCycler_empty_loader
           [("a"%string, [1; 2]); ("b"%string, []); ("c"%string, [3])]).
  reflexivity.
Defined.

Example LongCycler_empty_loader_run :
  LongCycler_iter
    {| lc_loaders := [("a"%string, [1; 2]); ("b"%string, []); ("c"%string, [3])];
       max_batches := 2 |}
  = ([("a"%string, 1)], Raises).
Proof. vm_compute. reflexivity. Qed.

Lemma MTL_Cycler_ratio_0_witness :
  MTL_Cycler_iter
    {| main_key := "img_classification"%string; main_loader := [1; 2; 3];
       other_loaders := [("v1"%string, [])]; ratio := 0; num_batches := 3 |}
  = ((fun b => ("img_classification"%string, b)) <$> [1; 2; 3], Exhausted).
Proof.
  apply (MTL_Cycler_ratio_0
           {| main_key := "img_classification"%string; main_loader := [1; 2; 3];
              other_loaders := [("v1"%string, [])]; ratio := 0; num_batches := 3 |}).
  reflexivity.
Defined.

Lemma MTL_Cycler_no_other_loader_witness :
  MTL_Cycler_iter
    {| main_key := "img_classification"%string; main_loader := [1; 2; 3];
       other_loaders := []; ratio := 2; num_batches := 9 |}
  = ([("img_classification"%string, 1)], Raises).
Proof.
  apply (MTL_Cycler_no_other_loader
           {| main_key := "img_classification"%string; main_loader := [1; 2; 3];
              other_loaders := []; ratio := 2; num_batches := 9 |} 1 [2; 3]);
    [reflexivity|simpl; lia|reflexivity].
Defined.

Lemma LongCycler_longest_once_witness :
  (fun r => (LongCycler_iter long_3_7_2).1 !! (r * length loaders_3_7_2 + 1))
    <$> seq 0 (max_batches long_3_7_2)
  = (fun b => Some ("b"%string, b)) <$> [20; 21; 22; 23; 24; 25; 26].
Proof.
  apply (LongCycler_longest_once loaders_3_7_2 long_3_7_2 1 "b"%string
           [20; 21; 22; 23; 24; 25; 26]).
  - repeat constructor; simpl; congruence.
  - reflexivity.
  - reflexivity.
  - reflexivity.
Defined.
End CyclerEdge.

(** ** Whole runs of the early-stopping controller *)

Module EarlyStoppingRun.
Import EarlyStopping.

Section Run.
Context {P : Type}.
Variable cfg : config.
Variable a : args.
Variable objective_closure : model P -> model P * option objective.
Variable caller : Z -> objective -> model P -> model P.

Local Abbreviation run_of fuel m :=
  (early_stopping cfg a objective_closure caller fuel m).

(** [ys] are the epochs [e0 + 1, e0 + 2, ...], without gap or repeat. *)
Definition consecutive (e0 : Z) (ys : list Z) : Prop :=
  ys = (fun i : nat => (e0 + Z.of_nat (S i))%Z) <$> seq 0 (length ys).

(** The trace never loads a state dict into the model. *)
Definition no_load (ev : list event) : Prop :=
  Forall (fun e => e <> RestoreAfterDecay /\ e <> Finalize true) ev.

(** The best record and the best snapshot stem from one evaluation: the
    closure returned the record and left the model with these parameters. *)
Definition paired (s : state P) : Prop :=
  exists m1 m2,
    objective_closure m1 = (m2, Some (best_objective s)) /\
    best_state_dict s = params m2.

(** Between evaluations and yields the model is in the mode of entry. *)
Definition mode_ok (s : state P) : Prop :=
  switch_mode a = true -> training (live s) = training_status s.

Lemma consecutive_nil (e0 : Z) : consecutive e0 [].
Proof. done. Qed.

Lemma consecutive_app (e0 : Z) (ys zs : list Z) :
  consecutive e0 ys ->
  consecutive (e0 + Z.of_nat (length ys)) zs ->
  consecutive e0 (ys ++ zs).
Proof.
  unfold consecutive. intros Hy Hz.
  rewrite length_app, seq_app, fmap_app, <- Hy. f_equal.
  rewrite Nat.add_0_l. etrans; [exact Hz|].
  replace (seq (length ys) (length zs))
    with (Nat.add (length ys) <$> seq 0 (length zs))
    by (rewrite fmap_add_seq; f_equal; lia).
  rewrite <- list_fmap_compose.
  apply list_fmap_ext. intros i j _. simpl. lia.
Qed.

Lemma consecutive_cons (e0 : Z) (zs : list Z) :
  consecutive (e0 + 1) zs -> consecutive e0 ((e0 + 1)%Z :: zs).
Proof.
  intros Hz. apply (consecutive_app e0 [(e0 + 1)%Z] zs); [|done].
  unfold consecutive. simpl. f_equal; lia.
Qed.

Lemma no_load_app (ev ev' : list event) :
  no_load ev -> no_load ev' -> no_load (ev ++ ev').
Proof. apply Forall_app_2. Qed.

Definition log_of (s : state P) : list event :=
  if tracker a then [LogObjective (current_objective s)] else [].

Lemma log_of_facts (s : state P) :
  yielded_epochs (log_of s) = [] /\ no_load (log_of s).
Proof. unfold log_of. destruct (tracker a); split; by repeat constructor. Qed.

(** An interval runs without the non-finite stop when the record is finite:
    the record does not change inside an interval. *)
Lemma interval_loop_continue (n : nat) (s : state P) :
  any (map_to_task_dict (current_objective s) isnotfinite) = false ->
  exists ev s', interval_loop a caller n s = (ev, Continue s').
Proof.
  revert s. induction n as [|n IH]; intros s Hfin; simpl; [by do 2 eexists|].
  rewrite Hfin.
  destruct (IH (set_live (caller (epoch s + 1) (current_objective s) (live s))
                  (set_epoch (epoch s + 1) s)) Hfin) as (ev & s' & ->).
  by do 2 eexists.
Qed.

Lemma interval_loop_frame (n : nat) (s : state P) (ev : list event)
    (f : flow P) :
  interval_loop a caller n s = (ev, f) ->
  consecutive (epoch s) (yielded_epochs ev) /\
  (restore_best a = false -> no_load ev) /\
  match f with
  | Continue s' =>
      epoch s' = (epoch s + Z.of_nat (length (yielded_epochs ev)))%Z /\
      best_objective s' = best_objective s /\
      best_state_dict s' = best_state_dict s /\
      training_status s' = training_status s
  | Stop o s' =>
      o = Diverged /\
      yielded_epochs ev = [] /\
      best_objective s' = best_objective s /\
      best_state_dict s' = best_state_dict s /\
      training_status s' = training_status s /\
      training (live s') = training (live s) /\
      (restore_best a = true -> params (live s') = best_state_dict s)
  end.
Proof.
  revert s ev f. induction n as [|n IH]; intros s ev f Hrun.
  { simpl in Hrun. simplify_eq. split_and!; try done.
    - intros _. constructor.
    - simpl. lia. }
  simpl in Hrun. fold (log_of s) in Hrun.
  destruct (log_of_facts s) as [Hlogy Hlogn].
  destruct (any (map_to_task_dict (current_objective s) isnotfinite)) eqn:Hfin.
  - destruct (finalize_spec a (set_epoch (epoch s + 1) s))
      as (s2 & Hf & _ & _ & Hbo & Hbs & Htr & Hpar).
    rewrite Hf in Hrun. simplify_eq.
    assert (yielded_epochs (log_of s ++ [Finalize (restore_best a)]) = []) as Hy.
    { by rewrite yielded_epochs_app, Hlogy. }
    rewrite Hy. split_and!; try done.
    + intros Hrb. apply no_load_app; [done|]. rewrite Hrb. by repeat constructor.
    + unfold finalize in Hf. by destruct (restore_best a); simplify_eq.
    + intros Hrb. by rewrite Hpar, Hrb.
  - destruct (interval_loop a caller n _) as [ev1 f1] eqn:Hrec in Hrun.
    pose proof (IH _ _ _ Hrec) as (Hc & Hn & Hf1).
    cbn [epoch set_live set_epoch best_objective best_state_dict
         training_status current_objective live] in Hc, Hf1.
    simplify_eq.
    assert (yielded_epochs
              (log_of s ++ Yield (epoch s + 1) (current_objective s) :: ev1)
            = (epoch s + 1)%Z :: yielded_epochs ev1) as Hy.
    { by rewrite yielded_epochs_app, Hlogy, yielded_epochs_yield. }
    rewrite Hy. split_and!.
    + by apply consecutive_cons.
    + intros Hrb. apply no_load_app; [done|].
      constructor; [done|by apply Hn].
    + destruct f as [s'|o s'].
      * destruct Hf1 as (He & ? & ? & ?). split_and!; try done.
        rewrite He. simpl. lia.
      * exfalso.
        destruct (interval_loop_continue n
                    (set_live (caller (epoch s + 1) (current_objective s) (live s))
                       (set_epoch (epoch s + 1) s)) Hfin) as (ev' & s'' & Hcont).
        simpl in Hrec, Hcont. congruence.
Qed.

Lemma paired_eq (s s' : state P) :
  best_objective s' = best_objective s ->
  best_state_dict s' = best_state_dict s ->
  paired s -> paired s'.
Proof. unfold paired. intros -> ->. done. Qed.

Lemma scheduler_step_facts (sev : list event) (obj : objective) :
  loop_scheduler_step cfg a obj = Some sev \/
  initial_scheduler_step cfg a obj = Some sev ->
  yielded_epochs sev = [] /\ no_load sev.
Proof.
  unfold loop_scheduler_step, initial_scheduler_step. intros [Hs|Hs];
    repeat (case_match; simplify_eq); split; by repeat constructor.
Qed.

Lemma update_best_frame (s s' : state P) (ev : list event) :
  update_best cfg a s = Some (ev, s') ->
  yielded_epochs ev = [] /\ no_load ev /\
  live s' = live s /\ epoch s' = epoch s /\
  training_status s' = training_status s /\
  ((best_objective s' = best_objective s /\
    best_state_dict s' = best_state_dict s) \/
   (best_objective s' = current_objective s /\
    best_state_dict s' = params (live s))).
Proof.
  unfold update_best. intros Hu.
  repeat (case_match; simplify_eq); split_and!; try done;
    try (by repeat constructor); auto.
Qed.

Lemma evaluate_frame (s : state P) (ev : list event) (f : flow P) :
  evaluate cfg a objective_closure s = (ev, f) ->
  yielded_epochs ev = [] /\ no_load ev /\
  match f with
  | Continue s' =>
      epoch s' = epoch s /\
      training_status s' = training_status s /\
      mode_ok s' /\
      (paired s -> paired s')
  | Stop o _ => o = Error
  end.
Proof.
  unfold evaluate, _objective. intros He.
  destruct (objective_closure _) as [m2 [obj|]] eqn:Hcl;
    [|simplify_eq; split_and!; by repeat constructor].
  destruct (loop_scheduler_step cfg a obj) as [sev|] eqn:Hs;
    [|simplify_eq; split_and!; by repeat constructor].
  destruct (scheduler_step_facts sev obj (or_introl Hs)) as [Hsy Hsn].
  destruct (update_best cfg a _) as [[uev s3]|] eqn:Hu;
    [|simplify_eq; split_and!; done].
  apply update_best_frame in Hu as (Huy & Hun & Hlive & Hep & Hts & Hbest).
  simplify_eq. split_and!.
  - by rewrite yielded_epochs_app, Hsy, Huy.
  - by apply no_load_app.
  - done.
  - done.
  - unfold mode_ok. intros Hsw. rewrite Hlive, Hts. simpl. by rewrite Hsw.
  - intros Hp. destruct Hbest as [[Hbo Hbs]|[Hbo Hbs]].
    + by eapply paired_eq.
    + eexists _, m2. split; [rewrite Hbo; exact Hcl|].
      rewrite Hbs. simpl. by destruct (switch_mode a).
Qed.

Lemma while_loop_frame (fuel : nat) (s : state P) (ev : list event)
    (f : flow P) :
  mode_ok s -> paired s ->
  while_loop cfg a objective_closure caller fuel s = (ev, f) ->
  consecutive (epoch s) (yielded_epochs ev) /\
  (restore_best a = false -> no_load ev) /\
  match f with
  | Continue s' =>
      epoch s' = (epoch s + Z.of_nat (length (yielded_epochs ev)))%Z /\
      training_status s' = training_status s /\ mode_ok s' /\ paired s'
  | Stop o s' =>
      o <> Returned /\
      (o = Diverged ->
       training_status s' = training_status s /\ mode_ok s' /\ paired s' /\
       (restore_best a = true -> params (live s') = best_state_dict s'))
  end.
Proof.
  revert s ev f. induction fuel as [|fuel IH]; intros s ev f Hm Hp Hw;
    simpl in Hw.
  { simplify_eq. split_and!; try done. intros _. constructor. }
  destruct (_ && _).
  2:{ simplify_eq. split_and!; try done; [intros _; constructor|simpl; lia]. }
  destruct (interval_loop a caller _ s) as [ev1 f1] eqn:Hi.
  apply interval_loop_frame in Hi as (Hc1 & Hn1 & Hf1).
  destruct f1 as [s1|o s1].
  2:{ simplify_eq. destruct Hf1 as (-> & _ & Hbo & Hbs & Hts & Htr & Hpar).
      split_and!; try done. intros _. split_and!; try done.
      - unfold mode_ok. intros Hsw. rewrite Htr, Hts. by apply Hm.
      - by eapply paired_eq.
      - intros Hrb. rewrite Hbs. by apply Hpar. }
  destruct Hf1 as (He1 & Hbo1 & Hbs1 & Hts1).
  destruct (evaluate cfg a objective_closure s1) as [ev2 f2] eqn:He.
  apply evaluate_frame in He as (Hy2 & Hn2 & Hf2).
  destruct f2 as [s2|o s2].
  2:{ simplify_eq. rewrite yielded_epochs_app, Hy2, app_nil_r.
      split_and!; try done. intros Hrb. apply no_load_app; [by apply Hn1|done]. }
  destruct Hf2 as (He2 & Hts2 & Hm2 & Hp2).
  destruct (while_loop cfg a objective_closure caller fuel s2) as [ev3 f3] eqn:Hrec.
  apply IH in Hrec as (Hc3 & Hn3 & Hf3);
    [|done|by eapply Hp2, paired_eq].
  simplify_eq.
  rewrite !yielded_epochs_app, Hy2, app_nil_l.
  split_and!.
  - apply consecutive_app; [done|]. by rewrite <- He1, <- He2.
  - intros Hrb. repeat apply no_load_app; auto.
  - destruct f as [s'|o s'].
    + destruct Hf3 as (He3 & Hts3 & Hm3 & Hp3). split_and!; try done.
      * rewrite He3, He2, He1, length_app. lia.
      * congruence.
    + destruct Hf3 as [Hnr Hf3]. split; [done|].
      intros Ho. destruct (Hf3 Ho) as (Hts3 & ? & ? & ?).
      split_and!; try done. congruence.
Qed.

Lemma end_of_stage_frame (repeat : Z) (s : state P) (ev : list event)
    (f : flow P) :
  end_of_stage cfg a repeat s = (ev, f) ->
  yielded_epochs ev = [] /\
  (restore_best a = false -> no_load ev) /\
  match f with
  | Continue s' =>
      epoch s' = epoch s /\ training_status s' = training_status s /\
      (mode_ok s -> mode_ok s') /\ (paired s -> paired s')
  | Stop o _ => o = Error
  end.
Proof.
  unfold end_of_stage, decay_lr. intros He.
  repeat (case_match; simplify_eq); split_and!; try done;
    try (intros Hrb; by repeat constructor).
Qed.

Lemma stages_frame (fuel : nat) (repeats : list Z) (s : state P)
    (ev : list event) (f : flow P) :
  mode_ok s -> paired s ->
  stages cfg a objective_closure caller fuel repeats s = (ev, f) ->
  consecutive (epoch s) (yielded_epochs ev) /\
  (restore_best a = false -> no_load ev) /\
  match f with
  | Continue s' =>
      training_status s' = training_status s /\ mode_ok s' /\ paired s'
  | Stop o s' =>
      o <> Returned /\
      (o = Diverged ->
       training_status s' = training_status s /\ mode_ok s' /\ paired s' /\
       (restore_best a = true -> params (live s') = best_state_dict s'))
  end.
Proof.
  revert s ev f. induction repeats as [|repeat repeats IH];
    intros s ev f Hm Hp Hs; simpl in Hs.
  { simplify_eq. split_and!; try done. intros _. constructor. }
  destruct (while_loop cfg a objective_closure caller fuel _) as [ev1 f1] eqn:Hw.
  apply while_loop_frame in Hw as (Hc1 & Hn1 & Hf1); [|done..].
  simpl in Hc1, Hf1.
  destruct f1 as [s1|o s1]; [|by simplify_eq].
  destruct Hf1 as (He1 & Hts1 & Hm1 & Hp1).
  destruct (end_of_stage cfg a repeat s1) as [ev2 f2] eqn:He.
  apply end_of_stage_frame in He as (Hy2 & Hn2 & Hf2).
  destruct f2 as [s2|o s2].
  2:{ simplify_eq. rewrite yielded_epochs_app, Hy2, app_nil_r.
      split_and!; try done. intros Hrb. apply no_load_app; auto. }
  destruct Hf2 as (He2 & Hts2 & Hm2 & Hp2).
  destruct (stages cfg a objective_closure caller fuel repeats s2)
    as [ev3 f3] eqn:Hrec.
  apply IH in Hrec as (Hc3 & Hn3 & Hf3); [|by apply Hm2|by apply Hp2].
  simplify_eq.
  rewrite !yielded_epochs_app, Hy2, app_nil_l.
  split_and!.
  - apply consecutive_app; [done|]. by rewrite <- He1, <- He2.
  - intros Hrb. repeat apply no_load_app; auto.
  - destruct f as [s'|o s'].
    + destruct Hf3 as (Hts3 & Hm3 & Hp3). split_and!; try done. congruence.
    + destruct Hf3 as [Hnr Hf3]. split; [done|].
      intros Ho. destruct (Hf3 Ho) as (Hts3 & ? & ? & ?).
      split_and!; try done. congruence.
Qed.

(** What every run keeps. *)
Lemma early_stopping_frame (fuel : nat) (m : model P) (ev : list event)
    (o : outcome) (s : state P) :
  run_of fuel m = (ev, o, s) ->
  consecutive (start a) (yielded_epochs ev) /\
  (restore_best a = false -> no_load ev) /\
  (o = Returned \/ o = Diverged ->
   training_status s = training m /\ mode_ok s /\ paired s /\
   (restore_best a = true -> params (live s) = best_state_dict s) /\
   exists ev0, ev = ev0 ++ [Finalize (restore_best a)]).
Proof.
  intros Hrun.
  pose proof (early_stopping_spec cfg a objective_closure caller _ _ _ _ _ Hrun)
    as (_ & Hdiv & _).
  unfold early_stopping, _objective in Hrun. simpl in Hrun.
  destruct (objective_closure _) as [m2 [obj|]] eqn:Hcl.
  2:{ simplify_eq. split_and!; try done; [intros _; constructor|by intros [|]]. }
  destruct (initial_scheduler_step cfg a obj) as [sev|] eqn:Hs.
  2:{ simplify_eq. split_and!; try done; [intros _; constructor|by intros [|]]. }
  destruct (scheduler_step_facts sev obj (or_intror Hs)) as [Hsy Hsn].
  destruct (stages cfg a objective_closure caller fuel _ _) as [ev1 f1] eqn:Hst.
  apply stages_frame in Hst as (Hc1 & Hn1 & Hf1).
  2:{ unfold mode_ok. simpl. intros Hsw. by rewrite Hsw. }
  2:{ eexists _, m2. split; [exact Hcl|]. simpl. by destruct (switch_mode a). }
  simpl in Hc1, Hf1.
  destruct f1 as [s2|o1 s2].
  - destruct (finalize_spec a s2) as (s3 & Hfin & _ & _ & Hbo & Hbs & Htr & Hpar).
    assert (training_status s3 = training_status s2) as Hts3.
    { unfold finalize in Hfin. by destruct (restore_best a); simplify_eq. }
    rewrite Hfin in Hrun. simplify_eq.
    destruct Hf1 as (Hts & Hm2 & Hp2).
    rewrite !yielded_epochs_app, Hsy, app_nil_l.
    replace (yielded_epochs [Finalize (restore_best a)]) with (@nil Z) by done.
    rewrite app_nil_r. split_and!; [done| |].
    + intros Hrb. repeat apply no_load_app; auto.
      rewrite Hrb. by repeat constructor.
    + intros _. split_and!.
      * congruence.
      * unfold mode_ok. intros Hsw. rewrite Htr, Hts3. by apply Hm2.
      * by eapply paired_eq.
      * intros Hrb. by rewrite Hpar, Hrb, Hbs.
      * exists (sev ++ ev1). by rewrite app_assoc.
  - simplify_eq. rewrite yielded_epochs_app, Hsy, app_nil_l.
    destruct Hf1 as [Hnr Hf1].
    split_and!; [done| |].
    + intros Hrb. apply no_load_app; auto.
    + intros [?|Ho]; [done|].
      destruct (Hf1 Ho) as (Hts & Hm2 & Hp2 & Hpar).
      destruct (Hdiv Ho) as (_ & Hev0 & _).
      split_and!; done.
Qed.

(** X8.  The epochs a run yields are [start + 1, start + 2, ...] in this
    order, without a gap and without a repeat, also across decay stages and
    whatever the evaluations return. *)
Theorem yielded_epochs_consecutive (fuel : nat) (m : model P) :
  yielded_epochs (run_of fuel m).1.1
  = (fun i : nat => (start a + Z.of_nat (S i))%Z)
      <$> seq 0 (length (yielded_epochs (run_of fuel m).1.1)).
Proof.
  destruct (run_of fuel m) as [[ev o] s] eqn:Hrun. simpl.
  by apply early_stopping_frame in Hrun as (Hc & _).
Qed.

(** X9.  When a run ends (normally or on a non-finite objective), its best
    record and its best snapshot stem from one evaluation: the closure
    returned that record and left the model with those parameters; the
    last thing the run does is [finalize], and with [restore_best] the
    live model then has exactly those parameters. *)
Theorem best_snapshot_of_best_record (fuel : nat) (m : model P) :
  (run_of fuel m).1.2 = Returned \/ (run_of fuel m).1.2 = Diverged ->
  exists (m1 m2 : model P) (ev0 : list event),
    objective_closure m1 = (m2, Some (best_objective (run_of fuel m).2)) /\
    best_state_dict (run_of fuel m).2 = params m2 /\
    (run_of fuel m).1.1 = ev0 ++ [Finalize (restore_best a)] /\
    (restore_best a = true -> params (live (run_of fuel m).2) = params m2).
Proof.
  destruct (run_of fuel m) as [[ev o] s] eqn:Hrun. simpl. intros Ho.
  apply early_stopping_frame in Hrun as (_ & _ & Hend).
  destruct (Hend Ho) as (_ & _ & (m1 & m2 & Hcl & Hbs) & Hpar & ev0 & Hev).
  exists m1, m2, ev0. split_and!; try done.
  intros Hrb. by rewrite Hpar.
Qed.

(** X10.  With [switch_mode], a run that ends (normally or on a non-finite
    objective) leaves the model in the train/eval mode it had on entry,
    whatever the consumer and the closure did to the mode in between. *)
Theorem mode_restored_at_end (fuel : nat) (m : model P) :
  switch_mode a = true ->
  (run_of fuel m).1.2 = Returned \/ (run_of fuel m).1.2 = Diverged ->
  training (live (run_of fuel m).2) = training m.
Proof.
  destruct (run_of fuel m) as [[ev o] s] eqn:Hrun. simpl. intros Hsw Ho.
  apply early_stopping_frame in Hrun as (_ & _ & Hend).
  destruct (Hend Ho) as (Hts & Hm & _). rewrite <- Hts. by apply Hm.
Qed.

(** X11.  Without [restore_best] the controller never loads a state dict
    into the model: neither after a decay stage nor in [finalize]. *)
Theorem no_load_without_restore_best (fuel : nat) (m : model P) :
  restore_best a = false ->
  Forall (fun e => e <> RestoreAfterDecay /\ e <> Finalize true)
    (run_of fuel m).1.1.
Proof.
  destruct (run_of fuel m) as [[ev o] s] eqn:Hrun. simpl. intros Hrb.
  apply early_stopping_frame in Hrun as (_ & Hn & _). by apply Hn.
Qed.

Lemma stages_budget_spent (fuel : nat) (repeats : list Z) (s : state P) :
  (max_iter a <= epoch s)%Z ->
  exists s',
    stages cfg a objective_closure caller (S fuel) repeats s = ([], Continue s') /\
    epoch s' = epoch s /\ live s' = live s /\
    best_objective s' = best_objective s /\
    best_state_dict s' = best_state_dict s.
Proof.
  intros Hmax. revert s Hmax.
  induction repeats as [|repeat repeats IH]; intros s Hmax.
  { by exists s. }
  assert ((epoch s <? max_iter a)%Z = false) as Hlt by (apply Z.ltb_ge; lia).
  destruct (IH (set_patience_counter (-1) s) Hmax) as (s' & Hst & ? & ? & ? & ?).
  exists s'. split; [|done].
  change (stages cfg a objective_closure caller (S fuel) (repeat :: repeats) s)
    with (match while_loop cfg a objective_closure caller (S fuel)
                  (set_patience_counter (-1) s) with
          | (ev, Stop o s1) => (ev, Stop o s1)
          | (ev, Continue s1) =>
              match end_of_stage cfg a repeat s1 with
              | (ev', Stop o s2) => (ev ++ ev', Stop o s2)
              | (ev', Continue s2) =>
                  let '(ev'', f) :=
                    stages cfg a objective_closure caller (S fuel) repeats s2 in
                  (ev ++ ev' ++ ev'', f)
              end
          end).
  simpl. rewrite Hlt, andb_false_r.
  unfold end_of_stage, decay_condition. simpl. rewrite Hlt. simpl.
  by rewrite Hst.
Qed.

(** X12.  A run whose start epoch has already reached [max_iter] trains
    nothing: it evaluates once, steps the scheduler once if one is
    configured, yields no epoch and finalizes, for any number of decay
    stages. *)
Theorem no_epoch_when_budget_spent (fuel : nat) (m m2 : model P)
    (obj : objective) (sev : list event) :
  (max_iter a <= start a)%Z ->
  objective_closure
    (if switch_mode a then set_training false m else m) = (m2, Some obj) ->
  initial_scheduler_step cfg a obj = Some sev ->
  exists s,
    run_of (S fuel) m = (sev ++ [Finalize (restore_best a)], Returned, s) /\
    yielded_epochs (sev ++ [Finalize (restore_best a)]) = [] /\
    epoch s = start a /\
    best_objective s = obj /\
    params (live s) = params m2.
Proof.
  intros Hmax Hcl Hs.
  destruct (scheduler_step_facts sev obj (or_intror Hs)) as [Hsy _].
  unfold early_stopping, _objective.
  cbn [live entry_state training_status].
  rewrite Hcl, Hs.
  set (s1 := set_best (set_current_objective obj _)).
  destruct (stages_budget_spent fuel (range (lr_decay_steps a)) s1)
    as (s' & Hst & He & Hl & Hbo & Hbs); [done|].
  rewrite Hst.
  destruct (finalize_spec a s') as (s3 & Hfin & He3 & _ & Hbo3 & _ & _ & Hpar).
  rewrite Hfin. exists s3. split_and!.
  - done.
  - by rewrite yielded_epochs_app, Hsy.
  - by rewrite He3, He.
  - by rewrite Hbo3, Hbo.
  - rewrite Hpar, Hbs, Hl. subst s1. simpl.
    by destruct (restore_best a), (switch_mode a).
Qed.

End Run.

Lemma best_snapshot_of_best_record_witness :
  exists (m1 m2 : model nat) (ev0 : list event),
    closure_of evals_example m1
    = (m2, Some (best_objective
                   (early_stopping cfg_example args_example
                      (closure_of evals_example) train_one_epoch 4 fresh_model).2)) /\
    best_state_dict
      (early_stopping cfg_example args_example (closure_of evals_example)
         train_one_epoch 4 fresh_model).2 = params m2 /\
    (early_stopping cfg_example args_example (closure_of evals_example)
       train_one_epoch 4 fresh_model).1.1
    = ev0 ++ [Finalize (restore_best args_example)] /\
    (restore_best args_example = true ->
     params (live (early_stopping cfg_example args_example
                     (closure_of evals_example) train_one_epoch 4 fresh_model).2)
     = params m2).
Proof.
  apply (best_snapshot_of_best_record cfg_example args_example
           (closure_of evals_example) train_one_epoch 4 fresh_model).
  left. vm_compute. reflexivity.
Defined.

Lemma mode_restored_at_end_witness :
  training (live (early_stopping cfg_example args_example
                    (closure_of evals_example) train_one_epoch 4 fresh_model).2)
  = training fresh_model.
Proof.
  apply (mode_restored_at_end cfg_example args_example
           (closure_of evals_example) train_one_epoch 4 fresh_model).
  - reflexivity.
  - left. vm_compute. reflexivity.
Defined.

(** The example arguments, without [restore_best]. *)
Definition args_keep_last : args :=
  {| interval := 1; patience := 0; start := 0; max_iter := 10;
     maximize := true; tolerance := 0; switch_mode := true;
     restore_best := false; tracker := false; scheduler := false;
     lr_decay_steps := 2 |}.

Lemma no_load_without_restore_best_witness :
  Forall (fun e => e <> RestoreAfterDecay /\ e <> Finalize true)
    (early_stopping cfg_example args_keep_last (closure_of [1 # 2; 1 # 2; 1 # 2])
       train_one_epoch 2 fresh_model).1.1.
Proof.
  apply (no_load_without_restore_best cfg_example args_keep_last
           (closure_of [1 # 2; 1 # 2; 1 # 2]) train_one_epoch 2 fresh_model).
  reflexivity.
Defined.

(** The example arguments, resumed at the end of the budget. *)
Definition args_resumed : args :=
  {| interval := 1; patience := 2; start := 3; max_iter := 3;
     maximize := true; tolerance := 1 # 100; switch_mode := true;
     restore_best := true; tracker := false; scheduler := false;
     lr_decay_steps := 3 |}.

Lemma no_epoch_when_budget_spent_witness :
  exists s,
    early_stopping cfg_example args_resumed (closure_of evals_example)
      train_one_epoch 1 fresh_model
    = ([] ++ [Finalize (restore_best args_resumed)], Returned, s) /\
    yielded_epochs ([] ++ [Finalize (restore_best args_resumed)]) = [] /\
    epoch s = start args_resumed /\
    best_objective s = record_of (1 # 2) /\
    params (live s) = params (set_training false fresh_model).
Proof.
  apply (no_epoch_when_budget_spent cfg_example args_resumed
           (closure_of evals_example) train_one_epoch 0 fresh_model
           (set_training false fresh_model) (record_of (1 # 2)) []).
  - simpl. lia.
  - reflexivity.
  - reflexivity.
Defined.
End EarlyStoppingRun.

(** ** The pruner between rounds: shapes, zeros, resets, gradients *)

Module LotteryTicketRounds.
Import EarlyStopping LotteryTicket.

Lemma map2_lookup {A B C : Type} (f : A -> B -> C) (l : list A) (k : list B)
    (r : list C) :
  map2 f l k = Some r ->
  length r = length l /\ length k = length l /\
  forall i x y, l !! i = Some x -> k !! i = Some y -> r !! i = Some (f x y).
Proof.
  revert k r. induction l as [|x l IH]; intros [|y k] r Hm; simpl in Hm;
    simplify_eq.
  { split_and!; done. }
  destruct (map2 f l k) as [r'|] eqn:Hr; simplify_eq.
  destruct (IH k r' Hr) as (Hlr & Hlk & Hlook).
  split_and!; simpl; try lia.
  intros [|i] x' y' Hx Hy; simpl in *; simplify_eq; [done|]. by apply Hlook.
Qed.

Lemma map2_total {A B C : Type} (f : A -> B -> C) (l : list A) (k : list B) :
  length l = length k -> is_Some (map2 f l k).
Proof.
  revert k. induction l as [|x l IH]; intros [|y k] Hlen; simpl in *;
    try done.
  destruct (IH k ltac:(lia)) as [r ->]. done.
Qed.

(** Where the mask is zero, the product with the mask is zero. *)
Lemma mul_zero (data m data' : tensor) :
  mul data m = Some data' ->
  forall i x, m !! i = Some x -> (x == 0)%Q ->
              exists w, data' !! i = Some w /\ (w == 0)%Q.
Proof.
  intros Hmul i x Hx Hz.
  destruct (map2_lookup _ _ _ _ Hmul) as (Hlr & Hlk & Hlook).
  destruct (lookup_lt_is_Some_2 data i) as [d Hd].
  { rewrite <- Hlk. by eapply lookup_lt_Some. }
  exists (d * x)%Q. split; [by apply Hlook|].
  rewrite Hz. apply Qmult_0_r.
Qed.

Section Rounds.
Variable cfg : config.
Variable percentile : list Q -> Q -> option threshold.

(** What the second loop of [prune_by_percentile] does, parameter by
    parameter; mask entries below [step] are not touched. *)
Lemma prune_loop_lookup (global : option threshold) (percent : Q)
    (params : named_parameters) :
  forall (step : nat) (mask : list tensor) (params' : named_parameters)
         (mask' : list tensor),
    prune_loop cfg percentile global percent params step mask
    = Some (params', mask') ->
    length mask' = length mask /\
    (forall i, i < step -> mask' !! i = mask !! i) /\
    params'.*1 = params.*1 /\
    forall (j : nat) (name : string) (data : tensor),
      params !! j = Some (name, data) ->
      if prunable cfg name
      then exists m' data',
          mask' !! (step + prunable_count cfg (take j params)) = Some m' /\
          params' !! j = Some (name, data') /\
          length m' = length data /\
          mul data m' = Some data'
      else params' !! j = Some (name, data).
Proof.
  induction params as [|[name data] rest IH];
    intros step mask params' mask' Hp; simpl in Hp.
  { simplify_eq. split_and!; done. }
  destruct (prunable cfg name) eqn:Hpr.
  - destruct (mask !! step) as [m|] eqn:Hm; [|done].
    destruct (match global with Some t => Some t | None => _ end) as [t|];
      [|done].
    destruct (where_below data t m) as [new_mask|] eqn:Hw; [|done].
    destruct (mul data new_mask) as [data'|] eqn:Hmul; [|done].
    destruct (prune_loop _ _ _ _ rest _ _) as [[rest' mask1]|] eqn:Hrec; [|done].
    simplify_eq.
    destruct (IH _ _ _ _ Hrec) as (Hlen & Hlow & Hnames & Hlook).
    rewrite length_insert in Hlen.
    assert (step < length mask) as Hstep by (by eapply lookup_lt_Some).
    assert (mask' !! step = Some new_mask) as Hnew.
    { rewrite Hlow by lia. by rewrite list_lookup_insert_eq. }
    split_and!; [done| |by simpl; f_equal|].
    + intros i Hi. rewrite Hlow by lia. by rewrite list_lookup_insert_ne by lia.
    + intros [|j] name' data0 Hj; simpl in Hj.
      * simplify_eq. rewrite Hpr. exists new_mask, data'.
        simpl. rewrite Nat.add_0_r. split_and!; try done.
        destruct (map2_lookup _ _ _ _ Hw) as (? & ? & _). lia.
      * specialize (Hlook j name' data0 Hj).
        simpl. rewrite Hpr.
        replace (step + (1 + prunable_count cfg (take j rest)))
          with (S step + prunable_count cfg (take j rest)) by lia. done.
  - destruct (prune_loop _ _ _ _ rest _ _) as [[rest' mask1]|] eqn:Hrec; [|done].
    simplify_eq.
    destruct (IH _ _ _ _ Hrec) as (Hlen & Hlow & Hnames & Hlook).
    split_and!; [done|done|by simpl; f_equal|].
    intros [|j] name' data0 Hj; simpl in Hj.
    + simplify_eq. by rewrite Hpr.
    + specialize (Hlook j name' data0 Hj). simpl. by rewrite Hpr.
Qed.

(** X13.  A call of [prune_by_percentile] that returns keeps the names and
    the order of the parameters, leaves every non-prunable parameter (bias,
    readout) as it is, and stores every prunable parameter as its old value
    times its new mask: wherever the new mask is zero the live weight is
    zero. *)
Theorem pruned_weights_are_zero (model : named_parameters)
    (mask : list tensor) (percent : Q) (model' : named_parameters)
    (mask' : list tensor) :
  prune_by_percentile cfg percentile model mask percent = Some (model', mask') ->
  model'.*1 = model.*1 /\
  forall (j : nat) (name : string) (data : tensor),
    model !! j = Some (name, data) ->
    if prunable cfg name
    then exists m' data',
        mask' !! prunable_count cfg (take j model) = Some m' /\
        model' !! j = Some (name, data') /\
        mul data m' = Some data' /\
        forall i x, m' !! i = Some x -> (x == 0)%Q ->
                    exists w, data' !! i = Some w /\ (w == 0)%Q
    else model' !! j = Some (name, data).
Proof.
  unfold prune_by_percentile. intros Hp.
  assert (exists g, prune_loop cfg percentile g percent model 0 mask
                    = Some (model', mask')) as [g Hloop].
  { destruct (global_pruning cfg); [|by eexists].
    destruct (global_percentile _ _ _ _ _); [by eexists|done]. }
  destruct (prune_loop_lookup _ _ _ _ _ _ _ Hloop) as (_ & _ & Hnames & Hlook).
  split; [done|]. intros j name data Hj. specialize (Hlook j name data Hj).
  destruct (prunable cfg name); [|done].
  destruct Hlook as (m' & data' & Hm' & Hj' & _ & Hmul).
  exists m', data'. split_and!; try done. by eapply mul_zero.
Qed.

(** *** Masks that fit the model *)

(** The tensors [step] runs over: those of the prunable parameters. *)
Definition prunable_tensors (model : named_parameters) : list tensor :=
  omap (fun kv : string * tensor =>
          if prunable cfg kv.1 then Some kv.2 else None) model.

Definition same_shape (d m : tensor) : Prop := length d = length m.

(** One mask per prunable parameter, of its shape. *)
Definition mask_fits (model : named_parameters) (mask : list tensor) : Prop :=
  Forall2 same_shape (prunable_tensors model) mask.

Lemma make_empty_mask_fits (model : named_parameters) :
  mask_fits model (make_empty_mask cfg model).
Proof.
  unfold mask_fits, prunable_tensors, make_empty_mask.
  induction model as [|[name data] model IH]; simpl; [constructor|].
  destruct (prunable cfg name); [|done].
  constructor; [|done]. unfold same_shape. by rewrite length_fmap.
Qed.

Lemma fits_head (data : tensor) (pts : list tensor) (step : nat)
    (mask : list tensor) :
  Forall2 same_shape (data :: pts) (drop step mask) ->
  exists m, mask !! step = Some m /\ length data = length m /\
            Forall2 same_shape pts (drop (S step) mask).
Proof.
  intros Hf. apply Forall2_cons_inv_l in Hf as (m & tl & Hs & Hrest & Hd).
  assert (mask !! step = Some m) as Hm.
  { rewrite <- (Nat.add_0_r step), <- lookup_drop, Hd. done. }
  exists m. split_and!; [done..|].
  rewrite (drop_S _ _ _ Hm) in Hd. by simplify_eq.
Qed.

Lemma alive_values_total (data m : tensor) :
  length data = length m -> is_Some (alive_values data m).
Proof.
  intros Hlen. unfold alive_values.
  destruct (map2_total (fun w m0 => if Qeq_bool m0 0 then None else Some w)
              data m Hlen) as [r ->]. done.
Qed.

(** A mask with an entry that is not zero: its tensor has a weight that
    is still alive. *)
Definition has_alive (m : tensor) : Prop :=
  exists (i : nat) (x : Q), m !! i = Some x /\ ~ (x == 0)%Q.

(** What the code asks of [np.percentile]: a value on every non-empty
    input, for a percentage in [[0, 100]]. *)
Definition percentile_defined : Prop :=
  forall (values : list Q) (pct : Q),
    values <> [] -> (0 <= pct <= 100)%Q -> is_Some (percentile values pct).

Lemma alive_values_nonempty (data m : tensor) :
  length data = length m ->
  exists al, alive_values data m = Some al /\ (has_alive m -> al <> []).
Proof.
  intros Hlen. unfold alive_values.
  destruct (map2_total (fun w m0 => if Qeq_bool m0 0 then None else Some w)
              data m Hlen) as [r Hr].
  rewrite Hr. eexists. split; [reflexivity|].
  intros (i & x & Hx & Hnz) Hnil.
  destruct (map2_lookup _ _ _ _ Hr) as (_ & _ & Hlook).
  destruct (lookup_lt_is_Some_2 data i) as [d Hd].
  { rewrite Hlen. by eapply lookup_lt_Some. }
  specialize (Hlook i d x Hd Hx). simpl in Hlook.
  assert (Qeq_bool x 0 = false) as Hx0.
  { apply not_true_iff_false. by rewrite Qeq_bool_iff. }
  rewrite Hx0 in Hlook.
  assert (d ∈ omap (fun o : option Q => o) r) as Hin.
  { apply list_elem_of_omap. exists (Some d). split; [|done].
    by eapply list_elem_of_lookup_2. }
  rewrite Hnil in Hin. by apply elem_of_nil in Hin.
Qed.

Lemma alive_tensors_total (params : named_parameters) :
  forall (step : nat) (mask : list tensor),
    Forall2 same_shape (prunable_tensors params) (drop step mask) ->
    exists als, alive_tensors cfg params step mask = Some als /\
                Forall2 (fun al m => has_alive m -> al <> []) als (drop step mask).
Proof.
  induction params as [|[name data] rest IH]; intros step mask Hf; simpl.
  { exists []. split; [done|]. unfold prunable_tensors in Hf. simpl in Hf.
    apply Forall2_nil_inv_l in Hf. rewrite Hf. constructor. }
  unfold prunable_tensors in Hf. simpl in Hf.
  destruct (prunable cfg name).
  - apply fits_head in Hf as (m & Hm & Hlen & Hrest).
    rewrite Hm. simpl.
    destruct (alive_values_nonempty data m Hlen) as (al & -> & Hal).
    destruct (IH (S step) mask Hrest) as (als & -> & Hals).
    exists (al :: als). split; [done|].
    rewrite (drop_S _ _ _ Hm). by constructor.
  - by apply IH.
Qed.

Lemma prune_loop_total (global : option threshold) (percent : Q)
    (params : named_parameters) :
  percentile_defined ->
  (0 <= percent <= 100)%Q ->
  forall (step : nat) (mask : list tensor),
    Forall2 same_shape (prunable_tensors params) (drop step mask) ->
    (global = None -> Forall has_alive (drop step mask)) ->
    exists params' mask',
      prune_loop cfg percentile global percent params step mask
      = Some (params', mask') /\
      Forall2 same_shape (prunable_tensors params') (drop step mask').
Proof.
  intros Hperc Hpct.
  induction params as [|[name data] rest IH]; intros step mask Hf Halive.
  { exists [], mask. by split. }
  unfold prunable_tensors in Hf. simpl in Hf. simpl.
  destruct (prunable cfg name) eqn:Hpr.
  - apply fits_head in Hf as (m & Hm & Hlen & Hrest).
    rewrite Hm.
    assert (exists t,
              match global with
              | Some t => Some t
              | None =>
                  match alive_values data m with
                  | Some alive => percentile (Qabs <$> alive) percent
                  | None => None
                  end
              end = Some t) as [t ->].
    { destruct global as [t|]; [by eexists|].
      destruct (alive_values_nonempty data m Hlen) as (al & -> & Hal).
      apply Hperc; [|done].
      specialize (Halive eq_refl). rewrite (drop_S _ _ _ Hm) in Halive.
      apply Forall_cons in Halive as [Hm_alive _].
      specialize (Hal Hm_alive). by destruct al. }
    destruct (map2_total (fun w m0 => if below (Qabs w) t then 0%Q else m0)
                data m Hlen) as [new_mask Hw].
    unfold where_below. rewrite Hw.
    destruct (map2_lookup _ _ _ _ Hw) as (Hln & _ & _).
    destruct (map2_total Qmult data new_mask ltac:(lia)) as [data' Hmul].
    unfold mul at 1. rewrite Hmul.
    destruct (map2_lookup _ _ _ _ Hmul) as (Hld & _ & _).
    destruct (IH (S step) (<[step := new_mask]> mask)) as (rest' & mask' & Hrec & Hfit).
    { by rewrite drop_insert_lt by lia. }
    { intros Hg. specialize (Halive Hg). rewrite (drop_S _ _ _ Hm) in Halive.
      apply Forall_cons in Halive as [_ Hrest_alive].
      by rewrite drop_insert_lt by lia. }
    rewrite Hrec. exists ((name, data') :: rest'), mask'. split; [done|].
    destruct (prune_loop_lookup _ _ _ _ _ _ _ Hrec) as (_ & Hlow & _).
    assert (mask' !! step = Some new_mask) as Hnew.
    { rewrite Hlow by lia. apply list_lookup_insert_eq. by eapply lookup_lt_Some. }
    unfold prunable_tensors. simpl. rewrite Hpr.
    rewrite (drop_S _ _ _ Hnew). constructor; [|done].
    unfold same_shape. lia.
  - destruct (IH step mask Hf Halive) as (rest' & mask' & Hrec & Hfit).
    rewrite Hrec. exists ((name, data) :: rest'), mask'. split; [done|].
    unfold prunable_tensors. simpl. by rewrite Hpr.
Qed.

Lemma make_empty_mask_alive (model : named_parameters) :
  Forall (fun d : tensor => d <> []) (prunable_tensors model) ->
  Forall has_alive (make_empty_mask cfg model).
Proof.
  unfold prunable_tensors, make_empty_mask.
  induction model as [|[name data] model IH]; simpl; [constructor|].
  destruct (prunable cfg name); [|done].
  intros [Hne Hrest]%Forall_cons. constructor; [|by apply IH].
  destruct data as [|w data]; [done|]. by exists 0, 1%Q.
Qed.

(** X14.  The mask built by [make_empty_mask] fits the model (one all-ones
    tensor per prunable parameter, of its shape) and has a live entry in
    every tensor that is not empty.  On a mask that fits,
    [prune_by_percentile] returns (no index or shape error, no call of
    [np.percentile] on an empty array) whenever the percentage is in
    [[0, 100]], [np.percentile] returns a value on every non-empty input
    for such a percentage, and every mask tensor (under global pruning:
    some mask tensor) has an entry that is not zero; the new mask fits the
    new model. *)
Theorem prune_by_percentile_total (model : named_parameters)
    (mask : list tensor) (percent : Q) :
  percentile_defined ->
  (0 <= percent <= 100)%Q ->
  mask_fits model mask ->
  (if global_pruning cfg then Exists has_alive mask else Forall has_alive mask) ->
  mask_fits model (make_empty_mask cfg model) /\
  (Forall (fun d : tensor => d <> []) (prunable_tensors model) ->
   Forall has_alive (make_empty_mask cfg model)) /\
  exists model' mask',
    prune_by_percentile cfg percentile model mask percent = Some (model', mask') /\
    mask_fits model' mask'.
Proof.
  intros Hperc Hpct Hfit Halive.
  split; [apply make_empty_mask_fits|]. split; [apply make_empty_mask_alive|].
  unfold prune_by_percentile, mask_fits in *.
  destruct (global_pruning cfg).
  - unfold global_percentile.
    destruct (alive_tensors_total model 0 mask) as (als & -> & Hals);
      [by rewrite drop_0|].
    rewrite drop_0 in Hals.
    assert (concat als <> []) as Hne.
    { clear -Hals Halive. induction Hals as [|al m als mask Hal _ IH]; simpl.
      - by apply Exists_nil in Halive.
      - apply Exists_cons in Halive as [Hm|Hrest].
        + specialize (Hal Hm). by destruct al.
        + specialize (IH Hrest). intros [_ Hc]%app_eq_nil. done. }
    destruct als as [|al als]; [done|].
    destruct (Hperc (Qabs <$> concat (al :: als)) percent) as [t ->]; [|done|].
    { intros Hnil%fmap_nil_inv. done. }
    destruct (prune_loop_total (Some t) percent model Hperc Hpct 0 mask)
      as (model' & mask' & Hp & Hf); [by rewrite drop_0|done|].
    exists model', mask'. by rewrite drop_0 in Hf.
  - destruct (prune_loop_total None percent model Hperc Hpct 0 mask)
      as (model' & mask' & Hp & Hf); [by rewrite drop_0|by rewrite drop_0|].
    exists model', mask'. by rewrite drop_0 in Hf.
Qed.

(** *** Resets *)

Variable weight_reset : named_parameters -> named_parameters.

Lemma reset_loop_idempotent (initial_state_dict : named_parameters)
    (mask : list tensor) (params : named_parameters) :
  forall (step : nat) (params' : named_parameters),
    reset_loop cfg initial_state_dict false mask params step = Some params' ->
    reset_loop cfg initial_state_dict false mask params' step = Some params'.
Proof.
  induction params as [|[name data] rest IH]; intros step params' Hr;
    simpl in Hr.
  { by simplify_eq. }
  destruct (state_dict_get initial_state_dict name) as [init|] eqn:Hinit; [|done].
  destruct (prunable cfg name) eqn:Hp.
  - destruct (mask !! step ≫= _) as [data'|] eqn:Hm; [|done].
    destruct (reset_loop _ _ _ _ rest _) as [rest'|] eqn:Hrec; [|done].
    simplify_eq. simpl. rewrite Hinit, Hp, Hm, (IH _ _ Hrec). done.
  - destruct (reset_loop _ _ _ _ rest _) as [rest'|] eqn:Hrec; [|done].
    destruct (contains "bias" name || contains "weight" name) eqn:Hbw;
      simplify_eq; simpl; rewrite Hinit, Hp, (IH _ _ Hrec), Hbw; done.
Qed.

(** X15.  Without [reinit], [reset_initialization] is idempotent: applied
    again to its own result, with the same mask and the same saved initial
    state, it returns that result unchanged. *)
Theorem reset_initialization_idempotent (initial_state_dict : named_parameters)
    (mask : list tensor) (model model' : named_parameters) :
  reset_initialization cfg weight_reset initial_state_dict mask model false
  = Some model' ->
  reset_initialization cfg weight_reset initial_state_dict mask model' false
  = Some model'.
Proof. unfold reset_initialization. apply reset_loop_idempotent. Qed.

(** X16.  After [reset_initialization] every prunable weight whose mask
    entry is zero is zero, with or without [reinit], and the parameters
    keep their names and their order. *)
Theorem reset_masked_weights_are_zero (initial_state_dict : named_parameters)
    (mask : list tensor) (model : named_parameters) (reinit : bool)
    (model' : named_parameters) :
  reset_initialization cfg weight_reset initial_state_dict mask model reinit
  = Some model' ->
  model'.*1 = (if reinit then weight_reset model else model).*1 /\
  forall (j : nat) (name : string) (data' : tensor),
    model' !! j = Some (name, data') ->
    prunable cfg name = true ->
    exists m,
      mask !! prunable_count cfg
                (take j (if reinit then weight_reset model else model)) = Some m /\
      length data' = length m /\
      forall i x, m !! i = Some x -> (x == 0)%Q ->
                  exists w, data' !! i = Some w /\ (w == 0)%Q.
Proof.
  unfold reset_initialization. intros Hr.
  destruct (reset_loop_lookup cfg _ _ _ _ _ _ Hr) as [Hlen Hlook].
  set (live := if reinit then weight_reset model else model) in *.
  assert (forall j name data, live !! j = Some (name, data) ->
            exists d', model' !! j = Some (name, d')) as Hname.
  { intros j name data Hj.
    destruct (Hlook j name data Hj) as (init & d' & Hj' & _). by exists d'. }
  split.
  - apply list_eq. intros j. rewrite !list_lookup_fmap.
    destruct (live !! j) as [[name data]|] eqn:Hj.
    + destruct (Hname j name data Hj) as [d' ->]. done.
    + rewrite lookup_ge_None_2; [done|]. apply lookup_ge_None in Hj. lia.
  - intros j name data' Hj' Hp.
    destruct (lookup_lt_is_Some_2 live j) as [[name0 data] Hj].
    { rewrite <- Hlen. by eapply lookup_lt_Some. }
    destruct (Hlook j name0 data Hj) as (init & d' & Hj'' & _ & Hcase).
    rewrite Hj' in Hj''. simplify_eq. rewrite Hp in Hcase.
    destruct Hcase as (m & Hm & Hmul).
    exists m. split; [done|].
    destruct (map2_lookup _ _ _ _ Hmul) as (Hl1 & Hl2 & Hlk).
    split; [done|].
    intros i x Hx Hz.
    destruct (lookup_lt_is_Some_2 init i) as [v Hv].
    { rewrite Hl2. by eapply lookup_lt_Some. }
    exists (x * v)%Q. split; [by apply Hlk|].
    rewrite Hz. apply Qmult_0_l.
Qed.

(** *** Gradient masking ([post_backward]) *)

(** [EPS = 1e-6] *)
Definition EPS : Q := 1 # 1000000.

(** [torch.where(torch.abs(p.data) < EPS, zeros_like(grad), grad)] *)
Definition masked_grad (data grad : tensor) : option tensor :=
  map2 (fun w g => if Qltb (Qabs w) EPS then 0%Q else g) data grad.

(** [post_backward] over the named parameters, each with its data and its
    gradient; [p.grad] is [None] for a parameter without gradient, and
    [p.grad.data] then raises. *)
Fixpoint post_backward (params : list (string * (tensor * option tensor)))
  : option (list (string * (tensor * option tensor))) :=
  match params with
  | [] => Some []
  | (name, (data, grad)) :: rest =>
      match (if prunable cfg name
             then match grad with
                  | None => None
                  | Some g =>
                      match masked_grad data g with
                      | None => None
                      | Some g' => Some (Some g')
                      end
                  end
             else Some grad) with
      | None => None
      | Some grad' =>
          match post_backward rest with
          | None => None
          | Some rest' => Some ((name, (data, grad')) :: rest')
          end
      end
  end.

Lemma post_backward_lookup
    (params params' : list (string * (tensor * option tensor))) :
  post_backward params = Some params' ->
  length params' = length params /\
  forall j name data grad,
    params !! j = Some (name, (data, grad)) ->
    exists grad',
      params' !! j = Some (name, (data, grad')) /\
      if prunable cfg name
      then exists g g', grad = Some g /\ grad' = Some g' /\
                        masked_grad data g = Some g'
      else grad' = grad.
Proof.
  revert params'. induction params as [|[name [data grad]] rest IH];
    intros params' Hp; simpl in Hp.
  { simplify_eq. split_and!; done. }
  destruct (if prunable cfg name then _ else _) as [grad'|] eqn:Hg; [|done].
  destruct (post_backward rest) as [rest'|] eqn:Hrec; [|done].
  simplify_eq. destruct (IH _ eq_refl) as [Hlen Hlook].
  split; [simpl; lia|].
  intros [|j] name0 data0 grad0 Hj; simpl in Hj.
  - simplify_eq. exists grad'. split; [done|].
    destruct (prunable cfg name0); [|by simplify_eq].
    destruct grad0 as [g|]; [|done].
    destruct (masked_grad data0 g) as [g'|] eqn:Hm; [|done].
    simplify_eq. by exists g, g'.
  - by apply Hlook.
Qed.

(** X17.  When [post_backward] returns, it has changed gradients only:
    names, order and weights stay; the gradient of a non-prunable parameter
    (bias, readout) stays, present or not; every prunable parameter has a
    gradient, in which the entry of every weight that is zero, as every
    pruned weight is, has become zero, and the entry of every weight of
    magnitude at least [1e-6] stays.  On a prunable parameter without
    gradient it raises. *)
Theorem post_backward_freezes_zero_weights
    (params : list (string * (tensor * option tensor))) :
  (forall params',
      post_backward params = Some params' ->
      length params' = length params /\
      forall j name data grad,
        params !! j = Some (name, (data, grad)) ->
        exists grad',
          params' !! j = Some (name, (data, grad')) /\
          if prunable cfg name
          then exists g g',
              grad = Some g /\ grad' = Some g' /\ length g' = length g /\
              forall i w x, data !! i = Some w -> g !! i = Some x ->
                ((w == 0)%Q -> g' !! i = Some 0%Q) /\
                ((EPS <= Qabs w)%Q -> g' !! i = Some x)
          else grad' = grad) /\
  (forall j name data,
      params !! j = Some (name, (data, None)) -> prunable cfg name = true ->
      post_backward params = None).
Proof.
  split.
  - intros params' Hp. destruct (post_backward_lookup _ _ Hp) as [Hlen Hlook].
    split; [done|]. intros j name data grad Hj.
    destruct (Hlook j name data grad Hj) as (grad' & Hj' & Hg).
    exists grad'. split; [done|].
    destruct (prunable cfg name); [|done].
    destruct Hg as (g & g' & -> & -> & Hm). exists g, g'.
    destruct (map2_lookup _ _ _ _ Hm) as (Hl1 & Hl2 & Hlk).
    split_and!; [done..|lia|].
    intros i w x Hw Hgi. rewrite (Hlk i w x Hw Hgi). split.
    + intros Hz.
      assert (Qltb (Qabs w) EPS = true) as ->; [|done].
      apply Qltb_lt. rewrite Hz. reflexivity.
    + intros Hge.
      assert (Qltb (Qabs w) EPS = false) as ->; [|done].
      apply not_true_iff_false. rewrite Qltb_lt. by apply Qle_not_lt.
  - intros j name data Hj Hpr.
    destruct (post_backward params) as [params'|] eqn:Hp; [|done].
    destruct (post_backward_lookup _ _ Hp) as [_ Hlook].
    destruct (Hlook j name data None Hj) as (grad' & _ & Hg).
    rewrite Hpr in Hg. by destruct Hg as (g & g' & ? & _).
Qed.

(** *** The pruning schedule of [pre_epoch] *)

(** [reset_epochs]: [[r * round_length + 1 for r in range(1, n_rounds + 1)]] *)
Definition reset_epochs (n_rounds round_length : Z) : list Z :=
  (fun r : nat => (Z.of_nat (S r) * round_length + 1)%Z)
    <$> seq 0 (Z.to_nat n_rounds).

(** The condition under which [pre_epoch] prunes and resets:
    [pruning and epoch in self.reset_epochs and epoch > 0]. *)
Definition prunes_at (pruning : bool) (n_rounds round_length epoch : Z) : bool :=
  pruning && bool_decide (epoch ∈ reset_epochs n_rounds round_length)
  && (epoch >? 0)%Z.

(** X18.  [pre_epoch] prunes at epoch [e] exactly when pruning is on, [e] is
    positive and [e = r * round_length + 1] for a round [r] in
    [1 .. n_rounds].  So with a non-negative [round_length] it never prunes
    in the validation call (epoch 0) nor during the first [round_length]
    epochs, and within a budget of [n_rounds * round_length] epochs only
    the rounds [r < n_rounds] are reached: the last round falls on the
    epoch after the budget. *)
Theorem prunes_at_reset_epochs (pruning : bool) (n_rounds round_length : Z) :
  (forall e,
      prunes_at pruning n_rounds round_length e = true <->
      pruning = true /\ (0 < e)%Z /\
      exists r, (1 <= r <= n_rounds)%Z /\ e = (r * round_length + 1)%Z) /\
  ((0 <= round_length)%Z ->
   forall e, (e <= round_length)%Z ->
             prunes_at pruning n_rounds round_length e = false) /\
  ((1 <= round_length)%Z ->
   forall e, (e <= n_rounds * round_length)%Z ->
             prunes_at pruning n_rounds round_length e = true ->
             exists r, (1 <= r < n_rounds)%Z /\ e = (r * round_length + 1)%Z).
Proof.
  assert (forall e,
             prunes_at pruning n_rounds round_length e = true <->
             pruning = true /\ (0 < e)%Z /\
             exists r, (1 <= r <= n_rounds)%Z /\ e = (r * round_length + 1)%Z)
    as Hchar.
  { intros e. unfold prunes_at, reset_epochs.
    rewrite !andb_true_iff, bool_decide_eq_true, list_elem_of_fmap, Z.gtb_lt.
    split.
    - intros [[Hp (r & -> & Hr)] He]. apply elem_of_seq in Hr.
      split_and!; [done..|]. exists (Z.of_nat (S r)). split; [lia|done].
    - intros (Hp & He & r & Hr & ->). split_and!; [done| |lia].
      exists (Z.to_nat r - 1). split.
      + f_equal. f_equal. lia.
      + apply elem_of_seq. lia. }
  split_and!; [done| |].
  - intros HL e He. apply not_true_iff_false. rewrite Hchar.
    intros (_ & Hpos & r & Hr & ->). nia.
  - intros HL e He Hpr. apply Hchar in Hpr as (_ & Hpos & r & Hr & ->).
    exists r. split; [|done]. nia.
Qed.

End Rounds.

Definition mask_ones : list tensor := make_empty_mask cfg_readout model_trained.

Definition model_pruned : named_parameters :=
  [("core.weight"%string, [0; -3; 0; 5]%Q);
   ("core.scale"%string, [9]%Q);
   ("core.bias"%string, [7]%Q);
   ("readout.weight"%string, [4; 4]%Q)].

Lemma pruned_weights_are_zero_witness :
  model_pruned.*1 = model_trained.*1 /\
  forall (j : nat) (name : string) (data : tensor),
    model_trained !! j = Some (name, data) ->
    if prunable cfg_readout name
    then exists m' data',
        [[0; 1; 0; 1]%Q] !! prunable_count cfg_readout (take j model_trained)
        = Some m' /\
        model_pruned !! j = Some (name, data') /\
        mul data m' = Some data' /\
        forall i x, m' !! i = Some x -> (x == 0)%Q ->
                    exists w, data' !! i = Some w /\ (w == 0)%Q
    else model_pruned !! j = Some (name, data).
Proof.
  apply (pruned_weights_are_zero cfg_readout np_percentile model_trained
           mask_ones 50 model_pruned [[0; 1; 0; 1]%Q]).
  vm_compute. reflexivity.
Defined.

Lemma insert_sorted_nonempty (x : Q) (l : list Q) : insert_sorted x l <> [].
Proof. destruct l as [|y l]; simpl; [done|]. by destruct (Qle_bool x y). Qed.

Lemma np_percentile_defined : percentile_defined np_percentile.
Proof.
  intros values pct Hne [H0 H100]. unfold np_percentile.
  apply Qle_bool_iff in H0, H100. rewrite H0, H100. simpl.
  destruct values as [|v values]; [done|]. simpl.
  pose proof (insert_sorted_nonempty v (foldr insert_sorted [] values)) as Hs.
  by destruct (insert_sorted v _).
Qed.

Lemma prune_by_percentile_total_witness :
  mask_fits cfg_readout model_trained (make_empty_mask cfg_readout model_trained) /\
  (Forall (fun d : tensor => d <> []) (prunable_tensors cfg_readout model_trained) ->
   Forall has_alive (make_empty_mask cfg_readout model_trained)) /\
  exists model' mask',
    prune_by_percentile cfg_readout np_percentile model_trained mask_ones 50
    = Some (model', mask') /\
    mask_fits cfg_readout model' mask'.
Proof.
  apply (prune_by_percentile_total cfg_readout np_percentile model_trained
           mask_ones 50).
  - apply np_percentile_defined.
  - split; discriminate.
  - apply make_empty_mask_fits.
  - simpl. repeat constructor. by exists 0, 1%Q.
Defined.

Lemma reset_initialization_idempotent_witness :
  reset_initialization cfg_readout same_values model_initial [[0; 1; 0; 1]%Q]
    model_after_reset false = Some model_after_reset.
Proof.
  apply (reset_initialization_idempotent cfg_readout same_values model_initial
           [[0; 1; 0; 1]%Q] model_trained model_after_reset).
  vm_compute. reflexivity.
Defined.

Lemma reset_masked_weights_are_zero_witness :
  model_after_reset.*1 = model_trained.*1 /\
  forall (j : nat) (name : string) (data' : tensor),
    model_after_reset !! j = Some (name, data') ->
    prunable cfg_readout name = true ->
    exists m,
      [[0; 1; 0; 1]%Q] !! prunable_count cfg_readout (take j model_trained)
      = Some m /\
      length data' = length m /\
      forall i x, m !! i = Some x -> (x == 0)%Q ->
                  exists w, data' !! i = Some w /\ (w == 0)%Q.
Proof.
  apply (reset_masked_weights_are_zero cfg_readout same_values model_initial
           [[0; 1; 0; 1]%Q] model_trained false model_after_reset).
  vm_compute. reflexivity.
Defined.

Example post_backward_run :
  post_backward cfg_readout
    [("core.weight"%string, ([0; -3; 0; 5]%Q, Some [1; 1; 1; 1]%Q));
     ("core.bias"%string, ([7]%Q, None));
     ("readout.weight"%string, ([0; 4]%Q, Some [2; 2]%Q))]
  = Some [("core.weight"%string, ([0; -3; 0; 5]%Q, Some [0; 1; 0; 1]%Q));
          ("core.bias"%string, ([7]%Q, None));
          ("readout.weight"%string, ([0; 4]%Q, Some [2; 2]%Q))] /\
  post_backward cfg_readout [("core.weight"%string, ([0; -3]%Q, None))] = None.
Proof. split; vm_compute; reflexivity. Qed.

Example reset_epochs_default :
  reset_epochs 3 100 = [101; 201; 301]%Z /\
  prunes_at true 3 100 101 = true /\
  prunes_at true 3 100 100 = false /\
  prunes_at true 3 0 1 = true.
Proof. split_and!; vm_compute; reflexivity. Qed.
End LotteryTicketRounds.

(** ** The pruner's tensors as shared objects

    [reset_initialization] assigns tensors, not values: after
    [param.data = init] the parameter and the entry of
    [self.initial_state_dict] are one tensor, and an in-place update of the
    parameter (an optimizer step, [load_state_dict]) changes both.  Here a
    tensor object is a location of a store; the model binds each parameter
    name to the location of its [param.data], the saved state dict binds
    names to locations too.  A new tensor ([mask * init], [data * mask], a
    deep copy) is a new location; an in-place update overwrites the
    contents of a location. *)

Module LotteryTicketStore.
Import EarlyStopping LotteryTicket LotteryTicketRounds.

Record pruner : Type := {
  store : list tensor;                      (* the contents of every tensor object *)
  parameters : list (string * nat);         (* model.named_parameters(): name, param.data *)
  initial_state_dict : list (string * nat); (* self.initial_state_dict *)
  mask : list tensor                        (* self.mask *)
}.

(** The values of the tensors a dict or a model binds, in order; [None]
    when a location is not in the store. *)
Fixpoint values (h : list tensor) (ps : list (string * nat))
  : option named_parameters :=
  match ps with
  | [] => Some []
  | (name, l) :: rest =>
      match h !! l, values h rest with
      | Some t, Some r => Some ((name, t) :: r)
      | _, _ => None
      end
  end.

(** [d[name]] on a dict of tensor objects; [None] is [KeyError]. *)
Fixpoint dict_get (d : list (string * nat)) (name : string) : option nat :=
  match d with
  | [] => None
  | (n, l) :: d' => if String.eqb n name then Some l else dict_get d' name
  end.

(** [copy.deepcopy(model.state_dict())]: every tensor is copied into a new
    object. *)
Fixpoint deepcopy (h : list tensor) (ps : list (string * nat))
  : option (list tensor * list (string * nat)) :=
  match ps with
  | [] => Some (h, [])
  | (name, l) :: rest =>
      match h !! l with
      | None => None
      | Some t =>
          match deepcopy (h ++ [t]) rest with
          | None => None
          | Some (h', d) => Some (h', (name, length h) :: d)
          end
      end
  end.

(** An in-place update of the parameters ([optimizer.step()],
    [load_state_dict], [reset_parameters]): the contents of each
    parameter's tensor are overwritten, for every object that shares the
    tensor. *)
Definition update_in_place (f : string -> tensor -> tensor) (h : list tensor)
    (ps : list (string * nat)) : list tensor :=
  foldl (fun h p => match h !! p.2 with
                    | Some t => <[p.2 := f p.1 t]> h
                    | None => h
                    end) h ps.

Section Store.
Variable cfg : config.
Variable percentile : list Q -> Q -> option threshold.

(** [model.apply(weight_reset)]: new values, drawn in place. *)
Variable weight_reset : string -> tensor -> tensor.

(** [__init__] with [lottery_ticket.reinit] unset: the mask of ones and the
    deep copy of the model's state. *)
Definition init (h : list tensor) (ps : list (string * nat)) : option pruner :=
  match values h ps with
  | None => None
  | Some model =>
      match deepcopy h ps with
      | None => None
      | Some (h', d) =>
          Some {| store := h'; parameters := ps; initial_state_dict := d;
                  mask := make_empty_mask cfg model |}
      end
  end.

(** [param.data = param.data * new_mask] for every prunable parameter: the
    product is a new tensor. *)
Fixpoint rebind_pruned (h : list tensor) (ps : list (string * nat))
    (model' : named_parameters) : list tensor * list (string * nat) :=
  match ps, model' with
  | (name, l) :: rest, (_, data') :: rest' =>
      if prunable cfg name then
        let '(h1, r) := rebind_pruned (h ++ [data']) rest rest' in
        (h1, (name, length h) :: r)
      else
        let '(h1, r) := rebind_pruned h rest rest' in
        (h1, (name, l) :: r)
  | _, _ => (h, [])
  end.

(** [prune_by_percentile] on the store: the values are those of
    [LotteryTicket.prune_by_percentile]. *)
Definition prune_by_percentile (percent : Q) (st : pruner) : option pruner :=
  match values (store st) (parameters st) with
  | None => None
  | Some model =>
      match LotteryTicket.prune_by_percentile cfg percentile model (mask st) percent with
      | None => None
      | Some (model', mask') =>
          let '(h', ps') := rebind_pruned (store st) (parameters st) model' in
          Some {| store := h'; parameters := ps';
                  initial_state_dict := initial_state_dict st; mask := mask' |}
      end
  end.

(** The loop of [reset_initialization] (lines 153-159). *)
Fixpoint reset_loop (d : list (string * nat)) (reinit : bool)
    (mask : list tensor) (h : list tensor) (ps : list (string * nat))
    (step : nat) : option (list tensor * list (string * nat)) :=
  match ps with
  | [] => Some (h, [])
  | (name, l) :: rest =>
      (* init = param.data if reinit else self.initial_state_dict[name] *)
      match (if reinit then Some l else dict_get d name) with
      | None => None
      | Some init =>
          if prunable cfg name then
            (* param.data = self.mask[step] * init: a new tensor *)
            match mask !! step, h !! init with
            | Some m, Some t =>
                match mul m t with
                | None => None
                | Some data' =>
                    match reset_loop d reinit mask (h ++ [data']) rest (S step) with
                    | None => None
                    | Some (h', rest') => Some (h', (name, length h) :: rest')
                    end
                end
            | _, _ => None
            end
          else
            match reset_loop d reinit mask h rest step with
            | None => None
            | Some (h', rest') =>
                if contains "bias" name || contains "weight" name
                then (* param.data = init: the parameter is that tensor *)
                  Some (h', (name, init) :: rest')
                else Some (h', (name, l) :: rest')
            end
      end
  end.

(** [reset_initialization] *)
Definition reset_initialization (reinit : bool) (st : pruner) : option pruner :=
  let h0 := if reinit
            then update_in_place weight_reset (store st) (parameters st)
            else store st in
  match reset_loop (initial_state_dict st) reinit (mask st) h0 (parameters st) 0 with
  | None => None
  | Some (h', ps') =>
      Some {| store := h'; parameters := ps';
              initial_state_dict := initial_state_dict st; mask := mask st |}
  end.

(** What happens to the pruner and the model between two calls. *)
Inductive op : Type :=
| Train (f : string -> tensor -> tensor)  (* in-place updates of the parameters *)
| Prune (percent : Q)                     (* prune_by_percentile *)
| Reset.                                  (* reset_initialization(model, False) *)

Definition is_reset (o : op) : bool :=
  match o with Reset => true | _ => false end.

Definition step_op (o : op) (st : pruner) : option pruner :=
  match o with
  | Train f =>
      Some {| store := update_in_place f (store st) (parameters st);
              parameters := parameters st;
              initial_state_dict := initial_state_dict st; mask := mask st |}
  | Prune percent => prune_by_percentile percent st
  | Reset => reset_initialization false st
  end.

Fixpoint run (ops : list op) (st : pruner) : option pruner :=
  match ops with
  | [] => Some st
  | o :: ops' =>
      match step_op o st with
      | None => None
      | Some st' => run ops' st'
      end
  end.


(** *** Locations, values and names *)

(** Every binding points into the store. *)
Definition valid (h : list tensor) (ps : list (string * nat)) : Prop :=
  Forall (fun p : string * nat => p.2 < length h) ps.

(** The value of [step] after the parameters of the given names. *)
Fixpoint steps (names : list string) : nat :=
  match names with
  | [] => 0
  | name :: rest => (if prunable cfg name then 1 else 0) + steps rest
  end.

Lemma prunable_count_steps (m : named_parameters) :
  prunable_count cfg m = steps m.*1.
Proof. induction m as [|[name data] m IH]; simpl; [done|]. by rewrite IH. Qed.

Lemma valid_app (h ext : list tensor) (ps : list (string * nat)) :
  valid h ps -> valid (h ++ ext) ps.
Proof.
  unfold valid. intros Hv. eapply Forall_impl; [exact Hv|].
  intros p Hp. simpl in *. rewrite length_app. lia.
Qed.

Lemma valid_elem (h : list tensor) (ps : list (string * nat)) (name : string)
    (l : nat) :
  valid h ps -> (name, l) ∈ ps -> l < length h.
Proof.
  unfold valid. rewrite Forall_forall. intros Hv Hin. exact (Hv _ Hin).
Qed.

Lemma dict_get_elem (d : list (string * nat)) (name : string) (l : nat) :
  dict_get d name = Some l -> (name, l) ∈ d.
Proof.
  induction d as [|[n l'] d IH]; simpl; [done|].
  destruct (String.eqb n name) eqn:Hn.
  - apply String.eqb_eq in Hn. intros [= ->]. subst. apply elem_of_cons. by left.
  - intros Hd. apply elem_of_cons. right. by apply IH.
Qed.

Lemma values_names (h : list tensor) (ps : list (string * nat))
    (m : named_parameters) :
  values h ps = Some m -> m.*1 = ps.*1.
Proof.
  revert m. induction ps as [|[name l] ps IH]; intros m Hm; simpl in Hm.
  { by simplify_eq. }
  destruct (h !! l) as [t|]; [|done].
  destruct (values h ps) as [r|]; [|done]. simplify_eq. simpl.
  f_equal. by apply IH.
Qed.

Lemma values_valid (h : list tensor) (ps : list (string * nat))
    (m : named_parameters) :
  values h ps = Some m -> valid h ps.
Proof.
  revert m. induction ps as [|[name l] ps IH]; intros m Hm; simpl in Hm.
  { constructor. }
  destruct (h !! l) as [t|] eqn:Hl; [|done].
  destruct (values h ps) as [r|]; [|done].
  constructor; [by eapply lookup_lt_Some|by eapply IH].
Qed.

(** Looking a name up in a dict of tensors and reading the tensor is
    looking the name up in the dict of their values. *)
Lemma values_dict_get (h : list tensor) (d : list (string * nat))
    (m : named_parameters) (name : string) (l : nat) :
  values h d = Some m -> dict_get d name = Some l ->
  exists t, h !! l = Some t /\ state_dict_get m name = Some t.
Proof.
  revert m. induction d as [|[n l0] d IH]; intros m Hm Hd; simpl in *.
  { done. }
  destruct (h !! l0) as [t|] eqn:Hl; [|done].
  destruct (values h d) as [r|] eqn:Hr; [|done]. simplify_eq. simpl.
  destruct (String.eqb n name); [simplify_eq; by exists t|].
  by apply IH.
Qed.

Lemma values_app (h ext : list tensor) (ps : list (string * nat))
    (m : named_parameters) :
  values h ps = Some m -> values (h ++ ext) ps = Some m.
Proof.
  revert m. induction ps as [|[name l] ps IH]; intros m Hm; simpl in *.
  { done. }
  destruct (h !! l) as [t|] eqn:Hl; [|done].
  destruct (values h ps) as [r|] eqn:Hr; [|done]. simplify_eq.
  rewrite (lookup_app_l_Some _ _ _ _ Hl), (IH r eq_refl). done.
Qed.

(** *** In-place updates touch the parameters' tensors only *)

Lemma update_in_place_length (f : string -> tensor -> tensor)
    (ps : list (string * nat)) (h : list tensor) :
  length (update_in_place f h ps) = length h.
Proof.
  unfold update_in_place. revert h.
  induction ps as [|[name l] ps IH]; intros h; simpl; [done|].
  rewrite IH. destruct (h !! l); [by rewrite length_insert|done].
Qed.

Lemma update_in_place_other (f : string -> tensor -> tensor)
    (ps : list (string * nat)) (h : list tensor) (l : nat) :
  l ∉ ps.*2 -> update_in_place f h ps !! l = h !! l.
Proof.
  unfold update_in_place. revert h.
  induction ps as [|[name l0] ps IH]; intros h Hl; simpl; [done|].
  simpl in Hl. apply not_elem_of_cons in Hl as [Hne Hl].
  rewrite IH by done. destruct (h !! l0); [|done].
  by rewrite list_lookup_insert_ne.
Qed.

(** *** The deep copy *)

Lemma deepcopy_spec (ps : list (string * nat)) :
  forall (h h' : list tensor) (d : list (string * nat)) (m : named_parameters),
    values h ps = Some m ->
    deepcopy h ps = Some (h', d) ->
    (exists ext, h' = h ++ ext) /\
    d.*2 = seq (length h) (length ps) /\
    length h' = length h + length ps /\
    values h' d = Some m.
Proof.
  induction ps as [|[name l] ps IH]; intros h h' d m Hm Hd; simpl in *.
  { simplify_eq. split_and!; [by exists []; rewrite app_nil_r|done|lia|done]. }
  destruct (h !! l) as [t|] eqn:Hl; [|done].
  destruct (values h ps) as [r|] eqn:Hr; [|done].
  destruct (deepcopy (h ++ [t]) ps) as [[h1 d1]|] eqn:Hrec; [|done].
  simplify_eq.
  destruct (IH (h ++ [t]) h' d1 r (values_app _ _ _ _ Hr) Hrec)
    as ([ext ->] & Hlocs & Hlen & Hval).
  rewrite !length_app in Hlocs, Hlen. simpl in Hlocs, Hlen.
  split_and!.
  - exists ([t] ++ ext). by rewrite app_assoc.
  - rewrite fmap_cons. cbn [snd length seq]. f_equal.
    rewrite Hlocs. f_equal. lia.
  - rewrite !length_app in *. cbn [length] in *. lia.
  - simpl. rewrite Hval.
    rewrite <- app_assoc. rewrite lookup_app_r by lia.
    by rewrite Nat.sub_diag.
Qed.

(** *** The loop of [reset_initialization], parameter by parameter *)

Lemma reset_loop_spec (d : list (string * nat)) (reinit : bool)
    (mask : list tensor) (ps : list (string * nat)) :
  forall (h : list tensor) (step : nat) (h' : list tensor)
         (ps' : list (string * nat)),
    valid h ps -> (reinit = false -> valid h d) ->
    reset_loop d reinit mask h ps step = Some (h', ps') ->
    (exists ext, h' = h ++ ext) /\
    valid h' ps' /\
    ps'.*1 = ps.*1 /\
    forall (j : nat) (name : string) (l : nat),
      ps !! j = Some (name, l) ->
      exists init l',
        ps' !! j = Some (name, l') /\
        (if reinit then Some l else dict_get d name) = Some init /\
        if prunable cfg name
        then exists m t data',
            mask !! (step + steps (take j ps).*1) = Some m /\
            h !! init = Some t /\ mul m t = Some data' /\
            h' !! l' = Some data' /\ length h <= l'
        else if contains "bias" name || contains "weight" name
             then l' = init
             else l' = l.
Proof.
  induction ps as [|[name l] rest IH]; intros h step h' ps' Hvp Hvd Hr;
    simpl in Hr.
  { simplify_eq. split_and!; [by exists []; rewrite app_nil_r|constructor|done|].
    intros j ? ? Hj. by rewrite lookup_nil in Hj. }
  apply Forall_cons in Hvp as [Hl Hvrest]. simpl in Hl.
  destruct (if reinit then Some l else dict_get d name) as [init|] eqn:Hinit;
    [|done].
  assert (init < length h) as Hinit_valid.
  { destruct reinit; [by simplify_eq|].
    eapply valid_elem; [exact (Hvd eq_refl)|]. by apply dict_get_elem. }
  destruct (prunable cfg name) eqn:Hp.
  - destruct (mask !! step) as [m|] eqn:Hm; [|done].
    destruct (h !! init) as [t|] eqn:Ht; [|done].
    destruct (mul m t) as [data'|] eqn:Hmul; [|done].
    destruct (reset_loop _ _ _ (h ++ [data']) rest _) as [[h1 rest']|] eqn:Hrec;
      [|done].
    simplify_eq.
    destruct (IH _ _ _ _ (valid_app _ [data'] _ Hvrest)
                (fun Hf => valid_app _ [data'] _ (Hvd Hf)) Hrec)
      as ([ext ->] & Hv' & Hnames & Hlook).
    assert ((h ++ [data'] ++ ext) !! length h = Some data') as Hnew.
    { rewrite lookup_app_r by lia. by rewrite Nat.sub_diag. }
    rewrite <- app_assoc in *.
    split_and!.
    + by exists ([data'] ++ ext).
    + constructor; [|done]. simpl. eapply lookup_lt_Some. exact Hnew.
    + rewrite !fmap_cons. by f_equal.
    + intros [|j] name' l0 Hj; simpl in Hj.
      * simplify_eq. exists init, (length h). rewrite Hp.
        split_and!; [done..|]. exists m, t, data'. simpl.
        rewrite Nat.add_0_r. split_and!; done.
      * destruct (Hlook j name' l0 Hj) as (init' & l' & Hj' & Hi' & Hcase).
        exists init', l'. split_and!; [done..|].
        destruct (prunable cfg name'); [|done].
        destruct Hcase as (m' & t' & d' & Hm' & Ht' & Hmul' & Hl' & Hge).
        exists m', t', d'.
        change (take (S j) ((name, l) :: rest)) with ((name, l) :: take j rest).
        rewrite fmap_cons. cbn [steps fst]. rewrite Hp.
        replace (step + (1 + steps (take j rest).*1))
          with (S step + steps (take j rest).*1) by lia.
        rewrite length_app in Hge. simpl in Hge.
        split_and!; [done| |done|done|lia].
        apply lookup_app_Some in Ht' as [Ht'|[Hge' Ht']]; [done|].
        exfalso.
        assert (init' < length h); [|lia].
        destruct reinit.
        -- simplify_eq. eapply valid_elem; [exact Hvrest|].
           by eapply list_elem_of_lookup_2.
        -- eapply valid_elem; [exact (Hvd eq_refl)|]. by apply dict_get_elem.
  - destruct (reset_loop _ _ _ h rest _) as [[h1 rest']|] eqn:Hrec; [|done].
    destruct (IH _ _ _ _ Hvrest Hvd Hrec) as ([ext Hext] & Hv' & Hnames & Hlook).
    assert (exists l', ps' = (name, l') :: rest' /\ h' = h1 /\
                       if contains "bias" name || contains "weight" name
                       then l' = init else l' = l) as (l' & -> & -> & Hl').
    { destruct (_ || _); simplify_eq; by eexists. }
    split_and!.
    + by exists ext.
    + constructor; [|done]. simpl. subst h1. rewrite length_app.
      destruct (_ || _); subst; lia.
    + rewrite !fmap_cons. by f_equal.
    + intros [|j] name' l0 Hj; simpl in Hj.
      * simplify_eq. exists init, l'. rewrite Hp. done.
      * destruct (Hlook j name' l0 Hj) as (init' & l'' & Hj' & Hi' & Hcase).
        exists init', l''. split_and!; [done..|].
        change (take (S j) ((name, l) :: rest)) with ((name, l) :: take j rest).
        rewrite fmap_cons. cbn [steps fst]. rewrite Hp. done.
Qed.


(** *** What every run keeps true of the saved state *)

(** [m0] holds the values of the model at construction.  The saved tensors
    are distinct objects; a parameter that is one of them is a
    non-prunable parameter sharing the entry of its own name; and a saved
    tensor that no parameter shares still has its value of [m0]. *)
Definition saved (m0 : named_parameters) (st : pruner) : Prop :=
  valid (store st) (parameters st) /\
  valid (store st) (initial_state_dict st) /\
  NoDup (initial_state_dict st).*2 /\
  (parameters st).*1 = m0.*1 /\
  (forall name l,
      (name, l) ∈ parameters st -> l ∈ (initial_state_dict st).*2 ->
      prunable cfg name = false /\
      dict_get (initial_state_dict st) name = Some l) /\
  (forall name ld,
      dict_get (initial_state_dict st) name = Some ld ->
      ld ∉ (parameters st).*2 ->
      exists init, state_dict_get m0 name = Some init /\
                   store st !! ld = Some init).

(** No parameter shares a saved tensor. *)
Definition separate (st : pruner) : Prop :=
  forall l, l ∈ (parameters st).*2 -> l ∉ (initial_state_dict st).*2.

Lemma elem_of_snd (ps : list (string * nat)) (name : string) (l : nat) :
  (name, l) ∈ ps -> l ∈ ps.*2.
Proof. intros Hin. apply list_elem_of_fmap. by exists (name, l). Qed.

Lemma snd_elem_of (ps : list (string * nat)) (l : nat) :
  l ∈ ps.*2 -> exists name, (name, l) ∈ ps.
Proof.
  intros ([name l'] & -> & Hin)%list_elem_of_fmap. by exists name.
Qed.

Lemma NoDup_snd_name (d : list (string * nat)) (n n' : string) (l : nat) :
  NoDup d.*2 -> (n, l) ∈ d -> (n', l) ∈ d -> n = n'.
Proof.
  induction d as [|[n0 l0] d IH]; intros Hnd H1 H2.
  { by apply elem_of_nil in H1. }
  rewrite fmap_cons in Hnd. apply NoDup_cons in Hnd as [Hnotin Hnd].
  apply elem_of_cons in H1 as [H1|H1], H2 as [H2|H2]; simplify_eq; try done.
  - exfalso. apply Hnotin. by eapply elem_of_snd.
  - exfalso. apply Hnotin. by eapply elem_of_snd.
  - by apply IH.
Qed.

(** The saved tensor of a prunable name is shared by no parameter. *)
Lemma saved_prunable_unshared (m0 : named_parameters) (st : pruner)
    (name : string) (ld : nat) :
  saved m0 st -> prunable cfg name = true ->
  dict_get (initial_state_dict st) name = Some ld ->
  ld ∉ (parameters st).*2.
Proof.
  intros (_ & _ & Hnd & _ & Hshare & _) Hp Hd Hin.
  apply snd_elem_of in Hin as [n' Hin].
  apply dict_get_elem in Hd as Hd'.
  destruct (Hshare n' ld Hin (elem_of_snd _ _ _ Hd')) as [Hnp Hd''].
  apply dict_get_elem in Hd''.
  rewrite (NoDup_snd_name _ _ _ _ Hnd Hd' Hd'') in Hp. congruence.
Qed.

Lemma init_saved (h : list tensor) (ps : list (string * nat))
    (m0 : named_parameters) (st0 : pruner) :
  values h ps = Some m0 -> init h ps = Some st0 ->
  saved m0 st0 /\ separate st0.
Proof.
  unfold init. intros Hm Hi. rewrite Hm in Hi.
  destruct (deepcopy h ps) as [[h' d]|] eqn:Hd; [|done]. simplify_eq.
  destruct (deepcopy_spec _ _ _ _ _ Hm Hd) as ([ext ->] & Hlocs & Hlen & Hval).
  pose proof (values_valid _ _ _ Hm) as Hvp.
  assert (forall l, l ∈ ps.*2 -> l ∉ d.*2) as Hsep.
  { intros l [name Hin]%snd_elem_of. rewrite Hlocs, elem_of_seq.
    pose proof (valid_elem _ _ _ _ Hvp Hin). lia. }
  split; [|exact Hsep]. unfold saved. simpl. split_and!.
  - by apply valid_app.
  - by eapply values_valid.
  - rewrite Hlocs. apply NoDup_seq.
  - symmetry. by eapply values_names.
  - intros name l Hin Hl. exfalso. eapply Hsep; [|exact Hl]. by eapply elem_of_snd.
  - intros name ld Hget _.
    destruct (values_dict_get _ _ _ _ _ Hval Hget) as (t & Ht & Hs). by exists t.
Qed.

Lemma train_saved (m0 : named_parameters) (f : string -> tensor -> tensor)
    (st st' : pruner) :
  step_op (Train f) st = Some st' ->
  (saved m0 st -> saved m0 st') /\ (separate st -> separate st').
Proof.
  intros [= <-]. split; [|done].
  intros (Hvp & Hvd & Hnd & Hnames & Hshare & Hvals).
  unfold saved, valid. simpl. rewrite update_in_place_length.
  split_and!; try done.
  intros name ld Hget Hnot. rewrite update_in_place_other by done.
  by apply Hvals.
Qed.

(** What [rebind_pruned] does to the bindings. *)
Lemma rebind_pruned_spec (ps : list (string * nat)) :
  forall (h : list tensor) (model' : named_parameters) (h' : list tensor)
         (ps' : list (string * nat)),
    length model' = length ps -> valid h ps ->
    rebind_pruned h ps model' = (h', ps') ->
    (exists ext, h' = h ++ ext) /\
    valid h' ps' /\
    ps'.*1 = ps.*1 /\
    (forall name l', (name, l') ∈ ps' ->
                     (prunable cfg name = false /\ (name, l') ∈ ps) \/
                     length h <= l') /\
    (forall name l, (name, l) ∈ ps -> prunable cfg name = false ->
                    (name, l) ∈ ps').
Proof.
  induction ps as [|[name l] rest IH]; intros h model' h' ps' Hlen Hv Hr.
  { destruct model'; [|done]. simpl in Hr. simplify_eq.
    split_and!; [by exists []; rewrite app_nil_r|constructor|done| |done].
    intros ? ? Hin. by apply elem_of_nil in Hin. }
  destruct model' as [|[n' data'] model']; [done|]. simpl in Hr, Hlen.
  apply Forall_cons in Hv as [Hl Hv]. simpl in Hl.
  destruct (prunable cfg name) eqn:Hp.
  - destruct (rebind_pruned (h ++ [data']) rest model') as [h1 r] eqn:Hrec.
    simplify_eq.
    destruct (IH _ _ _ _ Hlen (valid_app _ [data'] _ Hv) Hrec)
      as ([ext ->] & Hv' & Hnames & Hfrom & Hkeep).
    rewrite length_app in Hfrom. simpl in Hfrom.
    rewrite <- app_assoc. split_and!.
    + by exists ([data'] ++ ext).
    + constructor; [|by rewrite <- app_assoc in Hv'].
      simpl. rewrite !length_app. simpl. lia.
    + rewrite !fmap_cons. by f_equal.
    + intros n l' [Heq|Hin]%elem_of_cons.
      * simplify_eq. by right.
      * destruct (Hfrom n l' Hin) as [[Hnp Hin']|Hge].
        -- left. split; [done|]. apply elem_of_cons. by right.
        -- right. lia.
    + intros n l0 [Heq|Hin]%elem_of_cons Hnp.
      * simplify_eq. congruence.
      * apply elem_of_cons. right. by apply Hkeep.
  - destruct (rebind_pruned h rest model') as [h1 r] eqn:Hrec.
    simplify_eq.
    destruct (IH _ _ _ _ Hlen Hv Hrec)
      as ([ext ->] & Hv' & Hnames & Hfrom & Hkeep).
    split_and!.
    + by exists ext.
    + constructor; [|done]. simpl. rewrite length_app. lia.
    + rewrite !fmap_cons. by f_equal.
    + intros n l' [Heq|Hin]%elem_of_cons.
      * simplify_eq. left. split; [done|]. apply elem_of_cons. by left.
      * destruct (Hfrom n l' Hin) as [[Hnp Hin']|Hge].
        -- left. split; [done|]. apply elem_of_cons. by right.
        -- by right.
    + intros n l0 [Heq|Hin]%elem_of_cons Hnp.
      * simplify_eq. apply elem_of_cons. by left.
      * apply elem_of_cons. right. by apply Hkeep.
Qed.

Lemma prune_by_percentile_names (model : named_parameters)
    (mask : list tensor) (percent : Q) (model' : named_parameters)
    (mask' : list tensor) :
  LotteryTicket.prune_by_percentile cfg percentile model mask percent
  = Some (model', mask') ->
  model'.*1 = model.*1.
Proof.
  unfold LotteryTicket.prune_by_percentile. intros Hp.
  assert (exists g, prune_loop cfg percentile g percent model 0 mask
                    = Some (model', mask')) as [g Hloop].
  { destruct (global_pruning cfg); [|by eexists].
    destruct (global_percentile _ _ _ _ _); [by eexists|done]. }
  by destruct (prune_loop_lookup _ _ _ _ _ _ _ _ _ Hloop) as (_ & _ & Hnames & _).
Qed.

Lemma prune_saved (m0 : named_parameters) (percent : Q) (st st' : pruner) :
  step_op (Prune percent) st = Some st' ->
  (saved m0 st -> saved m0 st') /\
  (saved m0 st -> separate st -> separate st').
Proof.
  simpl. unfold prune_by_percentile. intros Hp.
  destruct (values (store st) (parameters st)) as [model|] eqn:Hm; [|done].
  destruct (LotteryTicket.prune_by_percentile _ _ _ _ _)
    as [[model' mask']|] eqn:Hprune; [|done].
  destruct (rebind_pruned (store st) (parameters st) model')
    as [h' ps'] eqn:Hrb.
  simplify_eq.
  assert (length model' = length (parameters st)) as Hlen.
  { apply prune_by_percentile_names in Hprune.
    apply values_names in Hm.
    rewrite <- (length_fmap fst model'), Hprune, Hm. apply length_fmap. }
  assert (forall m1, saved m1 st ->
            (exists ext, h' = store st ++ ext) /\
            valid h' ps' /\ ps'.*1 = (parameters st).*1 /\
            (forall name l', (name, l') ∈ ps' ->
               (prunable cfg name = false /\ (name, l') ∈ parameters st) \/
               length (store st) <= l') /\
            (forall name l, (name, l) ∈ parameters st ->
               prunable cfg name = false -> (name, l) ∈ ps')) as Hspec.
  { intros m1 (Hvp & _). by eapply rebind_pruned_spec. }
  split.
  - intros Hs. destruct (Hspec m0 Hs) as ([ext ->] & Hv' & Hnames & Hfrom & Hkeep).
    destruct Hs as (Hvp & Hvd & Hnd & Hn0 & Hshare & Hvals).
    unfold saved. simpl. split_and!; try done.
    + by apply valid_app.
    + congruence.
    + intros name l' Hin Hl'.
      destruct (Hfrom name l' Hin) as [[Hnp Hin']|Hge]; [by apply Hshare|].
      exfalso. apply snd_elem_of in Hl' as [n Hd].
      pose proof (valid_elem _ _ _ _ Hvd Hd). lia.
    + intros name ld Hget Hnot.
      destruct (Hvals name ld Hget) as (t & Hs0 & Ht).
      { intros [n Hin]%snd_elem_of. apply Hnot.
        apply dict_get_elem in Hget as Hd.
        destruct (Hshare n ld Hin (elem_of_snd _ _ _ Hd)) as [Hnp _].
        eapply elem_of_snd. by apply Hkeep. }
      exists t. split; [done|]. by apply lookup_app_l_Some.
  - intros Hs Hsep l [name Hin]%snd_elem_of.
    destruct (Hspec m0 Hs) as ([ext ->] & Hv' & Hnames & Hfrom & Hkeep).
    simpl. destruct (Hfrom name l Hin) as [[Hnp Hin']|Hge].
    + apply Hsep. by eapply elem_of_snd.
    + destruct Hs as (_ & Hvd & _).
      intros [n Hd]%snd_elem_of.
      pose proof (valid_elem _ _ _ _ Hvd Hd). lia.
Qed.

(** A reset without [reinit], from a state of a run. *)
Lemma reset_spec (m0 : named_parameters) (st st' : pruner) :
  saved m0 st ->
  reset_initialization false st = Some st' ->
  initial_state_dict st' = initial_state_dict st /\
  mask st' = mask st /\
  (exists ext, store st' = store st ++ ext) /\
  valid (store st') (parameters st') /\
  (parameters st').*1 = (parameters st).*1 /\
  forall (j : nat) (name : string) (l : nat),
    parameters st !! j = Some (name, l) ->
    exists init l',
      parameters st' !! j = Some (name, l') /\
      dict_get (initial_state_dict st) name = Some init /\
      if prunable cfg name
      then exists m t data',
          mask st !! steps (take j (parameters st)).*1 = Some m /\
          state_dict_get m0 name = Some t /\ mul m t = Some data' /\
          store st' !! l' = Some data' /\ length (store st) <= l'
      else if contains "bias" name || contains "weight" name
           then l' = init
           else l' = l.
Proof.
  intros Hs Hr. unfold reset_initialization in Hr.
  destruct (reset_loop _ _ _ _ _ _) as [[h' ps']|] eqn:Hloop; [|done].
  simplify_eq. simpl.
  pose proof Hs as (Hvp & Hvd & _).
  destruct (reset_loop_spec _ _ _ _ _ _ _ _ Hvp (fun _ => Hvd) Hloop)
    as (Hext & Hv' & Hnames & Hlook).
  split_and!; try done.
  intros j name l Hj.
  destruct (Hlook j name l Hj) as (init & l' & Hj' & Hinit & Hcase).
  exists init, l'. split_and!; try done.
  destruct (prunable cfg name) eqn:Hp; [|done].
  destruct Hcase as (m & t & data' & Hm & Ht & Hmul & Hl' & Hge).
  exists m, t, data'. split_and!; try done.
  pose proof Hs as (_ & _ & _ & _ & _ & Hvals).
  destruct (Hvals name init Hinit) as (t0 & Hs0 & Ht0).
  { by eapply saved_prunable_unshared. }
  congruence.
Qed.

Lemma reset_saved (m0 : named_parameters) (st st' : pruner) :
  saved m0 st ->
  step_op Reset st = Some st' ->
  saved m0 st'.
Proof.
  simpl. intros Hs Hr.
  destruct (reset_spec _ _ _ Hs Hr)
    as (Hd & Hmask & [ext Hext] & Hv' & Hnames & Hlook).
  destruct Hs as (Hvp & Hvd & Hnd & Hn0 & Hshare & Hvals).
  assert (forall name l', (name, l') ∈ parameters st' ->
            exists j l, parameters st !! j = Some (name, l) /\
                        parameters st' !! j = Some (name, l')) as Hback.
  { intros name l' [j Hj']%list_elem_of_lookup_1.
    destruct (lookup_lt_is_Some_2 (parameters st) j) as [[n l] Hj].
    { rewrite <- (length_fmap fst (parameters st)), <- Hnames, length_fmap.
      by eapply lookup_lt_Some. }
    destruct (Hlook j n l Hj) as (init & l'' & Hj'' & _).
    rewrite Hj' in Hj''. simplify_eq. by exists j, l. }
  unfold saved. rewrite Hd, Hext. split_and!; try done.
  - by rewrite <- Hext.
  - by apply valid_app.
  - congruence.
  - intros name l' Hin Hl'.
    destruct (Hback name l' Hin) as (j & l & Hj & Hj').
    destruct (Hlook j name l Hj) as (init & l'' & Hj'' & Hinit & Hcase).
    rewrite Hj' in Hj''. simplify_eq.
    destruct (prunable cfg name) eqn:Hp.
    + exfalso. destruct Hcase as (_ & _ & _ & _ & _ & _ & _ & Hge).
      apply snd_elem_of in Hl' as [n Hin'].
      pose proof (valid_elem _ _ _ _ Hvd Hin'). lia.
    + split; [done|]. destruct (_ || _); subst; [done|].
      apply Hshare; [|done]. by eapply list_elem_of_lookup_2.
  - intros name ld Hget Hnot.
    destruct (Hvals name ld Hget) as (t & Hs0 & Ht).
    { intros [n Hin]%snd_elem_of. apply Hnot.
      apply list_elem_of_lookup_1 in Hin as [j Hj].
      apply dict_get_elem in Hget as Hdget.
      destruct (Hshare n ld (list_elem_of_lookup_2 _ _ _ Hj)
                  (elem_of_snd _ _ _ Hdget)) as [Hnp Hdn].
      destruct (Hlook j n ld Hj) as (init & l' & Hj' & Hinit & Hcase).
      rewrite Hnp in Hcase.
      assert (l' = ld) as ->.
      { destruct (_ || _); [congruence|done]. }
      eapply elem_of_snd. by eapply list_elem_of_lookup_2. }
    exists t. split; [done|]. by apply lookup_app_l_Some.
Qed.

Lemma run_saved (m0 : named_parameters) (ops : list op) :
  forall st st' : pruner,
    saved m0 st ->
    run ops st = Some st' ->
    saved m0 st' /\
    (Forall (fun o => is_reset o = false) ops -> separate st -> separate st').
Proof.
  induction ops as [|o ops IH]; intros st st' Hs Hrun; simpl in Hrun.
  { by simplify_eq. }
  destruct (step_op o st) as [st1|] eqn:Hstep;
    [|done].
  assert (saved m0 st1 /\ (is_reset o = false -> separate st -> separate st1))
    as [Hs1 Hsep1].
  { destruct o as [f|percent|].
    - destruct (train_saved m0 _ _ _ Hstep). split; auto.
    - destruct (prune_saved m0 _ _ _ Hstep). split; auto.
    - split; [by eapply reset_saved|done]. }
  destruct (IH st1 st' Hs1 Hrun) as [Hs' Hsep'].
  split; [done|].
  intros [Ho Hops]%Forall_cons Hsep. apply Hsep'; [done|]. by apply Hsep1.
Qed.


(** *** One call, read as values

    When a call without [reinit] returns, the values of the parameters are
    those [LotteryTicket.reset_initialization] computes from the values the
    model and the saved dict hold at the time of the call. *)
Lemma reset_loop_values (d : list (string * nat)) (mask : list tensor)
    (ps : list (string * nat)) :
  forall (h : list tensor) (step : nat) (h' : list tensor)
         (ps' : list (string * nat)) (dv m : named_parameters),
    values h d = Some dv -> values h ps = Some m ->
    reset_loop d false mask h ps step = Some (h', ps') ->
    exists m',
      values h' ps' = Some m' /\
      LotteryTicket.reset_loop cfg dv false mask m step = Some m'.
Proof.
  induction ps as [|[name l] rest IH]; intros h step h' ps' dv m Hdv Hm Hr.
  { simpl in *. simplify_eq. by exists []. }
  pose proof (values_valid _ _ _ Hm) as Hvp.
  pose proof (values_valid _ _ _ Hdv) as Hvd.
  pose proof (reset_loop_spec _ _ _ _ _ _ _ _ Hvp (fun _ => Hvd) Hr)
    as ([ext0 Hext0] & _).
  simpl in Hm, Hr.
  destruct (h !! l) as [t|] eqn:Hl; [|done].
  destruct (values h rest) as [mr|] eqn:Hmr; [|done]. simplify_eq.
  destruct (dict_get d name) as [init|] eqn:Hinit; [|done].
  destruct (values_dict_get _ _ _ _ _ Hdv Hinit) as (tv & Htv & Hsv).
  cbn [LotteryTicket.reset_loop]. rewrite Hsv.
  destruct (prunable cfg name) eqn:Hp.
  - destruct (mask !! step) as [mk|] eqn:Hmk; [|done].
    rewrite Htv in Hr.
    destruct (mul mk tv) as [data'|] eqn:Hmul; [|done].
    destruct (reset_loop _ _ _ (h ++ [data']) rest _) as [[h1 rest']|] eqn:Hrec;
      [|done].
    simplify_eq.
    destruct (IH _ _ _ _ dv mr (values_app _ [data'] _ _ Hdv)
                (values_app _ [data'] _ _ Hmr) Hrec) as (mr' & Hv' & Hold).
    pose proof (values_valid _ _ _ (values_app _ [data'] _ _ Hmr)) as Hvr.
    pose proof (reset_loop_spec _ _ _ _ _ _ _ _ Hvr
                  (fun _ => valid_app _ [data'] _ Hvd) Hrec) as ([ext Hext] & _).
    exists ((name, data') :: mr'). split.
    + simpl. rewrite Hv'. rewrite Hext, <- app_assoc.
      rewrite lookup_app_r by lia. by rewrite Nat.sub_diag.
    + simpl. rewrite Hmul. simpl. by rewrite Hold.
  - destruct (reset_loop _ _ _ h rest _) as [[h1 rest']|] eqn:Hrec; [|done].
    destruct (IH _ _ _ _ dv mr Hdv Hmr Hrec) as (mr' & Hv' & Hold).
    rewrite Hold.
    destruct (contains "bias" name || contains "weight" name); simplify_eq.
    + exists ((name, tv) :: mr'). split; [|done]. simpl.
      by rewrite Hv', (lookup_app_l_Some _ _ _ _ Htv).
    + exists ((name, t) :: mr'). split; [|done]. simpl.
      by rewrite Hv', (lookup_app_l_Some _ _ _ _ Hl).
Qed.

Lemma reset_initialization_values
    (wr : named_parameters -> named_parameters) (st st' : pruner)
    (dv m : named_parameters) :
  values (store st) (initial_state_dict st) = Some dv ->
  values (store st) (parameters st) = Some m ->
  reset_initialization false st = Some st' ->
  exists m',
    values (store st') (parameters st') = Some m' /\
    LotteryTicket.reset_initialization cfg wr dv (mask st) m false = Some m'.
Proof.
  intros Hdv Hm Hr. unfold reset_initialization in Hr.
  destruct (reset_loop _ _ _ _ _ _) as [[h' ps']|] eqn:Hloop; [|done].
  simplify_eq. simpl. unfold LotteryTicket.reset_initialization.
  by eapply reset_loop_values.
Qed.

(** *** A parameter that is a saved tensor stays one *)

Lemma rebind_pruned_lookup (ps : list (string * nat)) :
  forall (h : list tensor) (model' : named_parameters) (h' : list tensor)
         (ps' : list (string * nat)) (j : nat) (name : string) (l : nat),
    length model' = length ps ->
    rebind_pruned h ps model' = (h', ps') ->
    ps !! j = Some (name, l) -> prunable cfg name = false ->
    ps' !! j = Some (name, l).
Proof.
  induction ps as [|[n l0] rest IH]; intros h model' h' ps' j name l Hlen Hr Hj Hp.
  { by rewrite lookup_nil in Hj. }
  destruct model' as [|[n' data'] model']; [done|]. simpl in Hr, Hlen.
  assert (length model' = length rest) as Hlen' by lia.
  destruct (prunable cfg n) eqn:Hpn.
  - destruct (rebind_pruned (h ++ [data']) rest model') as [h1 r] eqn:Hrec.
    simplify_eq. destruct j as [|j]; simpl in Hj; [simplify_eq; congruence|].
    simpl. by eapply IH.
  - destruct (rebind_pruned h rest model') as [h1 r] eqn:Hrec.
    simplify_eq. destruct j as [|j]; simpl in Hj; [by simplify_eq|].
    simpl. by eapply IH.
Qed.

(** The parameter at position [j] is the saved tensor of its name. *)
Definition shares (st : pruner) (j : nat) (name : string) (l : nat) : Prop :=
  parameters st !! j = Some (name, l) /\
  dict_get (initial_state_dict st) name = Some l.

Lemma step_shares (m0 : named_parameters) (o : op) (st st' : pruner)
    (j : nat) (name : string) (l : nat) :
  saved m0 st ->
  prunable cfg name = false ->
  contains "bias" name || contains "weight" name = true ->
  step_op o st = Some st' ->
  shares st j name l -> shares st' j name l.
Proof.
  intros Hs Hp Hbw Hstep [Hj Hd]. destruct o as [f|percent|]; simpl in Hstep.
  - by simplify_eq.
  - unfold prune_by_percentile in Hstep.
    destruct (values (store st) (parameters st)) as [model|] eqn:Hm; [|done].
    destruct (LotteryTicket.prune_by_percentile _ _ _ _ _)
      as [[model' mask']|] eqn:Hprune; [|done].
    destruct (rebind_pruned (store st) (parameters st) model')
      as [h' ps'] eqn:Hrb.
    simplify_eq. split; [|done]. simpl.
    eapply rebind_pruned_lookup; [|exact Hrb|done..].
    apply prune_by_percentile_names in Hprune.
    apply values_names in Hm.
    rewrite <- (length_fmap fst model'), Hprune, Hm. apply length_fmap.
  - destruct (reset_spec _ _ _ Hs Hstep) as (Hd' & _ & _ & _ & _ & Hlook).
    destruct (Hlook j name l Hj) as (init & l' & Hj' & Hget & Hcase).
    rewrite Hp, Hbw in Hcase. subst l'. rewrite Hd in Hget. simplify_eq.
    split; [done|]. by rewrite Hd'.
Qed.

Lemma run_shares (m0 : named_parameters) (ops : list op) (j : nat)
    (name : string) (l : nat) :
  prunable cfg name = false ->
  contains "bias" name || contains "weight" name = true ->
  forall st st' : pruner,
    saved m0 st -> run ops st = Some st' ->
    shares st j name l -> shares st' j name l.
Proof.
  intros Hp Hbw. induction ops as [|o ops IH]; intros st st' Hs Hrun Hsh;
    simpl in Hrun.
  { by simplify_eq. }
  destruct (step_op o st) as [st1|] eqn:Hstep; [|done].
  apply (IH st1 st'); [|done|by eapply step_shares].
  destruct (run_saved m0 [o] st st1 Hs) as [Hs1 _]; [|done].
  simpl. by rewrite Hstep.
Qed.

Lemma take_names (j : nat) (ps : list (string * nat)) (m0 : named_parameters) :
  ps.*1 = m0.*1 -> steps (take j ps).*1 = prunable_count cfg (take j m0).
Proof.
  intros Hn. by rewrite prunable_count_steps, !fmap_take, Hn.
Qed.

End Store.

(** C6 (amended).  Let [m0] be the values of the model when the pruner was
    constructed and saved its deep copy of them, and let the model then be
    trained in place and pruned, and reset, any number of times.  A call
    of [reset_initialization] without [reinit] keeps the parameters' names
    and order and sets every prunable parameter to [mask[step]] times its
    value in [m0]; at the first reset every non-prunable parameter whose
    name contains "bias" or "weight" (the readout's among them) has its
    value of [m0] again; a parameter whose name contains neither is left
    as it is.  With [reinit], where [model.apply(weight_reset)] has just
    given the parameters new values in place, a prunable parameter is
    [mask[step]] times its new value and every other parameter keeps its
    new value. *)
Theorem reset_restores_saved_values (cfg : config)
    (percentile : list Q -> Q -> option threshold)
    (weight_reset : string -> tensor -> tensor)
    (h : list tensor) (ps : list (string * nat)) (m0 : named_parameters)
    (st0 : pruner) (ops : list op) (st : pruner) :
  values h ps = Some m0 ->
  init cfg h ps = Some st0 ->
  run cfg percentile weight_reset ops st0 = Some st ->
  (forall st' : pruner,
      reset_initialization cfg weight_reset false st = Some st' ->
      (parameters st').*1 = m0.*1 /\
      forall (j : nat) (name : string) (l : nat),
        parameters st !! j = Some (name, l) ->
        exists l',
          parameters st' !! j = Some (name, l') /\
          if prunable cfg name
          then exists m init data',
              mask st !! prunable_count cfg (take j m0) = Some m /\
              state_dict_get m0 name = Some init /\
              mul m init = Some data' /\
              store st' !! l' = Some data'
          else if contains "bias" name || contains "weight" name
               then Forall (fun o => is_reset o = false) ops ->
                    exists init,
                      state_dict_get m0 name = Some init /\
                      store st' !! l' = Some init
               else l' = l /\ store st' !! l' = store st !! l) /\
  (forall st' : pruner,
      reset_initialization cfg weight_reset true st = Some st' ->
      (parameters st').*1 = m0.*1 /\
      forall (j : nat) (name : string) (l : nat),
        parameters st !! j = Some (name, l) ->
        exists init l',
          update_in_place weight_reset (store st) (parameters st) !! l
          = Some init /\
          parameters st' !! j = Some (name, l') /\
          if prunable cfg name
          then exists m data',
              mask st !! prunable_count cfg (take j m0) = Some m /\
              mul m init = Some data' /\
              store st' !! l' = Some data'
          else l' = l /\ store st' !! l' = Some init).
Proof.
  intros Hm0 Hinit Hrun.
  destruct (init_saved cfg _ _ _ _ Hm0 Hinit) as [Hs0 Hsep0].
  destruct (run_saved cfg percentile weight_reset m0 ops _ _ Hs0 Hrun)
    as [Hs Hsep].
  pose proof Hs as (Hvp & Hvd & Hnd & Hnames & Hshare & Hvals).
  split.
  - intros st' Hr.
    destruct (reset_spec cfg weight_reset _ _ _ Hs Hr)
      as (Hd & Hmask & [ext Hext] & Hv' & Hnames' & Hlook).
    split; [congruence|]. intros j name l Hj.
    destruct (Hlook j name l Hj) as (init & l' & Hj' & Hget & Hcase).
    exists l'. split; [done|].
    destruct (prunable cfg name) eqn:Hp.
    + destruct Hcase as (m & t & data' & Hmk & Ht & Hmul & Hl' & _).
      exists m, t, data'. split_and!; try done.
      by rewrite <- (take_names cfg j (parameters st)).
    + destruct (contains "bias" name || contains "weight" name); subst.
      * intros Hfirst.
        destruct (Hvals name init Hget) as (t & Ht0 & Ht).
        { intros Hin. eapply (Hsep Hfirst Hsep0); [exact Hin|].
          eapply elem_of_snd. by apply dict_get_elem. }
        exists t. split; [done|]. rewrite Hext. by apply lookup_app_l_Some.
      * split; [done|]. rewrite Hext. apply lookup_app_l.
        eapply valid_elem; [exact Hvp|]. by eapply list_elem_of_lookup_2.
  - intros st' Hr. unfold reset_initialization in Hr.
    destruct (reset_loop _ _ _ _ _ _ _) as [[h' ps']|] eqn:Hloop; [|done].
    simplify_eq. simpl.
    assert (valid (update_in_place weight_reset (store st) (parameters st))
              (parameters st)) as Hvp'.
    { unfold valid. by rewrite update_in_place_length. }
    destruct (reset_loop_spec cfg _ _ _ _ _ _ _ _ Hvp'
                (fun H : true = false => False_rect _ (diff_true_false H)) Hloop)
      as ([ext Hext] & Hv' & Hnames' & Hlook).
    split; [congruence|]. intros j name l Hj.
    destruct (Hlook j name l Hj) as (init & l' & Hj' & Hget & Hcase).
    simplify_eq.
    destruct (lookup_lt_is_Some_2
                (update_in_place weight_reset (store st) (parameters st)) init)
      as [t Ht].
    { eapply valid_elem; [exact Hvp'|]. by eapply list_elem_of_lookup_2. }
    exists t, l'. split_and!; try done.
    destruct (prunable cfg name) eqn:Hp.
    + destruct Hcase as (m & t' & data' & Hmk & Ht' & Hmul & Hl' & _).
      exists m, data'. rewrite Ht in Ht'. simplify_eq.
      split_and!; try done.
      by rewrite <- (take_names cfg j (parameters st)).
    + assert (l' = init) as ->.
      { by destruct (contains "bias" name || contains "weight" name). }
      split; [done|]. by apply lookup_app_l_Some.
Qed.


(** X22.  After a reset without [reinit], every non-prunable parameter
    whose name contains "bias" or "weight" is the saved tensor of its name
    ([param.data = init]), and it stays that tensor whatever follows
    (training in place, pruning, further resets): an in-place update of
    the parameter is an update of the saved entry, so every later reset
    leaves the parameter at its current value and does not reload the
    value of the construction. *)
Theorem later_resets_keep_current_values (cfg : config)
    (percentile : list Q -> Q -> option threshold)
    (weight_reset : string -> tensor -> tensor)
    (h : list tensor) (ps : list (string * nat)) (m0 : named_parameters)
    (st0 : pruner) (ops : list op) (st st1 : pruner) (ops' : list op)
    (st2 st3 : pruner) :
  values h ps = Some m0 ->
  init cfg h ps = Some st0 ->
  run cfg percentile weight_reset ops st0 = Some st ->
  reset_initialization cfg weight_reset false st = Some st1 ->
  run cfg percentile weight_reset ops' st1 = Some st2 ->
  reset_initialization cfg weight_reset false st2 = Some st3 ->
  (parameters st3).*1 = m0.*1 /\
  forall (j : nat) (name : string) (l : nat),
    parameters st1 !! j = Some (name, l) ->
    prunable cfg name = false ->
    contains "bias" name || contains "weight" name = true ->
    dict_get (initial_state_dict st1) name = Some l /\
    parameters st2 !! j = Some (name, l) /\
    dict_get (initial_state_dict st2) name = Some l /\
    parameters st3 !! j = Some (name, l) /\
    store st3 !! l = store st2 !! l.
Proof.
  intros Hm0 Hinit Hrun Hr1 Hrun' Hr3.
  destruct (init_saved cfg _ _ _ _ Hm0 Hinit) as [Hs0 _].
  destruct (run_saved cfg percentile weight_reset m0 ops _ _ Hs0 Hrun)
    as [Hs _].
  assert (saved cfg m0 st1) as Hs1.
  { by eapply (reset_saved cfg percentile weight_reset). }
  destruct (run_saved cfg percentile weight_reset m0 ops' _ _ Hs1 Hrun')
    as [Hs2 _].
  split.
  { assert (saved cfg m0 st3) as (_ & _ & _ & Hn3 & _); [|done].
    by eapply (reset_saved cfg percentile weight_reset). }
  intros j name l Hj1 Hp Hbw.
  assert (shares st1 j name l) as Hsh1.
  { destruct (reset_spec cfg weight_reset _ _ _ Hs Hr1)
      as (Hd & _ & _ & _ & Hnames & Hlook).
    destruct (lookup_lt_is_Some_2 (parameters st) j) as [[n l0] Hj].
    { rewrite <- (length_fmap fst (parameters st)), <- Hnames, length_fmap.
      by eapply lookup_lt_Some. }
    destruct (Hlook j n l0 Hj) as (init & l' & Hj' & Hget & Hcase).
    rewrite Hj1 in Hj'. simplify_eq. rewrite Hp, Hbw in Hcase. subst.
    split; [done|]. by rewrite Hd. }
  destruct (run_shares cfg percentile weight_reset m0 ops' j name l Hp Hbw
              _ _ Hs1 Hrun' Hsh1) as [Hj2 Hd2].
  destruct (reset_spec cfg weight_reset _ _ _ Hs2 Hr3)
    as (_ & _ & [ext Hext] & _ & _ & Hlook).
  destruct (Hlook j name l Hj2) as (init & l' & Hj3 & Hget & Hcase).
  rewrite Hp, Hbw in Hcase. subst l'. rewrite Hd2 in Hget. simplify_eq.
  destruct Hsh1 as [_ Hd1]. split_and!; try done.
  rewrite Hext. apply lookup_app_l.
  destruct Hs2 as (Hvp & _).
  eapply valid_elem; [exact Hvp|]. by eapply list_elem_of_lookup_2.
Qed.

(** *** Concrete runs

    The model of [model_initial], every parameter a tensor of its own; it
    is trained in place to the values of [model_trained], pruned at the
    median and reset. *)

Definition store_initial : list tensor :=
  [[10; 20; 30; 40]%Q; [3]%Q; [0]%Q; [8; 6]%Q].

Definition bindings_initial : list (string * nat) :=
  [("core.weight"%string, 0); ("core.scale"%string, 1);
   ("core.bias"%string, 2); ("readout.weight"%string, 3)].

(** An in-place update that gives every parameter its value in [m]. *)
Definition values_of (m : named_parameters) (name : string) (old : tensor)
  : tensor :=
  default old (state_dict_get m name).

Definition keep_values (_ : string) (t : tensor) : tensor := t.

(** After [__init__]: the saved copies are the tensors 4 to 7. *)
Definition pruner_initial : pruner :=
  {| store := store_initial ++ store_initial;
     parameters := bindings_initial;
     initial_state_dict :=
       [("core.weight"%string, 4); ("core.scale"%string, 5);
        ("core.bias"%string, 6); ("readout.weight"%string, 7)];
     mask := [[1; 1; 1; 1]%Q] |}.

(** After training and pruning: the pruned weight is the new tensor 8. *)
Definition pruner_pruned : pruner :=
  {| store := [[1; -3; 2; 5]%Q; [9]%Q; [7]%Q; [4; 4]%Q;
               [10; 20; 30; 40]%Q; [3]%Q; [0]%Q; [8; 6]%Q;
               [0; -3; 0; 5]%Q];
     parameters :=
       [("core.weight"%string, 8); ("core.scale"%string, 1);
        ("core.bias"%string, 2); ("readout.weight"%string, 3)];
     initial_state_dict := initial_state_dict pruner_initial;
     mask := [[0; 1; 0; 1]%Q] |}.

(** After the first reset: the bias and the readout weight are the saved
    tensors 6 and 7 themselves. *)
Definition pruner_reset : pruner :=
  {| store := store pruner_pruned ++ [[0; 20; 0; 40]%Q];
     parameters :=
       [("core.weight"%string, 9); ("core.scale"%string, 1);
        ("core.bias"%string, 6); ("readout.weight"%string, 7)];
     initial_state_dict := initial_state_dict pruner_initial;
     mask := [[0; 1; 0; 1]%Q] |}.

Definition model_retrained : named_parameters :=
  [("core.weight"%string, [0; 2; 0; 7]%Q);
   ("core.scale"%string, [4]%Q);
   ("core.bias"%string, [5]%Q);
   ("readout.weight"%string, [13; 11]%Q)].

Example first_round :
  values store_initial bindings_initial = Some model_initial /\
  init cfg_readout store_initial bindings_initial = Some pruner_initial /\
  run cfg_readout np_percentile keep_values
    [Train (values_of model_trained); Prune 50] pruner_initial
  = Some pruner_pruned /\
  reset_initialization cfg_readout keep_values false pruner_pruned
  = Some pruner_reset /\
  values (store pruner_reset) (parameters pruner_reset) = Some model_after_reset.
Proof. split_and!; vm_compute; reflexivity. Qed.

(** A parameter whose name contains neither "weight" nor "bias" is not
    prunable and is not reloaded: after the first reset it keeps the
    trained value 9 although its saved initial value is 3. *)
Lemma reset_skips_other_names :
  values store_initial bindings_initial = Some model_initial /\
  init cfg_readout store_initial bindings_initial = Some pruner_initial /\
  run cfg_readout np_percentile keep_values
    [Train (values_of model_trained); Prune 50] pruner_initial
  = Some pruner_pruned /\
  reset_initialization cfg_readout keep_values false pruner_pruned
  = Some pruner_reset /\
  prunable cfg_readout "core.scale" = false /\
  state_dict_get model_initial "core.scale" = Some [3]%Q /\
  parameters pruner_reset !! 1 = Some ("core.scale"%string, 1) /\
  store pruner_reset !! 1 = Some [9]%Q /\
  [9]%Q <> [3]%Q.
Proof. split_and!; try (vm_compute; reflexivity). discriminate. Qed.

Lemma reset_restores_saved_values_witness :
  (forall st' : pruner,
      reset_initialization cfg_readout keep_values false pruner_pruned = Some st' ->
      (parameters st').*1 = model_initial.*1 /\
      forall (j : nat) (name : string) (l : nat),
        parameters pruner_pruned !! j = Some (name, l) ->
        exists l',
          parameters st' !! j = Some (name, l') /\
          if prunable cfg_readout name
          then exists m init data',
              mask pruner_pruned !! prunable_count cfg_readout (take j model_initial)
              = Some m /\
              state_dict_get model_initial name = Some init /\
              mul m init = Some data' /\
              store st' !! l' = Some data'
          else if contains "bias" name || contains "weight" name
               then Forall (fun o => is_reset o = false)
                      [Train (values_of model_trained); Prune 50] ->
                    exists init,
                      state_dict_get model_initial name = Some init /\
                      store st' !! l' = Some init
               else l' = l /\ store st' !! l' = store pruner_pruned !! l) /\
  (forall st' : pruner,
      reset_initialization cfg_readout keep_values true pruner_pruned = Some st' ->
      (parameters st').*1 = model_initial.*1 /\
      forall (j : nat) (name : string) (l : nat),
        parameters pruner_pruned !! j = Some (name, l) ->
        exists init l',
          update_in_place keep_values (store pruner_pruned)
            (parameters pruner_pruned) !! l = Some init /\
          parameters st' !! j = Some (name, l') /\
          if prunable cfg_readout name
          then exists m data',
              mask pruner_pruned !! prunable_count cfg_readout (take j model_initial)
              = Some m /\
              mul m init = Some data' /\
              store st' !! l' = Some data'
          else l' = l /\ store st' !! l' = Some init).
Proof.
  apply (reset_restores_saved_values cfg_readout np_percentile keep_values
           store_initial bindings_initial model_initial pruner_initial
           [Train (values_of model_trained); Prune 50] pruner_pruned).
  - vm_compute. reflexivity.
  - vm_compute. reflexivity.
  - vm_compute. reflexivity.
Defined.

(** After a second training in place: the tensors 6 and 7, which are both
    parameters and saved entries, hold the trained values. *)
Definition pruner_retrained : pruner :=
  {| store := [[1; -3; 2; 5]%Q; [4]%Q; [7]%Q; [4; 4]%Q;
               [10; 20; 30; 40]%Q; [3]%Q; [5]%Q; [13; 11]%Q;
               [0; -3; 0; 5]%Q; [0; 2; 0; 7]%Q];
     parameters := parameters pruner_reset;
     initial_state_dict := initial_state_dict pruner_initial;
     mask := [[0; 1; 0; 1]%Q] |}.

Definition pruner_reset_again : pruner :=
  {| store := store pruner_retrained ++ [[0; 20; 0; 40]%Q];
     parameters :=
       [("core.weight"%string, 10); ("core.scale"%string, 1);
        ("core.bias"%string, 6); ("readout.weight"%string, 7)];
     initial_state_dict := initial_state_dict pruner_initial;
     mask := [[0; 1; 0; 1]%Q] |}.

Lemma later_resets_keep_current_values_witness :
  (parameters pruner_reset_again).*1 = model_initial.*1 /\
  forall (j : nat) (name : string) (l : nat),
    parameters pruner_reset !! j = Some (name, l) ->
    prunable cfg_readout name = false ->
    contains "bias" name || contains "weight" name = true ->
    dict_get (initial_state_dict pruner_reset) name = Some l /\
    parameters pruner_retrained !! j = Some (name, l) /\
    dict_get (initial_state_dict pruner_retrained) name = Some l /\
    parameters pruner_reset_again !! j = Some (name, l) /\
    store pruner_reset_again !! l = store pruner_retrained !! l.
Proof.
  apply (later_resets_keep_current_values cfg_readout np_percentile keep_values
           store_initial bindings_initial model_initial pruner_initial
           [Train (values_of model_trained); Prune 50] pruner_pruned
           pruner_reset [Train (values_of model_retrained)]
           pruner_retrained pruner_reset_again);
    vm_compute; reflexivity.
Defined.

(** The second round.  The bias and the readout weight now are the saved
    tensors: training in place overwrites the saved state, and the second
    reset leaves them at their trained values 5 and [13, 11], not at the
    values 0 and [8, 6] of the construction; the pruned weight still gets
    its saved values. *)
Example second_reset_keeps_trained_values :
  exists st st' : pruner,
    st = pruner_retrained /\ st' = pruner_reset_again /\
    run cfg_readout np_percentile keep_values
      [Train (values_of model_retrained)] pruner_reset = Some st /\
    reset_initialization cfg_readout keep_values false st = Some st' /\
    values (store st') (parameters st')
    = Some [("core.weight"%string, [0; 20; 0; 40]%Q);
            ("core.scale"%string, [4]%Q);
            ("core.bias"%string, [5]%Q);
            ("readout.weight"%string, [13; 11]%Q)] /\
    values (store st') (initial_state_dict st')
    = Some [("core.weight"%string, [10; 20; 30; 40]%Q);
            ("core.scale"%string, [3]%Q);
            ("core.bias"%string, [5]%Q);
            ("readout.weight"%string, [13; 11]%Q)].
Proof. do 2 eexists. split_and!; vm_compute; reflexivity. Qed.

End LotteryTicketStore.

(** ** Freezing parameters ([freeze_params] of [nntransfer/models/utils.py])

    The [freeze] argument is dynamically typed: [None], a string or a tuple
    of strings; [in] is substring search on a string and membership on a
    tuple, and iterating a string yields its characters. *)

Module Freeze.
Import LotteryTicket.

Inductive pyval : Type :=
| PNone
| PStr (s : string)
| PTuple (l : list string).

#[local] Instance pyval_eq_dec : EqDecision pyval.
Proof. solve_decision. Defined.

(** Truth value: [None], [""] and [()] are falsy. *)
Definition truthy (v : pyval) : bool :=
  match v with
  | PNone => false
  | PStr s => negb (String.eqb s "")
  | PTuple l => negb (bool_decide (l = []))
  end.

(** [key in v] *)
Definition py_in (key : string) (v : pyval) : bool :=
  match v with
  | PNone => false
  | PStr s => contains key s
  | PTuple l => bool_decide (key ∈ l)
  end.

(** The characters of a string, as strings. *)
Fixpoint chars (s : string) : list string :=
  match s with
  | EmptyString => []
  | String c s' => String c EmptyString :: chars s'
  end.

(** [for key in v] *)
Definition py_iter (v : pyval) : list string :=
  match v with
  | PNone => []
  | PStr s => chars s
  | PTuple l => l
  end.

(** The decision for one parameter name; [None] is the [raise]. *)
Definition freeze_decision (to_freeze not_to_freeze : pyval) (name : string)
  : option bool :=
  if decide (to_freeze = PStr "all") then Some true
  else if truthy to_freeze then
    Some (existsb (fun key => contains key name) (py_iter to_freeze))
  else if truthy not_to_freeze then
    Some (negb (existsb (fun key => contains key name) (py_iter not_to_freeze)))
  else None.

(** The loop over [named_parameters()]; a parameter is its name and its
    [requires_grad] flag. *)
Fixpoint freeze_loop (to_freeze not_to_freeze : pyval)
    (params : list (string * bool)) : option (list (string * bool)) :=
  match params with
  | [] => Some []
  | (name, requires_grad) :: rest =>
      match freeze_decision to_freeze not_to_freeze name with
      | None => None
      | Some freeze =>
          match freeze_loop to_freeze not_to_freeze rest with
          | None => None
          | Some rest' =>
              Some ((name, if freeze && requires_grad then false else requires_grad)
                      :: rest')
          end
      end
  end.

(** [freeze_params(model, freeze, readout_name)] *)
Definition freeze_params (model : list (string * bool)) (freeze : pyval)
    (readout_name : string) : option (list (string * bool)) :=
  if negb (truthy freeze) then Some model
  else if py_in "core" freeze then
    freeze_loop PNone (PTuple [readout_name]) model
  else if decide (freeze = PTuple ["readout"%string]) then
    freeze_loop (PTuple [readout_name]) PNone model
  else freeze_loop freeze PNone model.

Lemma freeze_loop_spec (to_freeze not_to_freeze : pyval)
    (decision : string -> bool) (params : list (string * bool)) :
  (forall name, freeze_decision to_freeze not_to_freeze name
                = Some (decision name)) ->
  freeze_loop to_freeze not_to_freeze params
  = Some ((fun p : string * bool => (p.1, negb (decision p.1) && p.2)) <$> params).
Proof.
  intros Hd. induction params as [|[name rg] rest IH]; [done|].
  simpl. rewrite Hd, IH. by destruct (decision name), rg.
Qed.

(** What is frozen, by name, for each kind of [freeze] argument. *)
Definition frozen_name (freeze : pyval) (readout_name name : string) : bool :=
  if negb (truthy freeze) then false
  else if py_in "core" freeze then negb (contains readout_name name)
  else if decide (freeze = PTuple ["readout"%string]) then contains readout_name name
  else if decide (freeze = PStr "all") then true
  else existsb (fun key => contains key name) (py_iter freeze).

Lemma contains_empty (name : string) : contains "" name = true.
Proof. by destruct name. Qed.

(** X19.  [freeze_params] never raises (its [raise] cannot be reached) and
    never turns [requires_grad] on: it keeps names and order and clears the
    flag of exactly the parameters selected by name.  With "core" in
    [freeze] these are the parameters whose name does not contain
    [readout_name], with [("readout",)] those whose name contains it, with
    ["all"] all of them, otherwise those whose name contains one of the
    given keys (one of the characters, if a string was given), and with a
    falsy [freeze] none.  So with the default [readout_name = ""], which
    every name contains, freezing the core freezes nothing and freezing
    the readout freezes everything. *)
Theorem freeze_params_by_name (model : list (string * bool)) (freeze : pyval)
    (readout_name : string) :
  freeze_params model freeze readout_name
  = Some ((fun p : string * bool =>
             (p.1, negb (frozen_name freeze readout_name p.1) && p.2)) <$> model) /\
  (forall name, py_in "core" freeze = true -> truthy freeze = true ->
                frozen_name freeze "" name = false) /\
  (forall name, frozen_name (PTuple ["readout"%string]) "" name = true).
Proof.
  split_and!.
  - unfold freeze_params, frozen_name.
    destruct (truthy freeze) eqn:Ht; simpl.
    { destruct (py_in "core" freeze) eqn:Hcore.
      - apply (freeze_loop_spec _ _ (fun name => negb (contains readout_name name))).
        intros name. unfold freeze_decision. simpl. by rewrite orb_false_r.
      - destruct (decide (freeze = PTuple ["readout"%string])) as [->|Hne].
        + apply (freeze_loop_spec _ _ (fun name => contains readout_name name)).
          intros name. unfold freeze_decision. simpl. by rewrite orb_false_r.
        + apply (freeze_loop_spec _ _
                   (fun name =>
                      if decide (freeze = PStr "all") then true
                      else existsb (fun key => contains key name) (py_iter freeze))).
          intros name. unfold freeze_decision.
          destruct (decide (freeze = PStr "all")); [done|]. by rewrite Ht. }
    rewrite <- (list_fmap_id model) at 1. apply f_equal, list_fmap_ext.
    by intros i [name []] _.
  - intros name Hcore Ht. unfold frozen_name.
    by rewrite Ht, Hcore, contains_empty.
  - intros name. unfold frozen_name. simpl. apply contains_empty.
Qed.

Example freeze_params_run :
  freeze_params
    [("core.conv.weight"%string, true); ("core.conv.bias"%string, false);
     ("readout.weight"%string, true)]
    (PTuple ["core"%string]) "readout"
  = Some [("core.conv.weight"%string, false); ("core.conv.bias"%string, false);
          ("readout.weight"%string, true)] /\
  freeze_params
    [("core.conv.weight"%string, true); ("readout.weight"%string, true)]
    (PTuple ["core"%string]) ""
  = Some [("core.conv.weight"%string, true); ("readout.weight"%string, true)] /\
  freeze_params
    [("core.conv.weight"%string, true); ("fc.w"%string, true)]
    (PStr "readout") "readout"
  = Some [("core.conv.weight"%string, false); ("fc.w"%string, true)].
Proof. split_and!; vm_compute; reflexivity. Qed.
End Freeze.

(** ** Objective records: the non-finite check and the comparison *)

Module ObjectiveRecords.
Import EarlyStopping.

(** X20.  The check of the loop,
    [map_to_task_dict(current_objective, isnotfinite).any()], fires exactly
    when some task of the record has a non-finite ['eval'] or ['loss']; on
    a record without tasks it never fires. *)
Theorem nonfinite_check_per_task (obj : objective) :
  (any (map_to_task_dict obj isnotfinite) = true <->
   exists task o, (task, o) ∈ obj /\
                  (isfinite (eval o) = false \/ isfinite (loss o) = false)) /\
  any (map_to_task_dict [] isnotfinite) = false.
Proof.
  split; [|done].
  induction obj as [|[task o] obj IH]; simpl.
  - split; [done|]. intros (task & o & Hin & _). by apply elem_of_nil in Hin.
  - unfold any, map_to_task_dict in *. simpl.
    rewrite !orb_true_iff, IH. unfold isnotfinite.
    rewrite !negb_true_iff. split.
    + intros [He|[Hl|(task' & o' & Hin & Hnf)]].
      * exists task, o. split; [apply elem_of_cons; by left|by left].
      * exists task, o. split; [apply elem_of_cons; by left|by right].
      * exists task', o'. split; [apply elem_of_cons; by right|done].
    + intros (task' & o' & Hin & Hnf).
      apply elem_of_cons in Hin as [Heq|Hin].
      * simplify_eq. destruct Hnf; auto.
      * right. right. by exists task', o'.
Qed.

(** X21.  The comparison [test_current_obj] raises ([KeyError]) exactly
    when the new record has a task that the best record lacks; otherwise
    it returns one result per task of the new record, in order.  Tasks
    that only the best record has are ignored. *)
Theorem test_current_obj_key_error (cfg : config) (a : args)
    (obj best : objective) :
  (test_current_obj cfg a obj best = None <->
   exists task o, (task, o) ∈ obj /\ get_task best task = None) /\
  (forall bs, test_current_obj cfg a obj best = Some bs ->
              length bs = length obj).
Proof.
  induction obj as [|[task o] obj [IHn IHs]]; simpl.
  - split; [|by intros ? [= <-]].
    split; [done|]. intros (task & o & Hin & _). by apply elem_of_nil in Hin.
  - destruct (get_task best task) as [b|] eqn:Hb.
    + destruct (test_current_obj cfg a obj best) as [bs|] eqn:Ht.
      * split.
        -- split; [done|]. intros (task' & o' & Hin & Hnone).
           apply elem_of_cons in Hin as [Heq|Hin]; [by simplify_eq|].
           exfalso.
           assert (Some bs = None) as Hcontra; [|done].
           apply IHn. by exists task', o'.
        -- intros bs' [= <-]. simpl. f_equal. by apply IHs.
      * split; [|done]. split; [|done]. intros _.
        destruct (proj1 IHn eq_refl) as (task' & o' & Hin & Hnone).
        exists task', o'. split; [apply elem_of_cons; by right|done].
    + split; [|done]. split; [|done]. intros _.
      exists task, o. split; [apply elem_of_cons; by left|done].
Qed.
End ObjectiveRecords.
